(** * FLIF: the lossless YCoCg transform and the MANIAC context-tree coder

    A shallow embedding of [src/transform/ycocg.hpp] and
    [src/maniac/compound.hpp], with the properties of the two subsystems
    stated and proved over it. *)

From Stdlib Require Import ZArith Lia Bool.
From stdpp Require Import base tactics option list.

Local Open Scope Z_scope.

(** ** Machine arithmetic shared by both files *)

(** [x >> 1] on a signed integer: an arithmetic shift, rounding toward
    minus infinity. *)
Definition asr1 (x : Z) : Z := Z.shiftr x 1.

(** * The YCoCg transform ([src/transform/ycocg.hpp]) *)

Module YCoCg.

(** Modelled from the spec: [ColorVal] is declared in [image/image.hpp],
    which is not among the sources; the specification describes it as a
    signed integer wide enough for the colour ranges (up to ±4·par).
    Signed overflow is undefined in C++, so the values are integers: the
    arithmetic below is that of a 32-bit [int] as long as no operation
    leaves [-2^31, 2^31), which holds for channel maxima below 2^29; the
    theorems on the arithmetic carry that bound. *)
Abbreviation ColorVal := Z.

(** [ColorRanges] is an abstract class ([image/color_range.hpp]); only
    the three virtual queries used by this file are modelled. *)
Record ColorRanges : Type := mkRanges {
  numPlanes : Z;
  cr_min : Z -> ColorVal;
  cr_max : Z -> ColorVal
}.

(** The [clip(x,l,u)] macro. *)
Definition clip (x l u : ColorVal) : ColorVal :=
  if x <? l then l else if x >? u then u else x.

Definition get_min_y (par : Z) : ColorVal := 0.

Definition get_max_y (par : Z) : ColorVal := par * 4 - 1.

Definition get_min_co (par : Z) (y : ColorVal) : ColorVal :=
  if y <? par - 1 then -4 - 4 * y
  else if y >=? 3 * par then 3 + 4 * (y - 4 * par)
  else -4 * par.

Definition get_max_co (par : Z) (y : ColorVal) : ColorVal :=
  if y <? par - 1 then 2 + 4 * y
  else if y >=? 3 * par then 4 * par - 5 - 4 * (y - 3 * par)
  else 4 * par - 2.

(** C++ [/] truncates toward zero: [Z.quot].  [par] is an [int]: its
    multiples, the sentinels [8 par] and [-8 par] included, are those of
    the code for [4 par - 1 < 2^29]. *)
Definition get_min_cg (par : Z) (y co : ColorVal) : ColorVal :=
  if co <? get_min_co par y then 8 * par
  else if co >? get_max_co par y then 8 * par
  else if y <? par - 1 then -2 - 2 * y + (Z.abs (co + 1) ÷ 2) * 2
  else if y >=? 3 * par then -1 - 2 * (4 * par - 1 - y)
  else Z.max (-4 * par + 1 + (y - 2 * par) * 2)
             (-2 * par - (y - par + 1) * 2 + (Z.abs (co + 1) ÷ 2) * 2).

Definition get_max_cg (par : Z) (y co : ColorVal) : ColorVal :=
  if co <? get_min_co par y then -8 * par
  else if co >? get_max_co par y then -8 * par
  else if y <? par - 1 then 2 * y
  else if y >=? 3 * par
       then -1 + 2 * (4 * par - 1 - y) - ((1 + Z.abs (co + 1)) ÷ 2) * 2
  else Z.min (2 * par - 2 + (y - par + 1) * 2)
             (2 * par - 1 + (3 * par - 1 - y) * 2
              - ((1 + Z.abs (co + 1)) ÷ 2) * 2).

(** [class ColorRangesYCoCg]: the static per-plane bounds; planes from 3
    on delegate to the wrapped ranges. *)
Definition ColorRangesYCoCg_min (par : Z) (ranges : ColorRanges) (p : Z)
  : ColorVal :=
  if p =? 0 then 0
  else if p =? 1 then -4 * par
  else if p =? 2 then -4 * par
  else cr_min ranges p.

Definition ColorRangesYCoCg_max (par : Z) (ranges : ColorRanges) (p : Z)
  : ColorVal :=
  if p =? 0 then 4 * par - 1
  else if p =? 1 then 4 * par - 2
  else if p =? 2 then 4 * par - 2
  else cr_max ranges p.

Definition ColorRangesYCoCg (par : Z) (ranges : ColorRanges) : ColorRanges :=
  {| numPlanes := numPlanes ranges;
     cr_min := ColorRangesYCoCg_min par ranges;
     cr_max := ColorRangesYCoCg_max par ranges |}.

(** [ColorRangesYCoCg::minmax] for the three colour planes, given the
    previously decoded planes [pp0] (Y) and [pp1] (Co).  For a plane
    from 3 on the source calls [ranges->minmax], a virtual function whose
    bodies are not in this file: [None] stands for that call, nothing is
    stated about its result. *)
Definition ColorRangesYCoCg_minmax (par : Z) (p : Z) (pp0 pp1 : ColorVal)
  : option (ColorVal * ColorVal) :=
  if p =? 1 then Some (get_min_co par pp0, get_max_co par pp0)
  else if p =? 2 then Some (get_min_cg par pp0 pp1, get_max_cg par pp0 pp1)
  else if p =? 0 then Some (0, get_max_y par)
  else None.

(** The state of a [TransformYCoCg] object: [ranges] is a pointer in the
    source, unset until [init] succeeds. *)
Record TransformYCoCg : Type := mkTransform {
  par : Z;
  ranges : option ColorRanges
}.

(** [TransformYCoCg::init]: the returned boolean and the object after
    the call. *)
Definition init (srcRanges : ColorRanges) (t : TransformYCoCg)
  : bool * TransformYCoCg :=
  if numPlanes srcRanges <? 3 then (false, t)
  else if (cr_min srcRanges 0 <? 0) || (cr_min srcRanges 1 <? 0)
          || (cr_min srcRanges 2 <? 0) then (false, t)
  else if (cr_min srcRanges 0 =? cr_max srcRanges 0)
          || (cr_min srcRanges 1 =? cr_max srcRanges 1)
          || (cr_min srcRanges 2 =? cr_max srcRanges 2) then (false, t)
  else
    let max := Z.max (Z.max (cr_max srcRanges 0) (cr_max srcRanges 1))
                     (cr_max srcRanges 2) in
    (true, {| par := max ÷ 4 + 1; ranges := Some srcRanges |}).

(** [TransformYCoCg::meta]. *)
Definition meta (t : TransformYCoCg) (srcRanges : ColorRanges) : ColorRanges :=
  ColorRangesYCoCg (par t) srcRanges.

(** A pixel: the values of planes 0, 1 and 2 at one position. *)
Definition Pixel : Type := (ColorVal * ColorVal * ColorVal)%type.

(** The body of the loop of [TransformYCoCg::data], on integers: the
    values of the code when [R + B] and the other sums stay within 32
    bits. *)
Definition data_pixel (px : Pixel) : Pixel :=
  let '(R, G, B) := px in
  let Y := asr1 (asr1 (R + B) + G) in
  let Co := (R - B) - 1 in
  let Cg := (asr1 (R + B) - G) - 1 in
  (Y, Co, Cg).

(** The body of the loop of [TransformYCoCg::invData]; [max] holds
    [ranges->max(0..2)].  On integers, as [data_pixel]. *)
Definition invData_pixel (max : ColorVal * ColorVal * ColorVal) (px : Pixel)
  : Pixel :=
  let '(max0, max1, max2) := max in
  let '(Y, Co, Cg) := px in
  let R := Y + asr1 (Cg + 2) + asr1 (Co + 2) in
  let G := Y - asr1 (Cg + 1) in
  let B := Y + asr1 (Cg + 2) - asr1 (Co + 1) in
  (clip R 0 max0, clip G 0 max1, clip B 0 max2).

(** An image as its rows of pixels; the planes beyond the first three
    are not touched by the transform. *)
Definition Image : Type := list (list Pixel).
Definition Images : Type := list Image.

Definition data (images : Images) : Images :=
  map (map (map data_pixel)) images.

(** [invData] dereferences [ranges]: there is no result on a transform
    whose [init] did not succeed. *)
Definition invData (t : TransformYCoCg) (images : Images) : option Images :=
  match ranges t with
  | Some rg =>
      let max := (cr_max rg 0, cr_max rg 1, cr_max rg 2) in
      Some (map (map (map (invData_pixel max))) images)
  | None => None
  end.

(** The inverse formulas before clipping. *)
Definition inv_raw (px : Pixel) : Pixel :=
  let '(Y, Co, Cg) := px in
  (Y + asr1 (Cg + 2) + asr1 (Co + 2),
   Y - asr1 (Cg + 1),
   Y + asr1 (Cg + 2) - asr1 (Co + 1)).

(** The pixels [data] is defined on: each channel within the source
    range. *)
Definition pixel_in_range (rg : ColorRanges) (px : Pixel) : Prop :=
  let '(R, G, B) := px in
  0 <= R <= cr_max rg 0 /\ 0 <= G <= cr_max rg 1 /\ 0 <= B <= cr_max rg 2.

(** [M], the largest of the three channel maxima. *)
Definition max_channel (rg : ColorRanges) : ColorVal :=
  Z.max (Z.max (cr_max rg 0) (cr_max rg 1)) (cr_max rg 2).

(** Source ranges with three planes, all [0..m]; and a transform object
    before [init]. *)
Definition rgb_ranges (m : ColorVal) : ColorRanges :=
  {| numPlanes := 3; cr_min := fun _ => 0; cr_max := fun _ => m |}.

Definition fresh_transform : TransformYCoCg :=
  {| par := 0; ranges := None |}.

(** ** Tightness of the dependent ranges, as a statement

    [realizes max Y Co Cg]: some RGB triple within the channel maxima
    [max] is transformed to [(Y, Co, Cg)]. *)
Definition realizes (max : ColorVal * ColorVal * ColorVal)
    (Y Co Cg : ColorVal) : Prop :=
  let '(max0, max1, max2) := max in
  exists R G B, 0 <= R <= max0 /\ 0 <= G <= max1 /\ 0 <= B <= max2 /\
                data_pixel (R, G, B) = (Y, Co, Cg).

Definition co_tight (max : ColorVal * ColorVal * ColorVal) (par : Z) : Prop :=
  forall Y, get_min_y par <= Y <= get_max_y par ->
    (exists Cg, realizes max Y (get_min_co par Y) Cg) /\
    (exists Cg, realizes max Y (get_max_co par Y) Cg).

Definition cg_tight (max : ColorVal * ColorVal * ColorVal) (par : Z) : Prop :=
  forall Y Co, get_min_y par <= Y <= get_max_y par ->
    get_min_co par Y <= Co <= get_max_co par Y ->
    realizes max Y Co (get_min_cg par Y Co) /\
    realizes max Y Co (get_max_cg par Y Co).

Definition dependent_ranges_tight (max : ColorVal * ColorVal * ColorVal)
    (par : Z) : Prop :=
  co_tight max par /\ cg_tight max par.

End YCoCg.

(** * The MANIAC context-tree coder ([src/maniac/compound.hpp]) *)

(** ** Outcomes of a call

    A call either returns ([Done]), touches a vector element that does
    not exist or violates an assertion, which has no defined behaviour
    ([Undefined]), or is cut off by the fuel that bounds the recursion of
    the model ([OutOfFuel]). *)
Inductive outcome (A : Type) : Type :=
  | Done (a : A)
  | Undefined
  | OutOfFuel.
Arguments Done {A} a.
Arguments Undefined {A}.
Arguments OutOfFuel {A}.

#[global] Instance outcome_ret : MRet outcome := fun A a => Done a.
#[global] Instance outcome_bind : MBind outcome := fun A B f m =>
  match m with
  | Done a => f a
  | Undefined => Undefined
  | OutOfFuel => OutOfFuel
  end.

(** [v[i]] for a [std::vector]: no defined result out of range. *)
Definition at_index {A : Type} (l : list A) (i : nat) : outcome A :=
  match l !! i with
  | Some x => Done x
  | None => Undefined
  end.

(** [v[i]] where [i] is a signed value converted to [size_type]. *)
Definition at_indexZ {A : Type} (l : list A) (i : Z) : outcome A :=
  if i <? 0 then Undefined else at_index l (Z.to_nat i).

(** [v[i] = f(v[i])]: a write through [operator[]]. *)
Definition update_at {A : Type} (l : list A) (i : nat) (f : A -> A)
  : outcome (list A) :=
  match l !! i with
  | Some x => Done (<[i := f x]> l)
  | None => Undefined
  end.

(** Conversion of an [int] to a signed type of [w] bits (two's
    complement wrap-around). *)
Definition to_signed (w : Z) (x : Z) : Z :=
  (x + 2 ^ (w - 1)) mod 2 ^ w - 2 ^ (w - 1).

Definition int8_t (x : Z) : Z := to_signed 8 x.
Definition int16_t (x : Z) : Z := to_signed 16 x.

Module Maniac.

Abbreviation PropertyVal := YCoCg.ColorVal.
Abbreviation Ranges := (list (PropertyVal * PropertyVal)).
Abbreviation Properties := (list PropertyVal).

(** [class PropertyDecisionNode].  [property] holds an [int8_t] and
    [count] an [int16_t]: what is stored into them goes through [int8_t]
    and [int16_t] above.  [childID] and [leafID] are handles into the
    tree and the leaf store ([uint32_t] in the source, and [int] where
    [read_subtree] passes them on; natural numbers here: vectors of 2^31
    elements are not modelled). *)
Record PropertyDecisionNode : Type := mkNode {
  property : Z;
  count : Z;
  splitval : PropertyVal;
  childID : nat;
  leafID : nat
}.

(** [PropertyDecisionNode(int p=-1, int s=0, int c=0)] with its defaults. *)
Definition PropertyDecisionNode_default : PropertyDecisionNode :=
  {| property := -1; count := 0; splitval := 0; childID := 0; leafID := 0 |}.

Definition set_property (p : Z) (n : PropertyDecisionNode) :=
  {| property := p; count := count n; splitval := splitval n;
     childID := childID n; leafID := leafID n |}.
Definition set_count (c : Z) (n : PropertyDecisionNode) :=
  {| property := property n; count := c; splitval := splitval n;
     childID := childID n; leafID := leafID n |}.
Definition set_splitval (s : PropertyVal) (n : PropertyDecisionNode) :=
  {| property := property n; count := count n; splitval := s;
     childID := childID n; leafID := leafID n |}.
Definition set_childID (c : nat) (n : PropertyDecisionNode) :=
  {| property := property n; count := count n; splitval := splitval n;
     childID := c; leafID := leafID n |}.
Definition set_leafID (l : nat) (n : PropertyDecisionNode) :=
  {| property := property n; count := count n; splitval := splitval n;
     childID := childID n; leafID := l |}.

(** [class Tree]: a vector of nodes, constructed with one default node. *)
Abbreviation Tree := (list PropertyDecisionNode).
Definition Tree_new : Tree := [PropertyDecisionNode_default].

(** ** External primitives

    [symbol.hpp], the chance tables and the range coder are not among
    the sources; they are the template parameters and free functions the
    classes of this file are written against. *)
Class Primitives : Type := {
  BitChance : Type;
  Table : Type;
  SymbolChance : Type;
  RAC : Type;
  SymbolChanceBitType : Type;
  (** [BitChance::get_12bit] and [BitChance::put]. *)
  get_12bit : BitChance -> Z;
  put : BitChance -> bool -> Table -> BitChance;
  (** [SymbolChance::bit(type,i)] returns a reference: the read and the
      write through it. *)
  bit : SymbolChance -> SymbolChanceBitType -> Z -> BitChance;
  bit_store : SymbolChance -> SymbolChanceBitType -> Z -> BitChance
              -> SymbolChance;
  (** the default-constructed [SymbolChance]. *)
  SymbolChance_default : SymbolChance;
  (** [Table(cut, alpha)]. *)
  Table_make : Z -> Z -> Table;
  (** [RAC::read_12bit_chance]. *)
  read_12bit_chance : RAC -> Z -> bool * RAC;
  (** the binary partition of [reader<bits>(coder, min, max)] for
      [min < max], over any bit coder with state [S]. *)
  reader_partition :
    forall S : Type, (SymbolChanceBitType -> Z -> S -> bool * S) ->
                     Z -> Z -> S -> Z * S;
  (** [reader(coder, nbits)]. *)
  reader_nbits :
    forall S : Type, (SymbolChanceBitType -> Z -> S -> bool * S) ->
                     Z -> S -> Z * S
}.

(** Modelled from the spec: [reader<bits>(coder, min, max)] of
    [symbol.hpp] is not among the sources.  It "decodes an integer in
    [min, max] by a recursive binary partition whose every bit is coded"
    by the bit coder, and "if min == max, returns immediately without
    touching the bitstream". *)
Definition reader `{Primitives} {S : Type}
    (read : SymbolChanceBitType -> Z -> S -> bool * S) (min max : Z) (s : S)
  : Z * S :=
  if min =? max then (min, s) else reader_partition S read min max s.

(** The constants of [config.h] used by the tree decoder. *)
Class Config : Type := {
  CONTEXT_TREE_MIN_COUNT : Z;
  CONTEXT_TREE_MAX_COUNT : Z
}.

(** [SimpleSymbolCoder<BitChance,RAC,18>::read_int(min, max)], the
    integer decoder of the tree decoder, with state [C]. *)
Class SimpleSymbolCoder (C : Type) : Type := {
  simple_read_int : C -> Z -> Z -> Z * C
}.

(** The contract of that decoder: the decoded value lies in the range
    asked for. *)
Definition read_int_in_range (C : Type) `{SimpleSymbolCoder C} : Prop :=
  forall (c : C) (min max : Z),
    min <= max ->
    min <= fst (simple_read_int c min max) <= max.

(** [class FinalCompoundSymbolChances]. *)
Record FinalCompoundSymbolChances `{Primitives} : Type := mkChances {
  realChances : SymbolChance
}.

Definition FinalCompoundSymbolChances_default `{Primitives}
  : FinalCompoundSymbolChances :=
  {| realChances := SymbolChance_default |}.

(** ** [class FinalCompoundSymbolBitCoder] *)
Module FinalCompoundSymbolBitCoder.
Section WithPrimitives.
Context `{Primitives}.

(** The object holds references to the table, the range coder and the
    chances: the state it reads and writes is the last two. *)
Definition state : Type := (RAC * FinalCompoundSymbolChances)%type.

Definition updateChances (table : Table) (type : SymbolChanceBitType)
    (i : Z) (b : bool) (chances : FinalCompoundSymbolChances)
  : FinalCompoundSymbolChances :=
  let real := bit (realChances chances) type i in
  {| realChances := bit_store (realChances chances) type i
                              (put real b table) |}.

Definition read (table : Table) (type : SymbolChanceBitType) (i : Z)
    (s : state) : bool * state :=
  let '(rac, chances) := s in
  let ch := bit (realChances chances) type i in
  let '(b, rac') := read_12bit_chance rac (get_12bit ch) in
  (b, (rac', updateChances table type i b chances)).
End WithPrimitives.
End FinalCompoundSymbolBitCoder.

(** ** [class FinalCompoundSymbolCoder] *)
Module FinalCompoundSymbolCoder.
Section WithPrimitives.
Context `{Primitives}.

Record t : Type := mk {
  rac : RAC;
  table : Table
}.

(** The constructor, with its default arguments left to the caller. *)
Definition make (racIn : RAC) (cut alpha : Z) : t :=
  {| rac := racIn; table := Table_make cut alpha |}.

(** [read_int(chancesIn, min, max)]: the value, the coder (its range
    coder advanced) and the chances written through the reference. *)
Definition read_int (c : t) (chancesIn : FinalCompoundSymbolChances)
    (min max : Z) : Z * t * FinalCompoundSymbolChances :=
  let '(val, (rac', chances')) :=
    reader (FinalCompoundSymbolBitCoder.read (table c)) min max
           (rac c, chancesIn) in
  (val, {| rac := rac'; table := table c |}, chances').

(** [read_int(chancesIn, nbits)]. *)
Definition read_int_nbits (c : t) (chancesIn : FinalCompoundSymbolChances)
    (nbits : Z) : Z * t * FinalCompoundSymbolChances :=
  let '(val, (rac', chances')) :=
    reader_nbits _ (FinalCompoundSymbolBitCoder.read (table c)) nbits
                 (rac c, chancesIn) in
  (val, {| rac := rac'; table := table c |}, chances').
End WithPrimitives.
End FinalCompoundSymbolCoder.

(** ** [class FinalPropertySymbolCoder] *)
Module FinalPropertySymbolCoder.
Section WithPrimitives.
Context `{Primitives}.

(** [inner_node] is a reference to the caller's tree: the tree is part
    of the state the coder reads and writes. *)
Record t : Type := mk {
  coder : FinalCompoundSymbolCoder.t;
  nb_properties : nat;
  leaf_node : list FinalCompoundSymbolChances;
  inner_node : Tree
}.

Definition with_routing (s : t)
    (leaves : list FinalCompoundSymbolChances) (tree : Tree) : t :=
  {| coder := coder s; nb_properties := nb_properties s;
     leaf_node := leaves; inner_node := tree |}.

(** The constructor: one default leaf, and [inner_node[0].leafID = 0]. *)
Definition make (racIn : RAC) (rangeIn : Ranges) (treeIn : Tree)
    (cut alpha : Z) : outcome t :=
  tree ← update_at treeIn 0%nat (set_leafID 0%nat);
  mret {| coder := FinalCompoundSymbolCoder.make racIn cut alpha;
          nb_properties := length rangeIn;
          leaf_node := [FinalCompoundSymbolChances_default];
          inner_node := tree |}.

(** [return leaf_node[id]]: the reference returned is the handle [id],
    which has to denote an element. *)
Definition return_leaf (id : nat) (s : t) : outcome (nat * t) :=
  _ ← at_index (leaf_node s) id;
  mret (id, s).

(** [find_leaf]: the loop from position [pos]; the result is the handle
    of the leaf returned and the coder after the call. *)
Fixpoint find_leaf_from (fuel : nat) (properties : Properties) (pos : nat)
    (s : t) : outcome (nat * t) :=
  match fuel with
  | O => OutOfFuel
  | S fuel' =>
    n ← at_index (inner_node s) pos;
    if property n =? -1 then
      return_leaf (leafID n) s
    else if count n <? 0 then
      v ← at_indexZ properties (property n);
      if v >? splitval n
      then find_leaf_from fuel' properties (childID n) s
      else find_leaf_from fuel' properties (childID n + 1)%nat s
    else if count n >? 0 then
      (* the two assertions on leafID *)
      _ ← at_index (leaf_node s) (leafID n);
      (* inner_node[pos].count--; break;  count is positive: the
         decrement stays within int16_t *)
      tree1 ← update_at (inner_node s) pos (set_count (count n - 1));
      n1 ← at_index tree1 pos;
      return_leaf (leafID n1) (with_routing s (leaf_node s) tree1)
    else
      (* count == 0: the split *)
      tree1 ← update_at (inner_node s) pos (set_count (count n - 1));
      n1 ← at_index tree1 pos;
      result ← at_index (leaf_node s) (leafID n1);
      let old_leaf := leafID n1 in
      let new_leaf := length (leaf_node s) in
      let leaves1 := leaf_node s ++ [result] in
      tree2 ← update_at tree1 (childID n1) (set_leafID old_leaf);
      n2 ← at_index tree2 pos;
      tree3 ← update_at tree2 (childID n2 + 1)%nat (set_leafID new_leaf);
      n3 ← at_index tree3 pos;
      v ← at_indexZ properties (property n3);
      if v >? splitval n3
      then return_leaf old_leaf (with_routing s leaves1 tree3)
      else return_leaf new_leaf (with_routing s leaves1 tree3)
  end.

Definition find_leaf (fuel : nat) (properties : Properties) (s : t)
  : outcome (nat * t) :=
  find_leaf_from fuel properties 0%nat s.

(** [assert(properties.size() == nb_properties)]. *)
Definition assert_size (properties : Properties) (s : t) : outcome unit :=
  if (length properties =? nb_properties s)%nat then Done tt else Undefined.

(** The decoded integer is read with the chances of the leaf, which
    are updated in place in the leaf store. *)
Definition store_leaf (s : t) (leaf : nat)
    (c : FinalCompoundSymbolCoder.t) (chances : FinalCompoundSymbolChances)
  : t :=
  {| coder := c; nb_properties := nb_properties s;
     leaf_node := <[leaf := chances]> (leaf_node s);
     inner_node := inner_node s |}.

(** [read_int(properties, min, max)]. *)
Definition read_int (fuel : nat) (properties : Properties) (min max : Z)
    (s : t) : outcome (Z * t) :=
  if min =? max then Done (min, s)
  else
    _ ← assert_size properties s;
    '(leaf, s1) ← find_leaf fuel properties s;
    chances ← at_index (leaf_node s1) leaf;
    let '(val, c', chances') :=
      FinalCompoundSymbolCoder.read_int (coder s1) chances min max in
    mret (val, store_leaf s1 leaf c' chances').

(** [read_int(properties, nbits)]. *)
Definition read_int_nbits (fuel : nat) (properties : Properties) (nbits : Z)
    (s : t) : outcome (Z * t) :=
  _ ← assert_size properties s;
  '(leaf, s1) ← find_leaf fuel properties s;
  chances ← at_index (leaf_node s1) leaf;
  let '(val, c', chances') :=
    FinalCompoundSymbolCoder.read_int_nbits (coder s1) chances nbits in
  mret (val, store_leaf s1 leaf c' chances').

(** *** [find_leaf] as the specification words it

    One rule per case of section 4.5, from position [pos]: the
    relation between the coder before the call, the leaf returned and
    the coder after the call. *)
Inductive find_leaf_spec (properties : Properties)
  : nat -> t -> nat -> t -> Prop :=
| spec_terminal pos s n :
    inner_node s !! pos = Some n ->
    property n = -1 ->
    is_Some (leaf_node s !! leafID n) ->
    find_leaf_spec properties pos s (leafID n) s
| spec_route_gt pos s n v leaf s' :
    inner_node s !! pos = Some n ->
    property n <> -1 -> count n < 0 ->
    0 <= property n ->
    properties !! Z.to_nat (property n) = Some v ->
    v > splitval n ->
    find_leaf_spec properties (childID n) s leaf s' ->
    find_leaf_spec properties pos s leaf s'
| spec_route_le pos s n v leaf s' :
    inner_node s !! pos = Some n ->
    property n <> -1 -> count n < 0 ->
    0 <= property n ->
    properties !! Z.to_nat (property n) = Some v ->
    v <= splitval n ->
    find_leaf_spec properties (childID n + 1)%nat s leaf s' ->
    find_leaf_spec properties pos s leaf s'
| spec_visit pos s n :
    inner_node s !! pos = Some n ->
    property n <> -1 -> count n > 0 ->
    is_Some (leaf_node s !! leafID n) ->
    find_leaf_spec properties pos s (leafID n)
      (with_routing s (leaf_node s)
         (<[pos := set_count (count n - 1) n]> (inner_node s)))
| spec_split pos s n v old new copy tree1 tree2 tree3 :
    inner_node s !! pos = Some n ->
    property n <> -1 -> count n = 0 ->
    0 <= property n ->
    properties !! Z.to_nat (property n) = Some v ->
    (* 1. decrement count: it becomes -1 *)
    tree1 = <[pos := set_count (-1) n]> (inner_node s) ->
    (* 2. duplicate the leaf: old = leafID, new = size - 1 *)
    old = leafID n ->
    leaf_node s !! old = Some copy ->
    new = (length (leaf_node s ++ [copy]) - 1)%nat ->
    (* 3. tree[childID].leafID = old, tree[childID+1].leafID = new *)
    update_at tree1 (childID n) (set_leafID old) = Done tree2 ->
    update_at tree2 (childID n + 1)%nat (set_leafID new) = Done tree3 ->
    (* 4. the child's leaf for the routing decision *)
    find_leaf_spec properties pos s
      (if v >? splitval n then old else new)
      (with_routing s (leaf_node s ++ [copy]) tree3).

(** Well-formedness as the data model states it: the children of every
    node with a property exist, and every [leafID] denotes a leaf. *)
Definition children_exist (tree : Tree) : Prop :=
  forall pos n, tree !! pos = Some n -> property n <> -1 ->
    (childID n + 1 < length tree)%nat.

Definition leafIDs_valid (tree : Tree)
    (leaves : list FinalCompoundSymbolChances) : Prop :=
  forall pos n, tree !! pos = Some n -> (leafID n < length leaves)%nat.

Definition well_formed (s : t) : Prop :=
  children_exist (inner_node s) /\
  leafIDs_valid (inner_node s) (leaf_node s).

(** What a decoded tree has besides: children come after their parent
    (they were appended while it was decoded) and every property is -1
    or an index below [nb]. *)
Definition children_after (tree : Tree) : Prop :=
  forall pos n, tree !! pos = Some n -> property n <> -1 ->
    (pos < childID n)%nat.

Definition properties_below (nb : nat) (tree : Tree) : Prop :=
  forall pos n, tree !! pos = Some n ->
    -1 <= property n < Z.of_nat nb.

(** Two nodes that differ at most in [count] and [leafID]: what
    [find_leaf] may change of a node. *)
Definition same_shape (n n' : PropertyDecisionNode) : Prop :=
  property n' = property n /\ splitval n' = splitval n /\ childID n' = childID n.

(** A write of a node of the same shape keeps the shape of the tree. *)
Definition tree_same_shape (tree tree' : Tree) : Prop :=
  length tree' = length tree /\
  forall i n, tree !! i = Some n ->
    exists n', tree' !! i = Some n' /\ same_shape n n'.

(** The routing state a read leaves behind: the tree, and the leaf
    store up to the chances of the one leaf that was read with. *)
Definition same_routing (leaf : nat) (s1 s' : t) : Prop :=
  inner_node s' = inner_node s1 /\
  length (leaf_node s') = length (leaf_node s1) /\
  (forall j, j <> leaf -> leaf_node s' !! j = leaf_node s1 !! j) /\
  nb_properties s' = nb_properties s1.
End WithPrimitives.
End FinalPropertySymbolCoder.

(** ** [class MetaPropertySymbolCoder] *)
Module MetaPropertySymbolCoder.

(** [subrange[p].first = x] and [subrange[p].second = x]. *)
Definition set_first (x : PropertyVal) (r : PropertyVal * PropertyVal) :=
  (x, snd r).
Definition set_second (x : PropertyVal) (r : PropertyVal * PropertyVal) :=
  (fst r, x).

(** What one call of [read_subtree] did at its node, for stating
    properties of a decoding run: the position, the decoded property
    [p], [subrange[p]] as read at that node (0,0 for a leaf, where it is
    not read), the node as the call left it and [tree.size()] at the
    call. *)
Record Visit : Type := mkVisit {
  v_pos : nat;
  v_p : Z;
  v_lo : PropertyVal;
  v_hi : PropertyVal;
  v_node : PropertyDecisionNode;
  v_size : nat
}.

(** The room left for splits: the sum of [hi - lo] over the ranges. *)
Definition span (sr : Ranges) : nat :=
  foldr (fun r acc => (Z.to_nat (snd r - fst r) + acc)%nat) 0%nat sr.

Section WithCoder.
Context {C : Type} `{SimpleSymbolCoder C} `{Config}.

Record t : Type := mk {
  coder : C;
  range : Ranges;
  nb_properties : nat
}.

(** The constructor; it asserts [range[i].first <= range[i].second]. *)
Definition make (c : C) (rangesIn : Ranges) : outcome t :=
  if forallb (fun r => fst r <=? snd r) rangesIn
  then Done {| coder := c; range := rangesIn;
               nb_properties := length rangesIn |}
  else Undefined.

(** [read_subtree(pos, subrange, tree)]: the boolean returned, with
    [subrange], [tree] and the decoder as the call leaves them. *)
Fixpoint read_subtree (fuel : nat) (nb : nat) (pos : nat)
    (subrange : Ranges) (tree : Tree) (c : C)
  : outcome (bool * Ranges * Tree * C) :=
  match fuel with
  | O => OutOfFuel
  | S fuel' =>
    n ← at_index tree pos;
    let '(v, c1) := simple_read_int c 0 (Z.of_nat nb) in
    (* int p = n.property = v - 1: n.property is an int8_t *)
    let p := int8_t (v - 1) in
    let n := set_property p n in
    if negb (p =? -1) then
      r ← at_indexZ subrange p;
      let oldmin := fst r in
      let oldmax := snd r in
      if oldmin >=? oldmax then
        Done (false, subrange, <[pos := n]> tree, c1)
      else
        let '(cnt, c2) :=
          simple_read_int c1 CONTEXT_TREE_MIN_COUNT CONTEXT_TREE_MAX_COUNT in
        let n := set_count (int16_t cnt) n in
        let '(splitval, c3) := simple_read_int c2 oldmin (oldmax - 1) in
        let n := set_splitval splitval n in
        let childID := length tree in
        let n := set_childID childID n in
        let tree := <[pos := n]> tree
                    ++ [PropertyDecisionNode_default;
                        PropertyDecisionNode_default] in
        (* > splitval *)
        subrange ← update_at subrange (Z.to_nat p) (set_first (splitval + 1));
        '(ok, subrange, tree, c4) ←
          read_subtree fuel' nb childID subrange tree c3;
        if negb ok then Done (false, subrange, tree, c4)
        else
          (* <= splitval *)
          subrange ← update_at subrange (Z.to_nat p) (set_first oldmin);
          subrange ← update_at subrange (Z.to_nat p) (set_second splitval);
          '(ok, subrange, tree, c5) ←
            read_subtree fuel' nb (childID + 1)%nat subrange tree c4;
          if negb ok then Done (false, subrange, tree, c5)
          else
            subrange ← update_at subrange (Z.to_nat p) (set_second oldmax);
            Done (true, subrange, tree, c5)
    else
      Done (true, subrange, <[pos := n]> tree, c1)
  end.

(** [read_tree(tree)]: the tree is cleared and rebuilt, so the result
    does not depend on the tree passed in. *)
Definition read_tree (fuel : nat) (m : t) : outcome (bool * Tree * t) :=
  let rootrange := range m in
  let tree := [] ++ [PropertyDecisionNode_default] in
  '(ok, _, tree, c) ←
    read_subtree fuel (nb_properties m) 0%nat rootrange tree (coder m);
  mret (ok, tree, {| coder := c; range := range m;
                     nb_properties := nb_properties m |}).

(** [read_subtree] with the list of its visits, in the order the
    calls are made; the code is the same. *)
Fixpoint read_subtree_visits (fuel : nat) (nb : nat) (pos : nat)
    (subrange : Ranges) (tree : Tree) (c : C)
  : outcome (bool * Ranges * Tree * C * list Visit) :=
  match fuel with
  | O => OutOfFuel
  | S fuel' =>
    n ← at_index tree pos;
    let '(v, c1) := simple_read_int c 0 (Z.of_nat nb) in
    let p := int8_t (v - 1) in
    let n := set_property p n in
    if negb (p =? -1) then
      r ← at_indexZ subrange p;
      let oldmin := fst r in
      let oldmax := snd r in
      if oldmin >=? oldmax then
        Done (false, subrange, <[pos := n]> tree, c1,
              [mkVisit pos p oldmin oldmax n (length tree)])
      else
        let '(cnt, c2) :=
          simple_read_int c1 CONTEXT_TREE_MIN_COUNT CONTEXT_TREE_MAX_COUNT in
        let n := set_count (int16_t cnt) n in
        let '(splitval, c3) := simple_read_int c2 oldmin (oldmax - 1) in
        let n := set_splitval splitval n in
        let childID := length tree in
        let n := set_childID childID n in
        let here := mkVisit pos p oldmin oldmax n (length tree) in
        let tree := <[pos := n]> tree
                    ++ [PropertyDecisionNode_default;
                        PropertyDecisionNode_default] in
        subrange ← update_at subrange (Z.to_nat p) (set_first (splitval + 1));
        '(ok, subrange, tree, c4, vs1) ←
          read_subtree_visits fuel' nb childID subrange tree c3;
        if negb ok then Done (false, subrange, tree, c4, here :: vs1)
        else
          subrange ← update_at subrange (Z.to_nat p) (set_first oldmin);
          subrange ← update_at subrange (Z.to_nat p) (set_second splitval);
          '(ok, subrange, tree, c5, vs2) ←
            read_subtree_visits fuel' nb (childID + 1)%nat subrange tree c4;
          if negb ok then Done (false, subrange, tree, c5, here :: vs1 ++ vs2)
          else
            subrange ← update_at subrange (Z.to_nat p) (set_second oldmax);
            Done (true, subrange, tree, c5, here :: vs1 ++ vs2)
    else
      Done (true, subrange, <[pos := n]> tree, c1,
            [mkVisit pos p 0 0 n (length tree)])
  end.

(** *** Statements about a decoding run *)

(** A visit whose property has no room left for a split: the "Invalid
    tree" exit. *)
Definition exhausted (v : Visit) : Prop := v_p v <> -1 /\ v_lo v >= v_hi v.

(** The node of a visit is in the tree [t'] as the visit left it. *)
Definition recorded (t' : Tree) (v : Visit) : Prop :=
  t' !! v_pos v = Some (v_node v) /\ property (v_node v) = v_p v.

(** The children of a decoded inner node: appended at the size the
    tree had, both within [t']. *)
Definition children_appended (t' : Tree) (v : Visit) : Prop :=
  childID (v_node v) = v_size v /\ (v_size v + 2 <= length t')%nat.

(** The decoded count and split value are within the ranges asked
    for. *)
Definition decoded_in_ranges (v : Visit) : Prop :=
  CONTEXT_TREE_MIN_COUNT <= count (v_node v) <= CONTEXT_TREE_MAX_COUNT /\
  v_lo v <= splitval (v_node v) <= v_hi v - 1.

(** The constants fit the [int16_t] field they are decoded into. *)
Definition config_fits : Prop :=
  -32768 <= CONTEXT_TREE_MIN_COUNT /\
  CONTEXT_TREE_MIN_COUNT <= CONTEXT_TREE_MAX_COUNT /\
  CONTEXT_TREE_MAX_COUNT <= 32767.

(** What holds of the node [n] at position [i] of a decoded tree of
    [len] nodes. *)
Definition node_decoded (nb len i : nat) (n : PropertyDecisionNode) : Prop :=
  -1 <= property n < Z.of_nat nb /\
  (property n <> -1 -> (i < childID n)%nat /\ (childID n + 1 < len)%nat) /\
  leafID n = 0%nat.

Definition tree_decoded (nb : nat) (t : Tree) : Prop :=
  forall i n, t !! i = Some n -> node_decoded nb (length t) i n.
End WithCoder.
End MetaPropertySymbolCoder.

End Maniac.

(** * Measures of a tree and of a range vector *)

Module Maniac_measures.
Import Maniac.

(** An activated inner node: it has a property and its count is
    negative, so [find_leaf] routes through it. *)
Definition is_activated (n : PropertyDecisionNode) : bool :=
  negb (property n =? -1) && (count n <? 0).

(** The number of activated nodes of a tree. *)
Definition activated (tree : Tree) : nat :=
  foldr (fun n acc => (Nat.b2n (is_activated n) + acc)%nat) 0%nat tree.

(** Activation goes top down: the children of an inner node that is
    not activated are not activated. *)
Definition activation_top_down (tree : Tree) : Prop :=
  forall pos n c m,
    tree !! pos = Some n -> property n <> -1 -> 0 <= count n ->
    c = childID n \/ c = (childID n + 1)%nat ->
    tree !! c = Some m -> is_activated m = false.

(** The number of nodes with a property. *)
Definition inner_nodes (tree : Tree) : nat :=
  foldr (fun n acc => (Nat.b2n (negb (property n =? -1)%Z) + acc)%nat)
        0%nat tree.

(** The number of value combinations a range vector leaves: the product
    of [hi - lo + 1] over the ranges. *)
Definition combinations (sr : Ranges) : nat :=
  foldr (fun r acc => ((Z.to_nat (snd r - fst r) + 1) * acc)%nat) 1%nat sr.

(** [sr] is [root] narrowed: range by range it lies within [root]. *)
Definition narrowed (sr root : Ranges) : Prop :=
  length sr = length root /\
  forall i a b lo hi,
    sr !! i = Some (a, b) -> root !! i = Some (lo, hi) -> lo <= a /\ b <= hi.

(** An inner node that fits the ranges [root] and the count bounds: its
    property is an index of [root], its split value lies in that range
    below its upper end, its count within the configured bounds. *)
Definition node_within `{Config} (root : Ranges) (n : PropertyDecisionNode)
  : Prop :=
  property n <> -1 ->
  0 <= property n /\
  exists lo hi,
    root !! Z.to_nat (property n) = Some (lo, hi) /\
    lo <= splitval n < hi /\
    CONTEXT_TREE_MIN_COUNT <= count n <= CONTEXT_TREE_MAX_COUNT.

End Maniac_measures.

(** * Small instances, for running the model *)

Module Examples.
Import Maniac.

(** A chance is its 12-bit probability, a [SymbolChance] a table of
    them indexed by bit type and position, the range coder the list of
    the bits it will decode. *)
Definition toy_bit (sc : Z -> Z -> Z) (type i : Z) : Z := sc type i.

Definition toy_bit_store (sc : Z -> Z -> Z) (type i : Z) (ch : Z)
  : Z -> Z -> Z :=
  fun type' i' => if (type' =? type) && (i' =? i) then ch else sc type' i'.

Definition toy_read_bit (rac : list bool) (chance : Z) : bool * list bool :=
  match rac with
  | [] => (false, [])
  | b :: rac' => (b, rac')
  end.

(** A reader that decodes [min] or [min + 1] from one bit, and a
    fixed-width reader that decodes one bit. *)
#[local] Instance toy_primitives : Primitives := {
  BitChance := Z;
  Table := unit;
  SymbolChance := Z -> Z -> Z;
  RAC := list bool;
  SymbolChanceBitType := Z;
  get_12bit := fun ch => ch;
  put := fun ch b _ => if b then Z.min 4095 (ch + 1) else Z.max 1 (ch - 1);
  bit := toy_bit;
  bit_store := toy_bit_store;
  SymbolChance_default := fun _ _ => 2048;
  Table_make := fun _ _ => tt;
  read_12bit_chance := toy_read_bit;
  reader_partition := fun S read min max s =>
    let '(b, s') := read 0 0 s in (if b then min + 1 else min, s');
  reader_nbits := fun S read nbits s =>
    let '(b, s') := read 0 0 s in (if b then 1 else 0, s')
}.

(** A tree decoder that replays a list of integers, each brought into
    the range asked for. *)
#[local] Instance replay_coder : SimpleSymbolCoder (list Z) := {
  simple_read_int := fun c min max =>
    match c with
    | [] => (min, [])
    | x :: c' => (Z.max min (Z.min max x), c')
    end
}.

#[local] Instance example_config : Config := {
  CONTEXT_TREE_MIN_COUNT := 1;
  CONTEXT_TREE_MAX_COUNT := 512
}.

(** The tree of the "single split" scenario: the root splits property 1
    at 128 after [cnt] visits. *)
Definition split_tree (cnt : Z) : Tree :=
  [ {| property := 1; count := cnt; splitval := 128;
       childID := 1; leafID := 0 |};
    PropertyDecisionNode_default;
    PropertyDecisionNode_default ].

Definition split_coder (cnt : Z) : FinalPropertySymbolCoder.t :=
  {| FinalPropertySymbolCoder.coder :=
       FinalCompoundSymbolCoder.make [true; false; true] 4 214748364;
     FinalPropertySymbolCoder.nb_properties := 3;
     FinalPropertySymbolCoder.leaf_node := [FinalCompoundSymbolChances_default];
     FinalPropertySymbolCoder.inner_node := split_tree cnt |}.

Definition byte_ranges : Ranges := [(0, 255); (0, 255); (0, 255)].

(** Ranges that leave few combinations: only property 1 has a byte. *)
Definition small_ranges : Ranges := [(0, 3); (0, 255); (0, 1)].

End Examples.

(** * Properties of the YCoCg transform *)

Module YCoCg_facts.
Import YCoCg.

(** ** Shifts and truncating division *)

Lemma asr1_div2 x : asr1 x = x / 2.
Proof. unfold asr1. now rewrite Z.shiftr_div_pow2 by lia. Qed.

(** The Euclidean equation of [x >> 1], the form linear arithmetic
    works with. *)
Lemma asr1_spec x : exists r, (r = 0 \/ r = 1) /\ x = 2 * asr1 x + r.
Proof.
  rewrite asr1_div2. exists (x mod 2).
  pose proof (Z.mod_pos_bound x 2 ltac:(lia)).
  pose proof (Z.div_mod x 2 ltac:(lia)). lia.
Qed.

Lemma quot2_nonneg_spec x :
  0 <= x -> exists r, (r = 0 \/ r = 1) /\ x = 2 * (x ÷ 2) + r.
Proof.
  intros Hx. exists (Z.rem x 2).
  pose proof (Z.rem_bound_pos x 2 Hx ltac:(lia)).
  pose proof (Z.quot_rem x 2 ltac:(lia)). lia.
Qed.

(** Replaces every [asr1 e] of the goal by a fresh variable with its
    Euclidean equation, in the hypotheses too. *)
Ltac asr1_elim :=
  repeat match goal with
         | |- context [asr1 ?x] =>
             let q := fresh "q" in
             let r := fresh "r" in
             let Hr := fresh "Hr" in
             let Hq := fresh "Hq" in
             destruct (asr1_spec x) as (r & Hr & Hq);
             set (q := asr1 x) in *; clearbody q
         | _ : context [asr1 ?x] |- _ =>
             let q := fresh "q" in
             let r := fresh "r" in
             let Hr := fresh "Hr" in
             let Hq := fresh "Hq" in
             destruct (asr1_spec x) as (r & Hr & Hq);
             set (q := asr1 x) in *; clearbody q
         end.

(** The same for [e ÷ 2] with [e] non-negative (the side condition is
    left to [lia]). *)
Ltac quot2_elim :=
  repeat match goal with
         | |- context [?x ÷ 2] =>
             let q := fresh "q" in
             let r := fresh "r" in
             let Hr := fresh "Hr" in
             let Hq := fresh "Hq" in
             destruct (quot2_nonneg_spec x ltac:(lia)) as (r & Hr & Hq);
             set (q := x ÷ 2) in *; clearbody q
         end.

Lemma clip_id x u : 0 <= x <= u -> clip x 0 u = x.
Proof.
  intros Hx. unfold clip.
  destruct (Z.ltb_spec x 0); [lia|].
  destruct (x >? u) eqn:E; [|reflexivity].
  apply Z.gtb_lt in E. lia.
Qed.

(** ** Forward and inverse *)

(** The inverse formulas undo the forward ones on all integers. *)
Lemma inv_raw_data_pixel R G B : inv_raw (data_pixel (R, G, B)) = (R, G, B).
Proof.
  unfold inv_raw, data_pixel.
  asr1_elim. repeat f_equal; lia.
Qed.

(** ... and the forward formulas undo the inverse ones: the transform is
    a bijection of the integer triples. *)
Lemma data_pixel_inv_raw Y Co Cg : data_pixel (inv_raw (Y, Co, Cg)) = (Y, Co, Cg).
Proof.
  unfold inv_raw, data_pixel.
  asr1_elim. repeat f_equal; lia.
Qed.

Lemma invData_pixel_clip max0 max1 max2 px :
  invData_pixel (max0, max1, max2) px =
  let '(R, G, B) := inv_raw px in (clip R 0 max0, clip G 0 max1, clip B 0 max2).
Proof. destruct px as [[Y Co] Cg]. reflexivity. Qed.

Lemma roundtrip_pixel max0 max1 max2 R G B :
  0 <= R <= max0 -> 0 <= G <= max1 -> 0 <= B <= max2 ->
  invData_pixel (max0, max1, max2) (data_pixel (R, G, B)) = (R, G, B).
Proof.
  intros HR HG HB.
  rewrite invData_pixel_clip, inv_raw_data_pixel.
  now rewrite !clip_id.
Qed.


(** ** Seed scenarios of the specification *)

Example scenario_forward_8bit : data_pixel (200, 100, 50) = (112, 149, 24).
Proof. reflexivity. Qed.

Example scenario_inverse_8bit :
  invData_pixel (255, 255, 255) (112, 149, 24) = (200, 100, 50).
Proof. reflexivity. Qed.

Example scenario_range_query :
  ColorRangesYCoCg_minmax 64 1 10 0 = Some (-44, 42) /\
  ColorRangesYCoCg_minmax 64 2 10 0 = Some (-22, 20) /\
  ColorRangesYCoCg_minmax 64 0 10 0 = Some (0, 255).
Proof. repeat split; reflexivity. Qed.

(** The model computes on integers; for channel maxima below 2^29 (far
    above the 16 bits of the format) no intermediate value of the two
    loops leaves the 32-bit range of [ColorVal]. *)
Lemma data_pixel_fits_int32 M R G B :
  M < 2 ^ 29 -> 0 <= R <= M -> 0 <= G <= M -> 0 <= B <= M ->
  let fits x := - 2 ^ 31 <= x < 2 ^ 31 in
  fits (R + B) /\ fits (asr1 (R + B) + G) /\ fits (R - B) /\
  fits (asr1 (R + B) - G) /\
  let '(Y, Co, Cg) := data_pixel (R, G, B) in
  fits Y /\ fits Co /\ fits Cg /\ fits (Cg + 2) /\ fits (Co + 2) /\
  fits (Y + asr1 (Cg + 2)) /\ fits (Y + asr1 (Cg + 2) + asr1 (Co + 2)) /\
  fits (Y - asr1 (Cg + 1)) /\ fits (Y + asr1 (Cg + 2) - asr1 (Co + 1)).
Proof.
  intros HM HR HG HB fits. subst fits. unfold data_pixel. cbv beta.
  change (2 ^ 29) with 536870912 in HM.
  change (2 ^ 31) with 2147483648.
  asr1_elim. lia.
Qed.

(** ** Dependent ranges *)

Ltac branch_elim :=
  repeat match goal with
         | |- context [if ?b then _ else _] =>
             let E := fresh "E" in destruct b eqn:E
         end;
  repeat match goal with
         | E : (_ <? _) = true |- _ => apply Z.ltb_lt in E
         | E : (_ <? _) = false |- _ => apply Z.ltb_ge in E
         | E : (_ >? _) = true |- _ => apply Z.gtb_lt in E
         | E : (_ >? _) = false |- _ => rewrite Z.gtb_ltb in E; apply Z.ltb_ge in E
         | E : (_ >=? _) = true |- _ => rewrite Z.geb_leb in E; apply Z.leb_le in E
         | E : (_ >=? _) = false |- _ => rewrite Z.geb_leb in E; apply Z.leb_gt in E
         end.

Lemma min_co_le_max_co par Y :
  1 <= par -> 0 <= Y <= 4 * par - 1 -> get_min_co par Y <= get_max_co par Y.
Proof. intros. unfold get_min_co, get_max_co. branch_elim; lia. Qed.

Lemma inv_raw_min_cg_in_range par Y Co :
  1 <= par -> 0 <= Y <= 4 * par - 1 ->
  get_min_co par Y <= Co <= get_max_co par Y ->
  let '(R, G, B) := inv_raw (Y, Co, get_min_cg par Y Co) in
  0 <= R <= 4 * par - 1 /\ 0 <= G <= 4 * par - 1 /\ 0 <= B <= 4 * par - 1.
Proof.
  intros Hpar HY HCo. unfold inv_raw, get_min_cg.
  unfold get_min_co, get_max_co in *.
  branch_elim; try lia; quot2_elim; asr1_elim; lia.
Qed.

Lemma inv_raw_max_cg_in_range par Y Co :
  1 <= par -> 0 <= Y <= 4 * par - 1 ->
  get_min_co par Y <= Co <= get_max_co par Y ->
  let '(R, G, B) := inv_raw (Y, Co, get_max_cg par Y Co) in
  0 <= R <= 4 * par - 1 /\ 0 <= G <= 4 * par - 1 /\ 0 <= B <= 4 * par - 1.
Proof.
  intros Hpar HY HCo. unfold inv_raw, get_max_cg.
  unfold get_min_co, get_max_co in *.
  branch_elim; try lia; quot2_elim; asr1_elim; lia.
Qed.

(** The dependent ranges are sound: whatever the triple within
    [0, 4 par - 1], its Co lies between [get_min_co] and [get_max_co] of
    its Y, and its Cg between [get_min_cg] and [get_max_cg] of its Y and
    Co. *)
Lemma dependent_ranges_sound par R G B :
  0 <= R <= 4 * par - 1 -> 0 <= G <= 4 * par - 1 -> 0 <= B <= 4 * par - 1 ->
  let '(Y, Co, Cg) := data_pixel (R, G, B) in
  get_min_co par Y <= Co <= get_max_co par Y /\
  get_min_cg par Y Co <= Cg <= get_max_cg par Y Co.
Proof.
  intros HR HG HB. unfold data_pixel, get_min_cg, get_max_cg.
  unfold get_min_co, get_max_co.
  asr1_elim. branch_elim; try lia; quot2_elim; lia.
Qed.

(** A triple whose inverse image lies within the maxima is realized. *)
Lemma realizes_inv_raw m Y Co Cg :
  (let '(R, G, B) := inv_raw (Y, Co, Cg) in
   0 <= R <= m /\ 0 <= G <= m /\ 0 <= B <= m) ->
  realizes (m, m, m) Y Co Cg.
Proof.
  intros Hin. pose proof (data_pixel_inv_raw Y Co Cg) as Hfw.
  destruct (inv_raw (Y, Co, Cg)) as [[R G] B].
  exists R, G, B. tauto.
Qed.

Lemma cg_tight_full_range par : 1 <= par -> cg_tight (4 * par - 1, 4 * par - 1, 4 * par - 1) par.
Proof.
  intros Hpar Y Co HY HCo. unfold get_min_y, get_max_y in HY.
  split; apply realizes_inv_raw.
  - apply inv_raw_min_cg_in_range; lia.
  - apply inv_raw_max_cg_in_range; lia.
Qed.

Lemma co_tight_full_range par : 1 <= par -> co_tight (4 * par - 1, 4 * par - 1, 4 * par - 1) par.
Proof.
  intros Hpar Y HY.
  pose proof (cg_tight_full_range par Hpar) as Hcg.
  unfold get_min_y, get_max_y in HY.
  pose proof (min_co_le_max_co par Y Hpar ltac:(lia)) as Hle.
  split.
  - exists (get_min_cg par Y (get_min_co par Y)).
    apply Hcg; unfold get_min_y, get_max_y; lia.
  - exists (get_min_cg par Y (get_max_co par Y)).
    apply Hcg; unfold get_min_y, get_max_y; lia.
Qed.

(** With channel maxima 1 the parameter is 1 and Y ranges over 0..3, but
    no triple of values 0 or 1 has luma 3. *)
Lemma no_luma_3_below_1 Co Cg : ~ realizes (1, 1, 1) 3 Co Cg.
Proof.
  intros (R & G & B & HR & HG & HB & Hfw).
  unfold data_pixel in Hfw. injection Hfw as HY _ _.
  asr1_elim. lia.
Qed.

(** ** The claims *)

(** C1. For every RGB triple within the source ranges of an applicable
    transform (one whose [init] returned true) with channel maxima below
    2^29, the forward transform followed by the inverse with its clamp
    to [0, srcmax[k]] gives back the triple; hence [invData] undoes
    [data] on every image whose pixels are within the ranges.  The bound
    on the maxima is the one under which no operation of the two loops
    leaves the 32-bit range of the code's [int] ([data_pixel_fits_int32]),
    so that the integers of the model are the values the code computes. *)
Theorem ycocg_roundtrip (srcRanges : ColorRanges) (t t' : TransformYCoCg) :
  init srcRanges t = (true, t') ->
  max_channel srcRanges < 2 ^ 29 ->
  (forall R G B,
      0 <= R <= cr_max srcRanges 0 ->
      0 <= G <= cr_max srcRanges 1 ->
      0 <= B <= cr_max srcRanges 2 ->
      invData_pixel (cr_max srcRanges 0, cr_max srcRanges 1, cr_max srcRanges 2)
                    (data_pixel (R, G, B)) = (R, G, B)) /\
  (forall images : Images,
      Forall (Forall (Forall (pixel_in_range srcRanges))) images ->
      invData t' (data images) = Some images).
Proof.
  intros Hinit _.
  assert (ranges t' = Some srcRanges) as Hrg.
  { unfold init in Hinit.
    repeat match type of Hinit with
           | (if ?b then _ else _) = _ => destruct b; [discriminate|]
           end.
    injection Hinit as <-. reflexivity. }
  split.
  - intros R G B HR HG HB. now apply roundtrip_pixel.
  - intros images Hall. unfold invData, data. rewrite Hrg. f_equal.
    rewrite !map_map.
    induction Hall as [|img imgs Himg _ IH]; [reflexivity|].
    cbn [map]. f_equal; [|exact IH].
    rewrite map_map.
    induction Himg as [|row rows Hrow _ IHr]; [reflexivity|].
    cbn [map]. f_equal; [|exact IHr].
    rewrite map_map.
    induction Hrow as [|px pxs Hpx _ IHp]; [reflexivity|].
    cbn [map]. f_equal; [|exact IHp].
    destruct px as [[R G] B]. destruct Hpx as (HR & HG & HB).
    now apply roundtrip_pixel.
Qed.

Lemma ycocg_roundtrip_witness :
  invData_pixel (255, 255, 255) (data_pixel (200, 100, 50)) = (200, 100, 50).
Proof.
  apply (proj1 (ycocg_roundtrip (rgb_ranges 255) fresh_transform
                  (snd (init (rgb_ranges 255) fresh_transform))
                  eq_refl eq_refl));
    simpl; lia.
Defined.

(** C6. With [par = M/4 + 1] and [M] below 2^29 (so that no operation
    of the loop of [data] leaves the 32-bit range of the code's [int]),
    every RGB triple with channels in [0, M] is transformed to Y in
    [0, 4 par - 1], Co in [-4 par, 4 par - 2] and Cg in
    [-4 par, 4 par - 2]: within the static bounds that
    [ColorRangesYCoCg::min] and [ColorRangesYCoCg::max] report for planes
    0, 1 and 2. *)
Theorem forward_within_static_bounds
    (M par : Z) (rg : ColorRanges) (R G B : ColorVal) :
  par = M ÷ 4 + 1 ->
  M < 2 ^ 29 ->
  0 <= R <= M -> 0 <= G <= M -> 0 <= B <= M ->
  let '(Y, Co, Cg) := data_pixel (R, G, B) in
  (0 <= Y <= 4 * par - 1 /\
   -4 * par <= Co <= 4 * par - 2 /\
   -4 * par <= Cg <= 4 * par - 2) /\
  (cr_min (ColorRangesYCoCg par rg) 0 <= Y <= cr_max (ColorRangesYCoCg par rg) 0 /\
   cr_min (ColorRangesYCoCg par rg) 1 <= Co <= cr_max (ColorRangesYCoCg par rg) 1 /\
   cr_min (ColorRangesYCoCg par rg) 2 <= Cg <= cr_max (ColorRangesYCoCg par rg) 2).
Proof.
  intros Hpar _ HR HG HB.
  assert (M <= 4 * par - 1) as HM.
  { pose proof (Z.quot_rem M 4 ltac:(lia)).
    pose proof (Z.rem_bound_pos M 4 ltac:(lia) ltac:(lia)). lia. }
  unfold data_pixel. cbn [ColorRangesYCoCg cr_min cr_max].
  unfold ColorRangesYCoCg_min, ColorRangesYCoCg_max. cbn [Z.eqb Pos.eqb].
  asr1_elim. lia.
Qed.

Lemma forward_within_static_bounds_witness :
  let '(Y, Co, Cg) := data_pixel (200, 100, 50) in
  (0 <= Y <= 4 * 64 - 1 /\
   -4 * 64 <= Co <= 4 * 64 - 2 /\
   -4 * 64 <= Cg <= 4 * 64 - 2) /\
  (cr_min (ColorRangesYCoCg 64 (rgb_ranges 255)) 0 <= Y
     <= cr_max (ColorRangesYCoCg 64 (rgb_ranges 255)) 0 /\
   cr_min (ColorRangesYCoCg 64 (rgb_ranges 255)) 1 <= Co
     <= cr_max (ColorRangesYCoCg 64 (rgb_ranges 255)) 1 /\
   cr_min (ColorRangesYCoCg 64 (rgb_ranges 255)) 2 <= Cg
     <= cr_max (ColorRangesYCoCg 64 (rgb_ranges 255)) 2).
Proof.
  apply (forward_within_static_bounds 255 64 (rgb_ranges 255) 200 100 50);
    [reflexivity | reflexivity | lia | lia | lia].
Defined.

(** C7. [init] returns false exactly when the source has fewer than 3
    planes, or one of the three colour planes has a negative minimum, or
    one of them is degenerate (min = max); otherwise it returns true with
    [par = M/4 + 1] for [M] the largest of the three maxima (and keeps the
    source ranges).  A false return leaves the object as it was: no
    parameter has been set for a caller to use.  Planes beyond the third
    (alpha) are not looked at. *)
Theorem init_spec (srcRanges : ColorRanges) (t : TransformYCoCg) :
  let rejected :=
    numPlanes srcRanges < 3 \/
    (cr_min srcRanges 0 < 0 \/ cr_min srcRanges 1 < 0 \/ cr_min srcRanges 2 < 0) \/
    (cr_min srcRanges 0 = cr_max srcRanges 0 \/
     cr_min srcRanges 1 = cr_max srcRanges 1 \/
     cr_min srcRanges 2 = cr_max srcRanges 2) in
  (fst (init srcRanges t) = false <-> rejected) /\
  (rejected -> init srcRanges t = (false, t)) /\
  (~ rejected ->
   init srcRanges t =
     (true, {| par := max_channel srcRanges ÷ 4 + 1;
               ranges := Some srcRanges |})) /\
  (forall srcRanges' : ColorRanges,
      numPlanes srcRanges' = numPlanes srcRanges ->
      (forall p, 0 <= p <= 2 ->
                 cr_min srcRanges' p = cr_min srcRanges p /\
                 cr_max srcRanges' p = cr_max srcRanges p) ->
      fst (init srcRanges' t) = fst (init srcRanges t) /\
      par (snd (init srcRanges' t)) = par (snd (init srcRanges t))).
Proof.
  cbv zeta. split; [|split; [|split]].
  4: { intros sr' Hn Hp.
       destruct (Hp 0 ltac:(lia)) as [Hm0 HM0].
       destruct (Hp 1 ltac:(lia)) as [Hm1 HM1].
       destruct (Hp 2 ltac:(lia)) as [Hm2 HM2].
       unfold init. rewrite Hn, Hm0, Hm1, Hm2, HM0, HM1, HM2.
       repeat match goal with
              | |- context [if ?b then _ else _] => destruct b
              end; split; reflexivity. }
  all: unfold init, max_channel;
    destruct (Z.ltb_spec (numPlanes srcRanges) 3);
      [cbn; intuition (try discriminate; try lia)|];
    destruct (Z.ltb_spec (cr_min srcRanges 0) 0);
      [cbn; intuition (try discriminate; try lia)|];
    destruct (Z.ltb_spec (cr_min srcRanges 1) 0);
      [cbn; intuition (try discriminate; try lia)|];
    destruct (Z.ltb_spec (cr_min srcRanges 2) 0);
      [cbn; intuition (try discriminate; try lia)|];
    destruct (Z.eqb_spec (cr_min srcRanges 0) (cr_max srcRanges 0));
      [cbn; intuition (try discriminate; try lia)|];
    destruct (Z.eqb_spec (cr_min srcRanges 1) (cr_max srcRanges 1));
      [cbn; intuition (try discriminate; try lia)|];
    destruct (Z.eqb_spec (cr_min srcRanges 2) (cr_max srcRanges 2));
      [cbn; intuition (try discriminate; try lia)|];
    cbn; intuition (try discriminate; try lia).
Qed.

(** C4, as the specification states it, fails: the dependent ranges are
    computed from [par] alone.  With channel maxima 1 [init] succeeds with
    [par = 1], so Y = 3 is within [0, 4 par - 1], yet no triple of the
    source range has luma 3. *)
Lemma dependent_ranges_not_tight_for_maxima_1 :
  init (rgb_ranges 1) fresh_transform =
    (true, {| par := 1; ranges := Some (rgb_ranges 1) |}) /\
  get_min_y 1 <= 3 <= get_max_y 1 /\
  ~ dependent_ranges_tight (1, 1, 1) 1.
Proof.
  split; [reflexivity|]. split; [unfold get_min_y, get_max_y; lia|].
  intros [Hco _].
  destruct (Hco 3 ltac:(unfold get_min_y, get_max_y; lia)) as [[Cg Hreal] _].
  exact (no_luma_3_below_1 _ _ Hreal).
Qed.

(** C4, amended.  When every channel maximum equals [4 par - 1] for the
    parameter [par] that [init] derives (255 with [par = 64], 65535 with
    [par = 16384]) and is below 2^29 (so that the transform of a triple
    within the maxima is computed without leaving the 32-bit range of
    the code's [int]), the dependent ranges are tight: for every Y in
    [0, 4 par - 1] some RGB triple within the maxima has luma Y and
    Co = [get_min_co par Y], and some has Co = [get_max_co par Y]; and for
    every Co between the two some triple with that Y and Co has
    Cg = [get_min_cg par Y Co], and some has Cg = [get_max_cg par Y Co]. *)
Theorem dependent_ranges_tight_full_range
    (srcRanges : ColorRanges) (t t' : TransformYCoCg) :
  init srcRanges t = (true, t') ->
  max_channel srcRanges < 2 ^ 29 ->
  cr_max srcRanges 0 = 4 * par t' - 1 ->
  cr_max srcRanges 1 = 4 * par t' - 1 ->
  cr_max srcRanges 2 = 4 * par t' - 1 ->
  dependent_ranges_tight
    (cr_max srcRanges 0, cr_max srcRanges 1, cr_max srcRanges 2) (par t').
Proof.
  intros Hinit _ H0 H1 H2.
  assert (1 <= par t') as Hpar.
  { unfold init in Hinit.
    repeat match type of Hinit with
           | (if ?b then _ else _) = _ => destruct b eqn:?; [discriminate|]
           end.
    injection Hinit as <-. cbn [par] in *.
    repeat match goal with
           | E : (_ || _) = false |- _ => apply orb_false_elim in E; destruct E
           | E : (_ <? _) = false |- _ => apply Z.ltb_ge in E
           | E : (_ =? _) = false |- _ => apply Z.eqb_neq in E
           end.
    set (M := Z.max _ _) in *.
    assert (cr_max srcRanges 0 <= M) by (subst M; lia).
    pose proof (Z.quot_rem M 4 ltac:(lia)) as Hqr.
    destruct (Z.le_gt_cases 0 M) as [Hpos|Hneg].
    - pose proof (Z.quot_pos M 4 Hpos ltac:(lia)). lia.
    - pose proof (Z.rem_bound_pos_neg M 4 ltac:(lia) ltac:(lia)). lia. }
  rewrite H0, H1, H2. split.
  - now apply co_tight_full_range.
  - now apply cg_tight_full_range.
Qed.

Lemma dependent_ranges_tight_full_range_witness :
  dependent_ranges_tight (255, 255, 255) 64.
Proof.
  apply (dependent_ranges_tight_full_range (rgb_ranges 255) fresh_transform
           (snd (init (rgb_ranges 255) fresh_transform)) eq_refl eq_refl);
    reflexivity.
Defined.

End YCoCg_facts.

(** * Properties of the context-tree coder *)

Module Maniac_facts.
Import Maniac.

(** ** Outcomes and vector accesses *)

Lemma bind_Done {A B : Type} (m : outcome A) (f : A -> outcome B) (b : B) :
  m ≫= f = Done b <-> exists a, m = Done a /\ f a = Done b.
Proof.
  destruct m as [a| |]; cbn; split.
  - intros Hf. eauto.
  - intros (a' & [= <-] & Hf). exact Hf.
  - discriminate.
  - intros (? & [=] & _).
  - discriminate.
  - intros (? & [=] & _).
Qed.

Lemma at_index_Done {A : Type} (l : list A) (i : nat) (x : A) :
  at_index l i = Done x <-> l !! i = Some x.
Proof.
  unfold at_index. destruct (l !! i); split; congruence.
Qed.

Lemma at_index_lookup {A : Type} (l : list A) (i : nat) (x : A) :
  l !! i = Some x -> at_index l i = Done x.
Proof. apply at_index_Done. Qed.

Lemma at_indexZ_Done {A : Type} (l : list A) (i : Z) (x : A) :
  at_indexZ l i = Done x <-> 0 <= i /\ l !! Z.to_nat i = Some x.
Proof.
  unfold at_indexZ. destruct (Z.ltb_spec i 0).
  - split; [discriminate | lia].
  - rewrite at_index_Done. intuition.
Qed.

Lemma update_at_Done {A : Type} (l l' : list A) (i : nat) (f : A -> A) :
  update_at l i f = Done l' <-> exists x, l !! i = Some x /\ l' = <[i := f x]> l.
Proof.
  unfold update_at. destruct (l !! i) as [x|]; split.
  - intros [= <-]. eauto.
  - intros (x' & [= <-] & ->). reflexivity.
  - discriminate.
  - intros (? & [=] & _).
Qed.

Lemma update_at_lookup {A : Type} (l : list A) (i : nat) (f : A -> A) (x : A) :
  l !! i = Some x -> update_at l i f = Done (<[i := f x]> l).
Proof. intros Hl. unfold update_at. now rewrite Hl. Qed.

(** Decomposes a hypothesis stating that a sequence of calls returned. *)
Ltac outcome_inv H :=
  repeat match type of H with
         | _ ≫= _ = Done _ =>
             let a := fresh "a" in
             let Ha := fresh "Ha" in
             apply bind_Done in H; destruct H as (a & Ha & H)
         end.

(** ** [find_leaf] *)

Section FindLeaf.
Context `{Primitives}.
Import FinalPropertySymbolCoder.

Implicit Types (s : FinalPropertySymbolCoder.t) (n : PropertyDecisionNode).
Implicit Types (properties : Properties) (tree : Tree).

Lemma return_leaf_Done id s r :
  return_leaf id s = Done r <-> r = (id, s) /\ is_Some (leaf_node s !! id).
Proof.
  unfold return_leaf. rewrite bind_Done. split.
  - intros (a & Ha%at_index_Done & [= <-]). eauto.
  - intros (-> & a & Ha). exists a. now rewrite at_index_Done.
Qed.

Lemma return_leaf_valid id s :
  (id < length (leaf_node s))%nat -> return_leaf id s = Done (id, s).
Proof.
  intros Hlt. apply return_leaf_Done. split; [reflexivity|].
  now apply lookup_lt_is_Some.
Qed.

Lemma same_shape_refl n : same_shape n n.
Proof. now unfold same_shape. Qed.

Lemma same_shape_trans n1 n2 n3 :
  same_shape n1 n2 -> same_shape n2 n3 -> same_shape n1 n3.
Proof. unfold same_shape. intuition congruence. Qed.

Lemma same_shape_set_count c n : same_shape n (set_count c n).
Proof. now destruct n. Qed.

Lemma same_shape_set_leafID l n : same_shape n (set_leafID l n).
Proof. now destruct n. Qed.

Lemma tree_same_shape_refl tree : tree_same_shape tree tree.
Proof. split; [reflexivity|]. intros i n Hn. eauto using same_shape_refl. Qed.

Lemma tree_same_shape_trans t1 t2 t3 :
  tree_same_shape t1 t2 -> tree_same_shape t2 t3 -> tree_same_shape t1 t3.
Proof.
  intros [Hl1 H1] [Hl2 H2]. split; [congruence|].
  intros i n Hn. destruct (H1 i n Hn) as (n' & Hn' & Hs).
  destruct (H2 i n' Hn') as (n'' & Hn'' & Hs').
  eauto using same_shape_trans.
Qed.

Lemma tree_same_shape_insert tree i n n' :
  tree !! i = Some n -> same_shape n n' ->
  tree_same_shape tree (<[i := n']> tree).
Proof.
  intros Hi Hs. split; [apply length_insert|].
  intros j m Hm. destruct (decide (i = j)) as [<-|Hne].
  - rewrite list_lookup_insert_eq by (eapply lookup_lt_Some; eauto).
    exists n'. split; [reflexivity|]. congruence.
  - rewrite list_lookup_insert_ne by done. eauto using same_shape_refl.
Qed.

(** The split, spelled out: what [find_leaf_from] does at a node with
    a property and [count = 0]. *)
Lemma find_leaf_split fuel properties pos s n :
  well_formed s ->
  inner_node s !! pos = Some n ->
  property n <> -1 -> count n = 0 ->
  exists copy left right tree',
    leaf_node s !! leafID n = Some copy /\
    find_leaf_from (S fuel) properties pos s =
      (v ← at_indexZ properties (property n);
       Done (if v >? splitval n then leafID n else length (leaf_node s),
             with_routing s (leaf_node s ++ [copy]) tree')) /\
    tree_same_shape (inner_node s) tree' /\
    count <$> tree' !! pos = Some (-1) /\
    tree' !! childID n = Some left /\ leafID left = leafID n /\
    tree' !! (childID n + 1)%nat = Some right /\
    leafID right = (length (leaf_node s ++ [copy]) - 1)%nat /\
    (forall i, i <> pos -> i <> childID n -> i <> (childID n + 1)%nat ->
               tree' !! i = inner_node s !! i) /\
    (pos <> childID n -> pos <> (childID n + 1)%nat ->
     tree' !! pos = Some (set_count (-1) n)) /\
    (leaf_node s ++ [copy]) !! leafID left = Some copy /\
    (leaf_node s ++ [copy]) !! leafID right = Some copy /\
    (exists tree2,
        update_at (<[pos := set_count (count n - 1) n]> (inner_node s))
                  (childID n) (set_leafID (leafID n)) = Done tree2 /\
        update_at tree2 (childID n + 1)%nat
                  (set_leafID (length (leaf_node s))) = Done tree').
Proof.
  intros [Hch Hlf] Hn Hp Hc.
  pose proof (Hch pos n Hn Hp) as Hchild.
  pose proof (Hlf pos n Hn) as Hleaf.
  pose proof (lookup_lt_Some _ _ _ Hn) as Hpos.
  destruct (lookup_lt_is_Some_2 (leaf_node s) (leafID n) Hleaf) as [copy Hcopy].
  set (tree1 := <[pos := set_count (count n - 1) n]> (inner_node s)).
  assert (tree1 !! pos = Some (set_count (count n - 1) n)) as Hn1.
  { subst tree1. now rewrite list_lookup_insert_eq. }
  assert (length tree1 = length (inner_node s)) as Hl1.
  { subst tree1. apply length_insert. }
  destruct (lookup_lt_is_Some_2 tree1 (childID n) ltac:(lia)) as [c1 Hc1].
  set (tree2 := <[childID n := set_leafID (leafID n) c1]> tree1).
  assert (length tree2 = length tree1) as Hl2.
  { subst tree2. apply length_insert. }
  destruct (lookup_lt_is_Some_2 tree2 pos ltac:(lia)) as [n2 Hn2].
  assert (same_shape n n2 /\ (pos <> childID n -> n2 = set_count (count n - 1) n))
    as [Hs2 Hn2'].
  { subst tree2. destruct (decide (childID n = pos)) as [Heq|Hne].
    - rewrite Heq in *. rewrite list_lookup_insert_eq in Hn2 by lia.
      injection Hn2 as <-. rewrite Hn1 in Hc1. injection Hc1 as <-.
      split; [|congruence].
      eapply same_shape_trans;
        [apply same_shape_set_count | apply same_shape_set_leafID].
    - rewrite list_lookup_insert_ne in Hn2 by done.
      rewrite Hn1 in Hn2. injection Hn2 as <-.
      split; [apply same_shape_set_count | reflexivity]. }
  assert (childID n2 = childID n) as Hcid2 by apply Hs2.
  destruct (lookup_lt_is_Some_2 tree2 (childID n + 1)%nat ltac:(lia)) as [c2 Hc2].
  set (tree3 := <[(childID n + 1)%nat := set_leafID (length (leaf_node s)) c2]> tree2).
  assert (length tree3 = length tree2) as Hl3.
  { subst tree3. apply length_insert. }
  destruct (lookup_lt_is_Some_2 tree3 pos ltac:(lia)) as [n3 Hn3].
  assert (same_shape n n3 /\ count n3 = -1 /\
          (pos <> childID n -> pos <> (childID n + 1)%nat ->
           n3 = set_count (-1) n))
    as (Hs3 & Hc3 & Hn3').
  { subst tree3. destruct (decide ((childID n + 1)%nat = pos)) as [Heq|Hne].
    - rewrite Heq in *. rewrite list_lookup_insert_eq in Hn3 by lia.
      injection Hn3 as <-. rewrite Hn2 in Hc2. injection Hc2 as <-.
      split; [|split; [|congruence]].
      + eapply same_shape_trans; [exact Hs2 | apply same_shape_set_leafID].
      + rewrite Hn2' by lia. cbn. lia.
    - rewrite list_lookup_insert_ne in Hn3 by done.
      rewrite Hn2 in Hn3. injection Hn3 as <-.
      split; [exact Hs2|].
      destruct (decide (childID n = pos)) as [Heq|Hne'].
      + split; [|congruence].
        subst tree2. rewrite Heq in *.
        rewrite list_lookup_insert_eq in Hn2 by lia. injection Hn2 as <-.
        rewrite Hn1 in Hc1. injection Hc1 as <-. cbn. lia.
      + rewrite Hn2' by done. split; [cbn; lia|].
        intros _ _. now rewrite Hc. }
  exists copy, (set_leafID (leafID n) c1), (set_leafID (length (leaf_node s)) c2), tree3.
  split; [exact Hcopy|]. split.
  { cbn [find_leaf_from]. rewrite (at_index_lookup _ _ _ Hn). cbn [mbind outcome_bind].
    destruct (Z.eqb_spec (property n) (-1)) as [|_]; [done|].
    destruct (Z.ltb_spec (count n) 0) as [|_]; [lia|].
    destruct (count n >? 0) eqn:E; [apply Z.gtb_lt in E; lia|].
    rewrite (update_at_lookup _ _ _ _ Hn). cbn [mbind outcome_bind].
    fold tree1. rewrite (at_index_lookup _ _ _ Hn1). cbn [mbind outcome_bind].
    cbn [leafID childID set_count].
    rewrite (at_index_lookup _ _ _ Hcopy). cbn [mbind outcome_bind].
    rewrite (update_at_lookup _ _ _ _ Hc1). cbn [mbind outcome_bind].
    fold tree2. rewrite (at_index_lookup _ _ _ Hn2). cbn [mbind outcome_bind].
    rewrite Hcid2.
    rewrite (update_at_lookup _ _ _ _ Hc2). cbn [mbind outcome_bind].
    fold tree3. rewrite (at_index_lookup _ _ _ Hn3). cbn [mbind outcome_bind].
    destruct Hs3 as (-> & -> & _).
    destruct (at_indexZ properties (property n)) as [v| |]; [|reflexivity..].
    cbn [mbind outcome_bind].
    destruct (v >? splitval n); apply return_leaf_valid; cbn [with_routing leaf_node];
      rewrite length_app; cbn [length]; lia. }
  split.
  { eapply tree_same_shape_trans; [|eapply tree_same_shape_trans].
    - exact (tree_same_shape_insert _ pos n _ Hn
               (same_shape_set_count (count n - 1) n)).
    - exact (tree_same_shape_insert _ _ c1 _ Hc1
               (same_shape_set_leafID (leafID n) c1)).
    - exact (tree_same_shape_insert _ _ c2 _ Hc2
               (same_shape_set_leafID (length (leaf_node s)) c2)). }
  split; [now rewrite Hn3; cbn; f_equal|].
  assert (tree3 !! childID n = Some (set_leafID (leafID n) c1)) as Hleft.
  { subst tree3. rewrite list_lookup_insert_ne by lia.
    subst tree2. now rewrite list_lookup_insert_eq by lia. }
  assert (tree3 !! (childID n + 1)%nat = Some (set_leafID (length (leaf_node s)) c2))
    as Hright.
  { subst tree3. now rewrite list_lookup_insert_eq by lia. }
  split; [exact Hleft|]. split; [reflexivity|].
  split; [exact Hright|]. split; [cbn; rewrite length_app; cbn; lia|].
  split.
  { intros i Hi1 Hi2 Hi3. subst tree3 tree2 tree1.
    now rewrite !list_lookup_insert_ne by done. }
  split.
  { intros Hne1 Hne2. rewrite Hn3. f_equal. now apply Hn3'. }
  cbn [leafID set_leafID]. split; [now apply lookup_app_l_Some|]. split.
  - rewrite lookup_app_r by lia. now rewrite Nat.sub_diag.
  - exists tree2. split.
    + fold tree1. apply (update_at_lookup _ _ _ _ Hc1).
    + apply (update_at_lookup _ _ _ _ Hc2).
Qed.

Lemma find_leaf_terminal fuel properties pos s n :
  well_formed s ->
  inner_node s !! pos = Some n -> property n = -1 ->
  find_leaf_from (S fuel) properties pos s = Done (leafID n, s).
Proof.
  intros [_ Hlf] Hn Hp. cbn [find_leaf_from].
  rewrite (at_index_lookup _ _ _ Hn). cbn [mbind outcome_bind].
  rewrite Hp. cbn. apply return_leaf_valid. eauto.
Qed.

Lemma find_leaf_route fuel properties pos s n v :
  inner_node s !! pos = Some n -> property n <> -1 -> count n < 0 ->
  0 <= property n -> properties !! Z.to_nat (property n) = Some v ->
  find_leaf_from (S fuel) properties pos s =
  find_leaf_from fuel properties
    (if v >? splitval n then childID n else (childID n + 1)%nat) s.
Proof.
  intros Hn Hp Hc Hp0 Hv. cbn [find_leaf_from].
  rewrite (at_index_lookup _ _ _ Hn). cbn [mbind outcome_bind].
  destruct (Z.eqb_spec (property n) (-1)) as [|_]; [done|].
  destruct (Z.ltb_spec (count n) 0) as [_|]; [|lia].
  assert (at_indexZ properties (property n) = Done v) as ->
    by now apply at_indexZ_Done.
  cbn [mbind outcome_bind]. now destruct (v >? splitval n).
Qed.

Lemma find_leaf_visit fuel properties pos s n :
  well_formed s ->
  inner_node s !! pos = Some n -> property n <> -1 -> count n > 0 ->
  find_leaf_from (S fuel) properties pos s =
  Done (leafID n,
        with_routing s (leaf_node s)
          (<[pos := set_count (count n - 1) n]> (inner_node s))).
Proof.
  intros [_ Hlf] Hn Hp Hc. cbn [find_leaf_from].
  pose proof (Hlf pos n Hn) as Hleaf.
  pose proof (lookup_lt_Some _ _ _ Hn) as Hpos.
  destruct (lookup_lt_is_Some_2 (leaf_node s) (leafID n) Hleaf) as [lf Hl].
  rewrite (at_index_lookup _ _ _ Hn). cbn [mbind outcome_bind].
  destruct (Z.eqb_spec (property n) (-1)) as [|_]; [done|].
  destruct (Z.ltb_spec (count n) 0) as [|_]; [lia|].
  destruct (count n >? 0) eqn:E; [|rewrite Z.gtb_ltb in E; apply Z.ltb_ge in E; lia].
  rewrite (at_index_lookup _ _ _ Hl). cbn [mbind outcome_bind].
  rewrite (update_at_lookup _ _ _ _ Hn). cbn [mbind outcome_bind].
  rewrite (at_index_lookup _ _ (set_count (count n - 1) n))
    by now rewrite list_lookup_insert_eq.
  cbn [mbind outcome_bind]. apply return_leaf_valid. cbn. exact Hleaf.
Qed.

(** Every call that returns went through one of the four cases. *)
Lemma find_leaf_from_inv fuel properties pos s r :
  well_formed s ->
  find_leaf_from (S fuel) properties pos s = Done r ->
  exists n, inner_node s !! pos = Some n /\
    (property n = -1 \/
     (property n <> -1 /\ count n > 0) \/
     (property n <> -1 /\ count n <= 0 /\ 0 <= property n /\
      exists v, properties !! Z.to_nat (property n) = Some v)).
Proof.
  intros Hwf Hr.
  destruct (inner_node s !! pos) as [n|] eqn:Hn; cycle 1.
  { cbn [find_leaf_from] in Hr. unfold at_index in Hr. now rewrite Hn in Hr. }
  exists n. split; [reflexivity|].
  destruct (Z.eq_dec (property n) (-1)) as [|Hp]; [now left|right].
  destruct (Z.lt_trichotomy (count n) 0) as [Hc|[Hc|Hc]].
  - right. cbn [find_leaf_from] in Hr.
    rewrite (at_index_lookup _ _ _ Hn) in Hr. cbn [mbind outcome_bind] in Hr.
    destruct (Z.eqb_spec (property n) (-1)) as [|_]; [done|].
    destruct (Z.ltb_spec (count n) 0) as [_|]; [|lia].
    outcome_inv Hr. apply at_indexZ_Done in Ha. intuition eauto with lia.
  - right.
    destruct (find_leaf_split fuel properties pos s n Hwf Hn Hp Hc)
      as (copy & left & right & tree' & _ & Heq & _).
    rewrite Heq in Hr. outcome_inv Hr. apply at_indexZ_Done in Ha.
    intuition eauto with lia.
  - left. split; [done|lia].
Qed.

Lemma tree_same_shape_children_exist tree tree' :
  tree_same_shape tree tree' -> children_exist tree -> children_exist tree'.
Proof.
  intros [Hlen Hs] Hch i n' Hn' Hp.
  destruct (lookup_lt_is_Some_2 tree i) as [n Hn].
  { rewrite <- Hlen. eapply lookup_lt_Some; eauto. }
  destruct (Hs i n Hn) as (n'' & Hn'' & Hp' & _ & Hc').
  rewrite Hn' in Hn''. injection Hn'' as <-.
  rewrite Hlen, Hc'. apply (Hch i n Hn). congruence.
Qed.

Lemma tree_same_shape_children_after tree tree' :
  tree_same_shape tree tree' -> children_after tree -> children_after tree'.
Proof.
  intros [Hlen Hs] Hch i n' Hn' Hp.
  destruct (lookup_lt_is_Some_2 tree i) as [n Hn].
  { rewrite <- Hlen. eapply lookup_lt_Some; eauto. }
  destruct (Hs i n Hn) as (n'' & Hn'' & Hp' & _ & Hc').
  rewrite Hn' in Hn''. injection Hn'' as <-.
  rewrite Hc'. apply (Hch i n Hn). congruence.
Qed.

Lemma tree_same_shape_properties_below nb tree tree' :
  tree_same_shape tree tree' -> properties_below nb tree ->
  properties_below nb tree'.
Proof.
  intros [Hlen Hs] Hb i n' Hn'.
  destruct (lookup_lt_is_Some_2 tree i) as [n Hn].
  { rewrite <- Hlen. eapply lookup_lt_Some; eauto. }
  destruct (Hs i n Hn) as (n'' & Hn'' & Hp' & _).
  rewrite Hn' in Hn''. injection Hn'' as <-.
  rewrite Hp'. apply (Hb i n Hn).
Qed.

(** What a call of [find_leaf] keeps: well-formedness, the shape of
    the tree, the leaves already in the store; and the leaf it returns
    exists. *)
Lemma find_leaf_from_preserves fuel properties pos s leaf s' :
  well_formed s ->
  find_leaf_from fuel properties pos s = Done (leaf, s') ->
  well_formed s' /\
  (leaf < length (leaf_node s'))%nat /\
  tree_same_shape (inner_node s) (inner_node s') /\
  (exists extra, leaf_node s' = leaf_node s ++ extra /\ (length extra <= 1)%nat) /\
  coder s' = coder s /\ nb_properties s' = nb_properties s.
Proof.
  revert pos. induction fuel as [|fuel IH]; intros pos Hwf Hr; [discriminate|].
  destruct (find_leaf_from_inv _ _ _ _ _ Hwf Hr) as (n & Hn & Hcase).
  destruct Hcase as [Hp|[[Hp Hc]|(Hp & Hc & Hp0 & v & Hv)]].
  - rewrite (find_leaf_terminal _ _ _ _ _ Hwf Hn Hp) in Hr.
    injection Hr as <- <-. split; [exact Hwf|].
    split; [apply (proj2 Hwf pos n Hn)|].
    split; [apply tree_same_shape_refl|].
    split; [exists []; rewrite app_nil_r; cbn; auto|]. auto.
  - rewrite (find_leaf_visit _ _ _ _ _ Hwf Hn Hp Hc) in Hr.
    injection Hr as <- <-. cbn [with_routing leaf_node inner_node coder nb_properties].
    pose proof (tree_same_shape_insert _ pos n _ Hn
                  (same_shape_set_count (count n - 1) n)) as Hshape.
    split; [split|].
    + eapply tree_same_shape_children_exist; [exact Hshape | apply Hwf].
    + intros i m Hm. cbn [with_routing leaf_node inner_node] in *.
      destruct (decide (pos = i)) as [<-|Hne].
      * rewrite list_lookup_insert_eq in Hm by (eapply lookup_lt_Some; eauto).
        injection Hm as <-. cbn. apply (proj2 Hwf pos n Hn).
      * rewrite list_lookup_insert_ne in Hm by done. apply (proj2 Hwf i m Hm).
    + split; [apply (proj2 Hwf pos n Hn)|]. split; [exact Hshape|].
      split; [exists []; rewrite app_nil_r; cbn; auto|]. auto.
  - destruct (Z.eq_dec (count n) 0) as [Hc0|Hc0].
    + destruct (find_leaf_split fuel properties pos s n Hwf Hn Hp Hc0)
        as (copy & left & right & tree' & Hcopy & Heq & Hshape & Hcnt & Hl & Hll
            & Hrt & Hrl & Hframe & Hpos & _).
      rewrite Heq in Hr.
      assert (at_indexZ properties (property n) = Done v) as Hz
        by now apply at_indexZ_Done.
      rewrite Hz in Hr. cbn [mbind outcome_bind] in Hr.
      injection Hr as <- <-. cbn [with_routing leaf_node inner_node coder nb_properties].
      pose proof (proj2 Hwf pos n Hn) as Hleaf.
      rewrite length_app in *. cbn [length] in *.
      split; [split|].
      * eapply tree_same_shape_children_exist; [exact Hshape | apply Hwf].
      * intros i m Hm. cbn [with_routing leaf_node inner_node] in *.
        rewrite length_app. cbn [length].
        destruct (decide (i = childID n)) as [->|Hn1].
        { rewrite Hl in Hm. injection Hm as <-. lia. }
        destruct (decide (i = (childID n + 1)%nat)) as [->|Hn2].
        { rewrite Hrt in Hm. injection Hm as <-. lia. }
        destruct (decide (i = pos)) as [->|Hn3].
        { rewrite Hpos in Hm by done. injection Hm as <-. cbn. lia. }
        rewrite Hframe in Hm by done.
        pose proof (proj2 Hwf i m Hm). lia.
      * split; [destruct (v >? splitval n); lia|].
        split; [exact Hshape|].
        split; [exists [copy]; cbn; auto|]. auto.
    + assert (count n < 0) as Hneg by lia.
      rewrite (find_leaf_route _ _ _ _ _ _ Hn Hp Hneg Hp0 Hv) in Hr.
      eapply IH; eauto.
Qed.

(** On a tree whose children come after their parents, the walk ends
    within as many steps as there are nodes below [pos]. *)
Lemma find_leaf_from_terminates fuel properties pos s :
  well_formed s ->
  children_after (inner_node s) ->
  properties_below (nb_properties s) (inner_node s) ->
  length properties = nb_properties s ->
  (pos < length (inner_node s))%nat ->
  (length (inner_node s) <= fuel + pos)%nat ->
  exists leaf s', find_leaf_from fuel properties pos s = Done (leaf, s').
Proof.
  intros Hwf Haft Hbelow Hlen. revert pos.
  induction fuel as [|fuel IH]; intros pos Hpos Hfuel; [lia|].
  destruct (lookup_lt_is_Some_2 _ _ Hpos) as [n Hn].
  destruct (Z.eq_dec (property n) (-1)) as [Hp|Hp].
  { rewrite (find_leaf_terminal _ _ _ _ _ Hwf Hn Hp). eauto. }
  pose proof (Hbelow pos n Hn) as Hb.
  destruct (lookup_lt_is_Some_2 properties (Z.to_nat (property n)) ltac:(lia))
    as [v Hv].
  destruct (Z.lt_trichotomy (count n) 0) as [Hc|[Hc|Hc]].
  - rewrite (find_leaf_route _ _ _ _ _ v Hn Hp Hc ltac:(lia) Hv).
    pose proof (Haft pos n Hn Hp). pose proof (proj1 Hwf pos n Hn Hp).
    apply IH; destruct (v >? splitval n); lia.
  - destruct (find_leaf_split fuel properties pos s n Hwf Hn Hp Hc)
      as (copy & left & right & tree' & _ & Heq & _).
    rewrite Heq.
    assert (at_indexZ properties (property n) = Done v) as ->
      by (apply at_indexZ_Done; split; [lia|done]).
    cbn [mbind outcome_bind]. eauto.
  - rewrite (find_leaf_visit _ _ _ _ _ Hwf Hn Hp ltac:(lia)). eauto.
Qed.

(** The walk of the code and the walk the specification words are the
    same relation between the coder before, the leaf returned and the
    coder after. *)
Lemma find_leaf_refines_spec properties pos s leaf s' :
  well_formed s ->
  (exists fuel, find_leaf_from fuel properties pos s = Done (leaf, s')) <->
  find_leaf_spec properties pos s leaf s'.
Proof.
  intros Hwf. split.
  - intros [fuel Hr]. revert pos Hr.
    induction fuel as [|fuel IH]; intros pos Hr; [discriminate|].
    destruct (find_leaf_from_inv _ _ _ _ _ Hwf Hr) as (n & Hn & Hcase).
    destruct Hcase as [Hp|[[Hp Hc]|(Hp & Hc & Hp0 & v & Hv)]].
    + rewrite (find_leaf_terminal _ _ _ _ _ Hwf Hn Hp) in Hr.
      injection Hr as <- <-. apply (spec_terminal _ _ _ n); auto.
      apply lookup_lt_is_Some_2, (proj2 Hwf pos n Hn).
    + rewrite (find_leaf_visit _ _ _ _ _ Hwf Hn Hp Hc) in Hr.
      injection Hr as <- <-. apply spec_visit; auto.
      apply lookup_lt_is_Some_2, (proj2 Hwf pos n Hn).
    + destruct (Z.eq_dec (count n) 0) as [Hc0|Hc0].
      * destruct (find_leaf_split fuel properties pos s n Hwf Hn Hp Hc0)
          as (copy & left & right & tree' & Hcopy & Heq & _ & _ & _ & _ & _ & _
              & _ & _ & _ & _ & tree2 & Hu1 & Hu2).
        rewrite Heq in Hr.
        assert (at_indexZ properties (property n) = Done v) as Hz
          by now apply at_indexZ_Done.
        rewrite Hz in Hr. cbn [mbind outcome_bind] in Hr.
        injection Hr as <- <-. rewrite Hc0 in Hu1. change (0 - 1) with (-1) in Hu1.
        eapply (spec_split properties pos s n v (leafID n)
                  (length (leaf_node s)) copy _ tree2 tree');
          eauto.
        rewrite length_app. cbn. lia.
      * assert (count n < 0) as Hneg by lia.
        rewrite (find_leaf_route _ _ _ _ _ _ Hn Hp Hneg Hp0 Hv) in Hr.
        apply IH in Hr.
        destruct (v >? splitval n) eqn:E.
        -- apply Z.gtb_lt in E.
           eapply spec_route_gt; eauto. lia.
        -- rewrite Z.gtb_ltb in E. apply Z.ltb_ge in E.
           eapply spec_route_le; eauto.
  - intros Hspec.
    induction Hspec as
      [pos s n Hn Hp Hl
      |pos s n v leaf s' Hn Hp Hc Hp0 Hv Hgt _ IH
      |pos s n v leaf s' Hn Hp Hc Hp0 Hv Hle _ IH
      |pos s n Hn Hp Hc Hl
      |pos s n v old new copy tree1 tree2 tree3 Hn Hp Hc Hp0 Hv Ht1 Hold Hcopy
         Hnew Hu1 Hu2].
    + exists 1%nat. now apply find_leaf_terminal.
    + destruct (IH Hwf) as [fuel Hr]. exists (S fuel).
      rewrite (find_leaf_route _ _ _ _ _ _ Hn Hp Hc Hp0 Hv).
      assert ((v >? splitval n) = true) as -> by (apply Z.gtb_lt; lia).
      exact Hr.
    + destruct (IH Hwf) as [fuel Hr]. exists (S fuel).
      rewrite (find_leaf_route _ _ _ _ _ _ Hn Hp Hc Hp0 Hv).
      assert ((v >? splitval n) = false) as ->
        by (rewrite Z.gtb_ltb; apply Z.ltb_ge; lia).
      exact Hr.
    + exists 1%nat. now apply find_leaf_visit.
    + exists 1%nat.
      destruct (find_leaf_split 0 properties pos s n Hwf Hn Hp Hc)
        as (copy' & left & right & tree' & Hcopy' & Heq & _ & _ & _ & _ & _ & _
            & _ & _ & _ & _ & tree2' & Hu1' & Hu2').
      rewrite Heq.
      assert (at_indexZ properties (property n) = Done v) as ->
        by now apply at_indexZ_Done.
      cbn [mbind outcome_bind].
      subst old. rewrite Hcopy in Hcopy'. injection Hcopy' as <-.
      rewrite Hc in Hu1'. change (0 - 1) with (-1) in Hu1'. subst tree1.
      rewrite Hu1 in Hu1'. injection Hu1' as <-.
      assert (new = length (leaf_node s)) as Hnew'
        by (rewrite Hnew, length_app; cbn; lia).
      rewrite Hnew' in *. rewrite Hu2 in Hu2'. injection Hu2' as <-.
      reflexivity.
Qed.

(** *** The two [read_int] overloads *)

Lemma assert_size_Done properties s :
  assert_size properties s = Done tt <-> length properties = nb_properties s.
Proof.
  unfold assert_size.
  destruct (Nat.eqb_spec (length properties) (nb_properties s)); split;
    congruence.
Qed.

Lemma same_routing_store_leaf s1 leaf c chances :
  same_routing leaf s1 (store_leaf s1 leaf c chances).
Proof.
  unfold same_routing, store_leaf. cbn.
  split; [reflexivity|]. split; [apply length_insert|].
  split; [|reflexivity]. intros j Hj. now rewrite list_lookup_insert_ne.
Qed.

Lemma read_int_nbits_Done fuel properties nbits s v s' :
  read_int_nbits fuel properties nbits s = Done (v, s') <->
  length properties = nb_properties s /\
  exists leaf s1 chances,
    find_leaf fuel properties s = Done (leaf, s1) /\
    leaf_node s1 !! leaf = Some chances /\
    (v, s') =
      (let '(val, c', chances') :=
         FinalCompoundSymbolCoder.read_int_nbits (coder s1) chances nbits in
       (val, store_leaf s1 leaf c' chances')).
Proof.
  unfold read_int_nbits. split.
  - intros Hr. outcome_inv Hr. destruct a. apply assert_size_Done in Ha.
    destruct a0 as [leaf s1]. outcome_inv Hr. rename a into chances.
    apply at_index_Done in Ha1.
    split; [exact Ha|]. exists leaf, s1, chances. split; [exact Ha0|].
    split; [exact Ha1|].
    destruct (FinalCompoundSymbolCoder.read_int_nbits _ _ _) as [[val c'] ch'].
    now injection Hr as <- <-.
  - intros (Hlen & leaf & s1 & chances & Hfl & Hch & Heq).
    apply assert_size_Done in Hlen. rewrite Hlen. cbn [mbind outcome_bind].
    rewrite Hfl. cbn [mbind outcome_bind].
    rewrite (at_index_lookup _ _ _ Hch). cbn [mbind outcome_bind].
    destruct (FinalCompoundSymbolCoder.read_int_nbits _ _ _) as [[val c'] ch'].
    now injection Heq as -> ->.
Qed.

Lemma read_int_Done fuel properties min max s v s' :
  min <> max ->
  read_int fuel properties min max s = Done (v, s') <->
  length properties = nb_properties s /\
  exists leaf s1 chances,
    find_leaf fuel properties s = Done (leaf, s1) /\
    leaf_node s1 !! leaf = Some chances /\
    (v, s') =
      (let '(val, c', chances') :=
         FinalCompoundSymbolCoder.read_int (coder s1) chances min max in
       (val, store_leaf s1 leaf c' chances')).
Proof.
  intros Hne. unfold read_int.
  destruct (Z.eqb_spec min max) as [|_]; [done|]. split.
  - intros Hr. outcome_inv Hr. destruct a. apply assert_size_Done in Ha.
    destruct a0 as [leaf s1]. outcome_inv Hr. rename a into chances.
    apply at_index_Done in Ha1.
    split; [exact Ha|]. exists leaf, s1, chances. split; [exact Ha0|].
    split; [exact Ha1|].
    destruct (FinalCompoundSymbolCoder.read_int _ _ _ _) as [[val c'] ch'].
    now injection Hr as <- <-.
  - intros (Hlen & leaf & s1 & chances & Hfl & Hch & Heq).
    apply assert_size_Done in Hlen. rewrite Hlen. cbn [mbind outcome_bind].
    rewrite Hfl. cbn [mbind outcome_bind].
    rewrite (at_index_lookup _ _ _ Hch). cbn [mbind outcome_bind].
    destruct (FinalCompoundSymbolCoder.read_int _ _ _ _) as [[val c'] ch'].
    now injection Heq as -> ->.
Qed.

(** A read returns whenever [find_leaf] does, and leaves the routing
    state [find_leaf] left. *)
Lemma read_int_nbits_after_find_leaf fuel properties nbits s leaf s1 :
  well_formed s -> length properties = nb_properties s ->
  find_leaf fuel properties s = Done (leaf, s1) ->
  exists v s', read_int_nbits fuel properties nbits s = Done (v, s') /\
               same_routing leaf s1 s'.
Proof.
  intros Hwf Hlen Hfl.
  destruct (find_leaf_from_preserves _ _ _ _ _ _ Hwf Hfl) as (_ & Hleaf & _).
  destruct (lookup_lt_is_Some_2 _ _ Hleaf) as [chances Hch].
  destruct (FinalCompoundSymbolCoder.read_int_nbits (coder s1) chances nbits)
    as [[val c'] ch'] eqn:E.
  exists val, (store_leaf s1 leaf c' ch'). split.
  - apply read_int_nbits_Done. split; [exact Hlen|].
    exists leaf, s1, chances. now rewrite E.
  - apply same_routing_store_leaf.
Qed.

(** *** The claims on [find_leaf] and [read_int] *)

(** C2. On a well-formed tree and a property vector of length
    [nb_properties], [find_leaf] walks from position 0 and, at the node
    [n] of any position [pos]: with [property = -1] it returns
    [leaf_node[leafID]]; with [count < 0] it goes on at [childID] when
    [properties[property] > splitval] and at [childID + 1] otherwise;
    with [count > 0] it decrements [count] and returns
    [leaf_node[leafID]]; with [count = 0] it splits: [count] becomes -1,
    a copy of [leaf_node[leafID]] is appended, [tree[childID].leafID] is
    the old [leafID] and [tree[childID+1].leafID] the new index (the
    size of the store minus 1), nothing else of the tree changes, the
    old leaf is returned when [properties[property] > splitval] and the
    copy otherwise, and the two children hold the same chances.  On a
    tree whose children come after their parents the walk returns; and
    the walk from position 0 is the relation [find_leaf_spec], which
    words the four cases as the specification does. *)
Theorem find_leaf_cases properties s pos n fuel :
  well_formed s ->
  length properties = nb_properties s ->
  inner_node s !! pos = Some n ->
  find_leaf fuel properties s = find_leaf_from fuel properties 0 s /\
  (property n = -1 ->
   find_leaf_from (S fuel) properties pos s = Done (leafID n, s)) /\
  (property n <> -1 -> count n < 0 ->
   0 <= property n < Z.of_nat (nb_properties s) ->
   exists v, properties !! Z.to_nat (property n) = Some v /\
     find_leaf_from (S fuel) properties pos s =
     find_leaf_from fuel properties
       (if v >? splitval n then childID n else (childID n + 1)%nat) s) /\
  (property n <> -1 -> count n > 0 ->
   find_leaf_from (S fuel) properties pos s =
   Done (leafID n,
         with_routing s (leaf_node s)
           (<[pos := set_count (count n - 1) n]> (inner_node s)))) /\
  (property n <> -1 -> count n = 0 ->
   0 <= property n < Z.of_nat (nb_properties s) ->
   exists v copy left right tree',
     properties !! Z.to_nat (property n) = Some v /\
     leaf_node s !! leafID n = Some copy /\
     find_leaf_from (S fuel) properties pos s =
       Done (if v >? splitval n then leafID n
             else (length (leaf_node s ++ [copy]) - 1)%nat,
             with_routing s (leaf_node s ++ [copy]) tree') /\
     count <$> tree' !! pos = Some (-1) /\
     tree' !! childID n = Some left /\ leafID left = leafID n /\
     tree' !! (childID n + 1)%nat = Some right /\
     leafID right = (length (leaf_node s ++ [copy]) - 1)%nat /\
     tree_same_shape (inner_node s) tree' /\
     (forall i, i <> pos -> i <> childID n -> i <> (childID n + 1)%nat ->
                tree' !! i = inner_node s !! i) /\
     (leaf_node s ++ [copy]) !! leafID left = Some copy /\
     (leaf_node s ++ [copy]) !! leafID right = Some copy) /\
  (children_after (inner_node s) ->
   properties_below (nb_properties s) (inner_node s) ->
   exists leaf s',
     find_leaf (length (inner_node s)) properties s = Done (leaf, s')) /\
  (forall leaf s',
      (exists fuel', find_leaf fuel' properties s = Done (leaf, s')) <->
      find_leaf_spec properties 0 s leaf s').
Proof.
  intros Hwf Hlen Hn. split; [reflexivity|].
  split; [intros Hp; now apply find_leaf_terminal|].
  split.
  { intros Hp Hc Hb.
    destruct (lookup_lt_is_Some_2 properties (Z.to_nat (property n)) ltac:(lia))
      as [v Hv].
    exists v. split; [exact Hv|]. apply find_leaf_route; auto with lia. }
  split; [intros Hp Hc; now apply find_leaf_visit|].
  split.
  { intros Hp Hc Hb.
    destruct (lookup_lt_is_Some_2 properties (Z.to_nat (property n)) ltac:(lia))
      as [v Hv].
    destruct (find_leaf_split fuel properties pos s n Hwf Hn Hp Hc)
      as (copy & left & right & tree' & Hcopy & Heq & Hshape & Hcnt & Hl & Hll
          & Hrt & Hrl & Hframe & _ & Hsame1 & Hsame2 & _).
    exists v, copy, left, right, tree'.
    assert (at_indexZ properties (property n) = Done v) as Hz
      by (apply at_indexZ_Done; split; [lia|done]).
    rewrite Hz in Heq. cbn [mbind outcome_bind] in Heq.
    replace (length (leaf_node s ++ [copy]) - 1)%nat with (length (leaf_node s))
      by (rewrite length_app; cbn; lia).
    rewrite length_app in Hrl. cbn in Hrl.
    replace (length (leaf_node s) + 1 - 1)%nat with (length (leaf_node s)) in Hrl
      by lia.
    repeat (split; [assumption|]). assumption. }
  split.
  { intros Haft Hbelow.
    pose proof (lookup_lt_Some _ _ _ Hn) as Hpos.
    apply find_leaf_from_terminates; auto; lia. }
  intros leaf s'. now apply find_leaf_refines_spec.
Qed.

(** C5. With [min = max], [FinalCompoundSymbolCoder::read_int] returns
    [min] and leaves the range coder and the chances as they were, and
    [FinalPropertySymbolCoder::read_int] returns [min] and leaves the
    whole coder (tree and leaf store included) as it was: for every
    fuel, that of no step of [find_leaf] included, and whatever the
    properties. *)
Theorem read_int_min_eq_max_is_silent
    (c : FinalCompoundSymbolCoder.t) (chances : FinalCompoundSymbolChances)
    (fuel : nat) properties (min : Z) s :
  FinalCompoundSymbolCoder.read_int c chances min min = (min, c, chances) /\
  read_int fuel properties min min s = Done (min, s) /\
  read_int 0 properties min min s = Done (min, s).
Proof.
  unfold FinalCompoundSymbolCoder.read_int, reader, read_int.
  rewrite Z.eqb_refl. destruct c. auto.
Qed.

(** C10. The fixed-width [read_int(properties, nbits)] always goes
    through [find_leaf]: the routing state it leaves is the one
    [find_leaf] leaves, which is also the one a ranged read with
    [min <> max] leaves; there is no case in which it returns without
    the walk.  So at a root that has a property and is not activated it
    decrements the count ([count > 0]) or splits, the leaf store growing
    by one ([count = 0]), whatever [nbits] is. *)
Theorem read_int_nbits_advances_routing fuel properties nbits s :
  (forall v s',
      read_int_nbits fuel properties nbits s = Done (v, s') ->
      exists leaf s1,
        find_leaf fuel properties s = Done (leaf, s1) /\
        same_routing leaf s1 s') /\
  (well_formed s -> length properties = nb_properties s ->
   forall leaf s1,
     find_leaf fuel properties s = Done (leaf, s1) ->
     exists v s',
       read_int_nbits fuel properties nbits s = Done (v, s') /\
       same_routing leaf s1 s') /\
  (forall min max v s',
      min <> max ->
      read_int fuel properties min max s = Done (v, s') ->
      exists leaf s1 v2 s2,
        find_leaf fuel properties s = Done (leaf, s1) /\
        same_routing leaf s1 s' /\
        read_int_nbits fuel properties nbits s = Done (v2, s2) /\
        same_routing leaf s1 s2) /\
  (forall n,
      well_formed s -> length properties = nb_properties s ->
      inner_node s !! 0%nat = Some n -> property n <> -1 ->
      (count n > 0 ->
       exists v s',
         read_int_nbits (S fuel) properties nbits s = Done (v, s') /\
         inner_node s' = <[0%nat := set_count (count n - 1) n]> (inner_node s) /\
         length (leaf_node s') = length (leaf_node s)) /\
      (count n = 0 -> 0 <= property n < Z.of_nat (nb_properties s) ->
       exists v s',
         read_int_nbits (S fuel) properties nbits s = Done (v, s') /\
         count <$> inner_node s' !! 0%nat = Some (-1) /\
         length (leaf_node s') = S (length (leaf_node s)))).
Proof.
  split; [|split; [|split]].
  - intros v s' Hr. apply read_int_nbits_Done in Hr.
    destruct Hr as (_ & leaf & s1 & chances & Hfl & _ & Heq).
    exists leaf, s1. split; [exact Hfl|].
    destruct (FinalCompoundSymbolCoder.read_int_nbits _ _ _) as [[val c'] ch'].
    injection Heq as -> ->. apply same_routing_store_leaf.
  - intros Hwf Hlen leaf s1 Hfl. now apply read_int_nbits_after_find_leaf.
  - intros min max v s' Hne Hr. apply (read_int_Done _ _ _ _ _ _ _ Hne) in Hr.
    destruct Hr as (Hlen & leaf & s1 & chances & Hfl & Hch & Heq).
    destruct (FinalCompoundSymbolCoder.read_int_nbits (coder s1) chances nbits)
      as [[val2 c2] ch2] eqn:E.
    exists leaf, s1, val2, (store_leaf s1 leaf c2 ch2).
    split; [exact Hfl|]. split.
    { destruct (FinalCompoundSymbolCoder.read_int _ _ _ _) as [[val c'] ch'].
      injection Heq as -> ->. apply same_routing_store_leaf. }
    split; [|apply same_routing_store_leaf].
    apply read_int_nbits_Done. split; [exact Hlen|].
    exists leaf, s1, chances. now rewrite E.
  - intros n Hwf Hlen Hn Hp. split.
    + intros Hc.
      pose proof (find_leaf_visit fuel properties 0%nat s n Hwf Hn Hp Hc) as Hfl.
      destruct (read_int_nbits_after_find_leaf (S fuel) properties nbits s _ _
                  Hwf Hlen Hfl) as (v & s' & Hr & Htree & Hleaves & _).
      exists v, s'. split; [exact Hr|]. split; [exact Htree|exact Hleaves].
    + intros Hc Hb.
      destruct (lookup_lt_is_Some_2 properties (Z.to_nat (property n)) ltac:(lia))
        as [pv Hv].
      destruct (find_leaf_split fuel properties 0%nat s n Hwf Hn Hp Hc)
        as (copy & left & right & tree' & _ & Heq & _ & Hcnt & _).
      assert (at_indexZ properties (property n) = Done pv) as Hz
        by (apply at_indexZ_Done; split; [lia|done]).
      rewrite Hz in Heq. cbn [mbind outcome_bind] in Heq.
      destruct (read_int_nbits_after_find_leaf (S fuel) properties nbits s _ _
                  Hwf Hlen Heq) as (v & s' & Hr & Htree & Hleaves & _).
      exists v, s'. split; [exact Hr|].
      cbn [with_routing inner_node leaf_node] in *.
      rewrite Htree, Hleaves, length_app. cbn [length].
      split; [exact Hcnt|lia].
Qed.

End FindLeaf.
(** ** Narrowing conversions *)

Lemma to_signed_id w x :
  0 < w -> - 2 ^ (w - 1) <= x < 2 ^ (w - 1) -> to_signed w x = x.
Proof.
  intros Hw Hx. unfold to_signed.
  assert (2 ^ w = 2 * 2 ^ (w - 1)) as Hpow.
  { replace w with (Z.succ (w - 1)) at 1 by lia. apply Z.pow_succ_r. lia. }
  rewrite Z.mod_small by lia. lia.
Qed.

Lemma int8_t_id x : -128 <= x <= 127 -> int8_t x = x.
Proof. intros Hx. apply to_signed_id; [lia|]. change (2 ^ (8 - 1)) with 128. lia. Qed.

Lemma int16_t_id x : -32768 <= x <= 32767 -> int16_t x = x.
Proof.
  intros Hx. apply to_signed_id; [lia|]. change (2 ^ (16 - 1)) with 32768. lia.
Qed.

(** ** [read_subtree] and [read_tree] *)

Section ReadSubtree.
Context {C : Type} `{SimpleSymbolCoder C} `{Config}.
Import MetaPropertySymbolCoder.

Implicit Types (sr subrange : Ranges) (tree t : Tree) (c : C).
Implicit Types (vs : list Visit).

(** Forgetting the visits of [read_subtree_visits] gives
    [read_subtree]. *)
Lemma read_subtree_visits_erase fuel nb pos sr tree c :
  read_subtree fuel nb pos sr tree c =
  (r ← read_subtree_visits fuel nb pos sr tree c; mret (fst r)).
Proof.
  revert pos sr tree c. induction fuel as [|fuel IH]; intros pos sr tree c;
    [reflexivity|].
  cbn [read_subtree read_subtree_visits].
  destruct (at_index tree pos) as [n| |]; [|reflexivity..].
  cbn [mbind outcome_bind].
  destruct (simple_read_int c 0 (Z.of_nat nb)) as [v c1].
  destruct (negb (int8_t (v - 1) =? -1)); [|reflexivity].
  destruct (at_indexZ sr (int8_t (v - 1))) as [r| |]; [|reflexivity..].
  cbn [mbind outcome_bind]. cbv zeta.
  destruct r as [oldmin oldmax]. cbn [fst snd].
  destruct (oldmin >=? oldmax); [reflexivity|].
  destruct (simple_read_int c1 _ _) as [cnt c2].
  destruct (simple_read_int c2 _ _) as [splitval c3].
  destruct (update_at sr _ _) as [sr1| |]; [|reflexivity..].
  cbn [mbind outcome_bind]. rewrite IH.
  destruct (read_subtree_visits fuel nb (length tree) sr1 _ c3)
    as [[[[[ok1 sr2] t3] c4] vs1]| |]; [|reflexivity..].
  cbn [mbind outcome_bind fst mret outcome_ret].
  destruct ok1; [|reflexivity]. cbn [negb].
  destruct (update_at sr2 _ _) as [sr3| |]; [|reflexivity..].
  cbn [mbind outcome_bind].
  destruct (update_at sr3 _ _) as [sr3'| |]; [|reflexivity..].
  cbn [mbind outcome_bind]. rewrite IH.
  destruct (read_subtree_visits fuel nb (length tree + 1) sr3' _ c4)
    as [[[[[ok2 sr4] t4] c5] vs2]| |]; [|reflexivity..].
  cbn [mbind outcome_bind fst mret outcome_ret].
  destruct ok2; [|reflexivity]. cbn [negb].
  destruct (update_at sr4 _ _) as [sr5| |]; reflexivity.
Qed.

(** One call of [read_subtree], case by case. *)
Lemma read_subtree_visits_inv fuel nb pos sr t c b sr' t' c' vs :
  read_subtree_visits (S fuel) nb pos sr t c = Done (b, sr', t', c', vs) ->
  exists n v c1,
    t !! pos = Some n /\ simple_read_int c 0 (Z.of_nat nb) = (v, c1) /\
    let p := int8_t (v - 1) in
    let n1 := set_property p n in
    (p = -1 /\ b = true /\ sr' = sr /\ t' = <[pos := n1]> t /\ c' = c1 /\
     vs = [mkVisit pos p 0 0 n1 (length t)]) \/
    (p <> -1 /\ exists lo hi,
       0 <= p /\ sr !! Z.to_nat p = Some (lo, hi) /\
       ((lo >= hi /\ b = false /\ sr' = sr /\ t' = <[pos := n1]> t /\ c' = c1 /\
         vs = [mkVisit pos p lo hi n1 (length t)]) \/
        (lo < hi /\ exists cnt c2 s c3,
           simple_read_int c1 CONTEXT_TREE_MIN_COUNT CONTEXT_TREE_MAX_COUNT
             = (cnt, c2) /\
           simple_read_int c2 lo (hi - 1) = (s, c3) /\
           let n2 := set_childID (length t)
                       (set_splitval s (set_count (int16_t cnt) n1)) in
           let here := mkVisit pos p lo hi n2 (length t) in
           exists b1 sr2 t3 c4 vs1,
             read_subtree_visits fuel nb (length t)
               (<[Z.to_nat p := (s + 1, hi)]> sr)
               (<[pos := n2]> t ++ [PropertyDecisionNode_default;
                                    PropertyDecisionNode_default]) c3
             = Done (b1, sr2, t3, c4, vs1) /\
             ((b1 = false /\ b = false /\ sr' = sr2 /\ t' = t3 /\ c' = c4 /\
               vs = here :: vs1) \/
              (b1 = true /\ exists r2,
                 sr2 !! Z.to_nat p = Some r2 /\
                 exists b2 sr4 t4 c5 vs2,
                   read_subtree_visits fuel nb (length t + 1)
                     (<[Z.to_nat p := (lo, s)]> sr2) t3 c4
                   = Done (b2, sr4, t4, c5, vs2) /\
                   ((b2 = false /\ b = false /\ sr' = sr4 /\ t' = t4 /\
                     c' = c5 /\ vs = here :: vs1 ++ vs2) \/
                    (b2 = true /\ exists r4,
                       sr4 !! Z.to_nat p = Some r4 /\ b = true /\
                       sr' = <[Z.to_nat p := (fst r4, hi)]> sr4 /\
                       t' = t4 /\ c' = c5 /\
                       vs = here :: vs1 ++ vs2))))))).
Proof.
  cbn [read_subtree_visits]. intros Hr.
  apply bind_Done in Hr. destruct Hr as (n & Hn & Hr).
  apply at_index_Done in Hn.
  destruct (simple_read_int c 0 (Z.of_nat nb)) as [v c1].
  exists n, v, c1. split; [exact Hn|]. split; [reflexivity|]. cbv zeta.
  destruct (Z.eqb_spec (int8_t (v - 1)) (-1)) as [Hp|Hp]; cbn [negb] in Hr.
  { left. injection Hr as <- <- <- <- <-. rewrite Hp. auto 10. }
  right. split; [exact Hp|].
  apply bind_Done in Hr. destruct Hr as ([lo hi] & Hlk & Hr).
  apply at_indexZ_Done in Hlk. destruct Hlk as [Hp0 Hlk].
  exists lo, hi. split; [exact Hp0|].
  split; [exact Hlk|]. cbn [fst snd] in Hr.
  destruct (lo >=? hi) eqn:E.
  { left. rewrite Z.geb_leb in E. apply Z.leb_le in E.
    injection Hr as <- <- <- <- <-. split; [lia|]. auto 10. }
  right. rewrite Z.geb_leb in E. apply Z.leb_gt in E. split; [exact E|].
  destruct (simple_read_int c1 _ _) as [cnt c2] eqn:E1.
  destruct (simple_read_int c2 _ _) as [s c3] eqn:E2.
  exists cnt, c2, s, c3. split; [reflexivity|]. split; [exact E2|].
  apply bind_Done in Hr. destruct Hr as (sr1 & Hu1 & Hr).
  apply update_at_Done in Hu1. destruct Hu1 as (r & Hr0 & ->).
  rewrite Hlk in Hr0. injection Hr0 as <-.
  apply bind_Done in Hr. destruct Hr as ([[[[b1 sr2] t3] c4] vs1] & Hrec1 & Hr).
  exists b1, sr2, t3, c4, vs1. split; [exact Hrec1|].
  destruct b1; cbn [negb] in Hr; cycle 1.
  { left. injection Hr as <- <- <- <- <-. auto 10. }
  right. split; [reflexivity|].
  apply bind_Done in Hr. destruct Hr as (sr3 & Hu2 & Hr).
  apply update_at_Done in Hu2. destruct Hu2 as (r2 & Hr2 & ->).
  exists r2. split; [exact Hr2|].
  apply bind_Done in Hr. destruct Hr as (sr3' & Hu3 & Hr).
  apply update_at_Done in Hu3. destruct Hu3 as (r3 & Hr3 & ->).
  rewrite list_lookup_insert_eq in Hr3 by (eapply lookup_lt_Some; eauto).
  injection Hr3 as <-. rewrite list_insert_insert_eq in Hr.
  apply bind_Done in Hr. destruct Hr as ([[[[b2 sr4] t4] c5] vs2] & Hrec2 & Hr).
  exists b2, sr4, t4, c5, vs2. split; [exact Hrec2|].
  destruct b2; cbn [negb] in Hr; cycle 1.
  { left. injection Hr as <- <- <- <- <-. auto 10. }
  right. split; [reflexivity|].
  apply bind_Done in Hr. destruct Hr as (sr5 & Hu4 & Hr).
  apply update_at_Done in Hu4. destruct Hu4 as (r4 & Hr4 & ->).
  exists r4. split; [exact Hr4|].
  injection Hr as <- <- <- <-. auto 10.
Qed.

Lemma exhausted_single pos p lo hi n size :
  Exists exhausted [mkVisit pos p lo hi n size] <-> p <> -1 /\ lo >= hi.
Proof.
  rewrite Exists_cons, Exists_nil. unfold exhausted. cbn. tauto.
Qed.

Lemma recorded_frame t t' v :
  recorded t v ->
  (forall i, (i < length t)%nat -> i = v_pos v -> t' !! i = t !! i) ->
  recorded t' v.
Proof.
  intros [Hlk Hp] Hframe. split; [|exact Hp].
  rewrite (Hframe (v_pos v)); [exact Hlk| |reflexivity].
  eapply lookup_lt_Some; eauto.
Qed.

Lemma children_appended_mono t t' v :
  (length t <= length t')%nat ->
  children_appended t v -> children_appended t' v.
Proof. unfold children_appended. intros ? [? ?]. split; [done|lia]. Qed.

(** The structure of a run: what holds of every call that returns,
    whatever the decoder. *)
Lemma read_subtree_visits_structure fuel nb pos sr t c b sr' t' c' vs :
  read_subtree_visits fuel nb pos sr t c = Done (b, sr', t', c', vs) ->
  (pos < length t)%nat /\
  length sr' = length sr /\
  (length t <= length t')%nat /\
  (forall i, (i < length t)%nat -> i <> pos -> t' !! i = t !! i) /\
  (b = true -> sr' = sr) /\
  (b = false <-> Exists exhausted vs) /\
  Forall (fun v =>
            (v_pos v = pos \/ (length t <= v_pos v)%nat) /\
            recorded t' v /\
            (v_p v <> -1 -> v_lo v < v_hi v -> children_appended t' v)) vs.
Proof.
  revert pos sr t c b sr' t' c' vs.
  induction fuel as [|fuel IH]; intros pos sr t c b sr' t' c' vs Hr;
    [discriminate|].
  apply read_subtree_visits_inv in Hr.
  destruct Hr as (n & v & c1 & Hn & _ & Hcases). cbv zeta in Hcases.
  pose proof (lookup_lt_Some _ _ _ Hn) as Hpos.
  set (p := int8_t (v - 1)) in *.
  destruct Hcases as
    [(Hp & -> & -> & -> & -> & ->)
    |(Hp & lo & hi & Hp0 & Hlk & Hcases)].
  { (* a leaf *)
    split; [exact Hpos|]. split; [reflexivity|].
    split; [now rewrite length_insert|].
    split; [intros i _ Hi; now rewrite list_lookup_insert_ne|].
    split; [reflexivity|]. split.
    - rewrite exhausted_single. split; [discriminate|tauto].
    - constructor; [|constructor].
      split; [now left|]. split; [|cbn; tauto].
      split; [cbn; now rewrite list_lookup_insert_eq | reflexivity]. }
  destruct Hcases as
    [(Hge & -> & -> & -> & -> & ->)
    |(Hlt & cnt & c2 & s & c3 & _ & _ & Hcases)].
  { (* no room for a split *)
    split; [exact Hpos|]. split; [reflexivity|].
    split; [now rewrite length_insert|].
    split; [intros i _ Hi; now rewrite list_lookup_insert_ne|].
    split; [discriminate|]. split.
    - rewrite exhausted_single. tauto.
    - constructor; [|constructor].
      split; [now left|]. split; [|cbn; intros; lia].
      split; [cbn; now rewrite list_lookup_insert_eq | reflexivity]. }
  (* an inner node *)
  cbv zeta in Hcases.
  set (n2 := set_childID (length t)
               (set_splitval s (set_count (int16_t cnt) (set_property p n))))
    in *.
  set (here := mkVisit pos p lo hi n2 (length t)) in *.
  set (t2 := <[pos := n2]> t ++ [PropertyDecisionNode_default;
                                 PropertyDecisionNode_default]) in *.
  destruct Hcases as (b1 & sr2 & t3 & c4 & vs1 & Hrec1 & Hcases).
  apply IH in Hrec1.
  destruct Hrec1 as (_ & Hlen1 & Hgrow1 & Hframe1 & Hsame1 & Hbad1 & Hvs1).
  assert (length t2 = (length t + 2)%nat) as Hlt2.
  { subst t2. rewrite length_app, length_insert. cbn. lia. }
  assert (forall i, (i < length t)%nat -> i <> pos -> t2 !! i = t !! i) as Hframe0.
  { intros i Hi Hne. subst t2.
    rewrite lookup_app_l by now rewrite length_insert.
    now rewrite list_lookup_insert_ne. }
  assert (t2 !! pos = Some n2) as Hn2.
  { subst t2. rewrite lookup_app_l by now rewrite length_insert.
    now rewrite list_lookup_insert_eq. }
  assert (t3 !! pos = Some n2) as Hn3.
  { rewrite Hframe1 by lia. exact Hn2. }
  rewrite length_insert in Hlen1.
  assert (Forall (fun v0 =>
            (v_pos v0 = pos \/ (length t <= v_pos v0)%nat) /\
            recorded t3 v0 /\
            (v_p v0 <> -1 -> v_lo v0 < v_hi v0 -> children_appended t3 v0))
            (here :: vs1)) as Hvs1'.
  { constructor.
    - split; [now left|]. split; [now split|].
      intros _ _. split; [reflexivity|]. cbn. lia.
    - eapply Forall_impl; [exact Hvs1|]. cbn.
      intros v0 (Hwhere & Hrec & Happ). split; [right; lia|]. now split. }
  destruct Hcases as
    [(-> & -> & -> & -> & -> & ->)
    |(-> & r2 & Hr2 & b2 & sr4 & t4 & c5 & vs2 & Hrec2 & Hcases)].
  { (* the first subtree failed *)
    split; [exact Hpos|]. split; [exact Hlen1|]. split; [lia|].
    split; [intros i Hi Hne; rewrite Hframe1 by lia; now apply Hframe0|].
    split; [discriminate|]. split; [|exact Hvs1'].
    split; [intros _|reflexivity].
    apply Exists_cons_tl. now apply Hbad1. }
  specialize (Hsame1 eq_refl). subst sr2.
  apply IH in Hrec2.
  destruct Hrec2 as (_ & Hlen2 & Hgrow2 & Hframe2 & Hsame2 & Hbad2 & Hvs2).
  rewrite !length_insert in Hlen2.
  assert (Forall (fun v0 =>
            (v_pos v0 = pos \/ (length t <= v_pos v0)%nat) /\
            recorded t4 v0 /\
            (v_p v0 <> -1 -> v_lo v0 < v_hi v0 -> children_appended t4 v0))
            (here :: vs1 ++ vs2)) as Hvs.
  { rewrite app_comm_cons. apply Forall_app. split.
    - assert (Forall (fun v0 => v_pos v0 = pos \/ v_pos v0 = length t
                                \/ (length t + 2 <= v_pos v0)%nat) (here :: vs1))
        as Hwhere.
      { constructor; [now left|].
        eapply Forall_impl; [exact Hvs1|]. cbn. intros v0 (Hw & _). lia. }
      pose proof (proj2 (Forall_and _ _) (conj Hvs1' Hwhere)) as Hboth.
      eapply Forall_impl; [exact Hboth|]. cbn.
      intros v0 ((Hw & Hrec & Happ) & Hw'). split; [exact Hw|]. split.
      + apply (recorded_frame t3); [exact Hrec|].
        intros i Hi ->. apply Hframe2; lia.
      + intros Hv1 Hv2. apply (children_appended_mono t3); auto.
    - eapply Forall_impl; [exact Hvs2|]. cbn.
      intros v0 (Hw & Hrec & Happ). split; [right; lia|]. now split. }
  assert (forall i, (i < length t)%nat -> i <> pos -> t4 !! i = t !! i) as Hframe.
  { intros i Hi Hne. rewrite Hframe2 by lia. rewrite Hframe1 by lia.
    now apply Hframe0. }
  destruct Hcases as
    [(-> & -> & -> & -> & -> & ->)
    |(-> & r4 & Hr4 & -> & -> & -> & -> & ->)].
  { (* the second subtree failed *)
    split; [exact Hpos|]. split; [lia|]. split; [lia|].
    split; [exact Hframe|]. split; [discriminate|]. split; [|exact Hvs].
    split; [intros _|reflexivity].
    apply Exists_cons_tl, Exists_app. right. now apply Hbad2. }
  (* both subtrees were read *)
  specialize (Hsame2 eq_refl). subst sr4.
  split; [exact Hpos|]. split; [now rewrite !length_insert|].
  split; [lia|]. split; [exact Hframe|]. split.
  { intros _.
    rewrite list_lookup_insert_eq in Hr4
      by (rewrite length_insert; eapply lookup_lt_Some; eauto).
    injection Hr4 as <-. cbn [fst].
    rewrite !list_insert_insert_eq. now apply list_insert_id. }
  split; [|exact Hvs].
  split; [discriminate|]. intros Hex. exfalso.
  apply Exists_cons in Hex. destruct Hex as [[_ Hex]|Hex]; [cbn in Hex; lia|].
  apply Exists_app in Hex. destruct Hex as [Hex|Hex].
  - apply Hbad1 in Hex. discriminate.
  - apply Hbad2 in Hex. discriminate.
Qed.

(** With a decoder that keeps to the ranges asked for, the count and
    the split value of every decoded inner node are within them. *)
Lemma read_subtree_visits_values fuel nb pos sr t c b sr' t' c' vs :
  read_int_in_range C -> config_fits ->
  read_subtree_visits fuel nb pos sr t c = Done (b, sr', t', c', vs) ->
  Forall (fun v => v_p v <> -1 -> v_lo v < v_hi v -> decoded_in_ranges v) vs.
Proof.
  intros Hrange (Hmin & Hle & Hmax).
  revert pos sr t c b sr' t' c' vs.
  induction fuel as [|fuel IH]; intros pos sr t c b sr' t' c' vs Hr;
    [discriminate|].
  apply read_subtree_visits_inv in Hr.
  destruct Hr as (n & v & c1 & Hn & _ & Hcases). cbv zeta in Hcases.
  set (p := int8_t (v - 1)) in *.
  destruct Hcases as
    [(Hp & -> & -> & -> & -> & ->)
    |(Hp & lo & hi & Hp0 & Hlk & Hcases)].
  { constructor; [|constructor]. cbn. tauto. }
  destruct Hcases as
    [(Hge & -> & -> & -> & -> & ->)
    |(Hlt & cnt & c2 & s & c3 & Hcnt & Hs & Hcases)].
  { constructor; [|constructor]. cbn. intros; lia. }
  cbv zeta in Hcases.
  destruct Hcases as (b1 & sr2 & t3 & c4 & vs1 & Hrec1 & Hcases).
  assert (decoded_in_ranges
            (mkVisit pos p lo hi
               (set_childID (length t)
                  (set_splitval s (set_count (int16_t cnt) (set_property p n))))
               (length t))) as Hhere.
  { unfold decoded_in_ranges. cbn.
    pose proof (Hrange c1 _ _ Hle) as Hc. rewrite Hcnt in Hc. cbn in Hc.
    pose proof (Hrange c2 lo (hi - 1) ltac:(lia)) as Hsv. rewrite Hs in Hsv.
    cbn in Hsv. rewrite int16_t_id by lia. lia. }
  apply IH in Hrec1.
  destruct Hcases as
    [(-> & -> & -> & -> & -> & ->)
    |(-> & r2 & Hr2 & b2 & sr4 & t4 & c5 & vs2 & Hrec2 & Hcases)].
  { constructor; [intros _ _; exact Hhere | exact Hrec1]. }
  apply IH in Hrec2.
  assert (vs = mkVisit pos p lo hi
                 (set_childID (length t)
                    (set_splitval s (set_count (int16_t cnt) (set_property p n))))
                 (length t) :: vs1 ++ vs2) as ->.
  { destruct Hcases as [(_ & _ & _ & _ & _ & ->)|(_ & ? & _ & _ & _ & _ & _ & ->)];
      reflexivity. }
  constructor; [intros _ _; exact Hhere|].
  apply Forall_app. now split.
Qed.

Lemma read_subtree_Done fuel nb pos sr t c b sr' t' c' :
  read_subtree fuel nb pos sr t c = Done (b, sr', t', c') <->
  exists vs, read_subtree_visits fuel nb pos sr t c = Done (b, sr', t', c', vs).
Proof.
  rewrite read_subtree_visits_erase, bind_Done. split.
  - intros ([[[[b0 sr0] t0] c0] vs] & Hr & [= -> -> -> ->]). eauto.
  - intros (vs & Hr). eexists. split; [exact Hr|reflexivity].
Qed.

(** More fuel does not change the result of a call that returned. *)
Lemma read_subtree_visits_fuel_mono fuel fuel' nb pos sr t c r :
  (fuel <= fuel')%nat ->
  read_subtree_visits fuel nb pos sr t c = Done r ->
  read_subtree_visits fuel' nb pos sr t c = Done r.
Proof.
  revert fuel' pos sr t c r.
  induction fuel as [|fuel IH]; intros fuel' pos sr t c r Hle Hr;
    [discriminate|].
  destruct fuel' as [|fuel']; [lia|].
  cbn [read_subtree_visits] in *.
  destruct (at_index t pos) as [n| |]; [|discriminate..].
  cbn [mbind outcome_bind] in *.
  destruct (simple_read_int c 0 (Z.of_nat nb)) as [v c1].
  destruct (negb (int8_t (v - 1) =? -1)); [|exact Hr].
  destruct (at_indexZ sr (int8_t (v - 1))) as [[lo hi]| |]; [|discriminate..].
  cbn [mbind outcome_bind fst snd] in *. cbv zeta in *.
  destruct (lo >=? hi); [exact Hr|].
  destruct (simple_read_int c1 _ _) as [cnt c2].
  destruct (simple_read_int c2 _ _) as [s c3].
  destruct (update_at sr _ _) as [sr1| |]; [|discriminate..].
  cbn [mbind outcome_bind] in *.
  destruct (read_subtree_visits fuel nb (length t) sr1 _ c3)
    as [[[[[b1 sr2] t3] c4] vs1]| |] eqn:E1; [|discriminate..].
  rewrite (IH fuel' _ _ _ _ _ ltac:(lia) E1).
  cbn [mbind outcome_bind] in *.
  destruct (negb b1); [exact Hr|].
  destruct (update_at sr2 _ _) as [sr3| |]; [|discriminate..].
  cbn [mbind outcome_bind] in *.
  destruct (update_at sr3 _ _) as [sr3'| |]; [|discriminate..].
  cbn [mbind outcome_bind] in *.
  destruct (read_subtree_visits fuel nb (length t + 1) sr3' t3 c4)
    as [[[[[b2 sr4] t4] c5] vs2]| |] eqn:E2; [|discriminate..].
  rewrite (IH fuel' _ _ _ _ _ ltac:(lia) E2).
  exact Hr.
Qed.

(** So the result does not depend on the fuel. *)
Lemma read_subtree_visits_deterministic fuel fuel' nb pos sr t c r r' :
  read_subtree_visits fuel nb pos sr t c = Done r ->
  read_subtree_visits fuel' nb pos sr t c = Done r' ->
  r = r'.
Proof.
  intros Hr Hr'.
  pose proof (read_subtree_visits_fuel_mono fuel (Nat.max fuel fuel')
                nb pos sr t c r ltac:(lia) Hr) as H1.
  pose proof (read_subtree_visits_fuel_mono fuel' (Nat.max fuel fuel')
                nb pos sr t c r' ltac:(lia) Hr') as H2.
  congruence.
Qed.

(** *** Termination *)

Lemma span_insert sr i r r' :
  sr !! i = Some r ->
  (span (<[i := r']> sr) + Z.to_nat (snd r - fst r) =
   span sr + Z.to_nat (snd r' - fst r'))%nat.
Proof.
  revert i. induction sr as [|r0 sr IH]; intros i Hlk; [discriminate|].
  destruct i as [|i].
  - injection Hlk as ->.
    change (<[0%nat := r']> (r :: sr)) with (r' :: sr).
    unfold span. cbn [foldr]. lia.
  - change ((r0 :: sr) !! S i) with (sr !! i) in Hlk.
    change (<[S i := r']> (r0 :: sr)) with (r0 :: <[i := r']> sr).
    specialize (IH i Hlk). unfold span in *. cbn [foldr]. lia.
Qed.

(** A call returns within [span subrange + 1] levels of recursion: each
    split leaves strictly less room to both subtrees. *)
Lemma read_subtree_visits_returns fuel nb pos sr t c :
  read_int_in_range C ->
  (nb <= 128)%nat -> length sr = nb -> (pos < length t)%nat ->
  (span sr < fuel)%nat ->
  exists r, read_subtree_visits fuel nb pos sr t c = Done r.
Proof.
  intros Hrange Hnb. revert pos sr t c.
  induction fuel as [|fuel IH]; intros pos sr t c Hlen Hpos Hfuel; [lia|].
  cbn [read_subtree_visits].
  destruct (lookup_lt_is_Some_2 t pos Hpos) as [n Hn].
  rewrite (at_index_lookup _ _ _ Hn). cbn [mbind outcome_bind].
  pose proof (Hrange c 0 (Z.of_nat nb) ltac:(lia)) as Hv.
  destruct (simple_read_int c 0 (Z.of_nat nb)) as [v c1]. cbn [fst] in Hv.
  rewrite (int8_t_id (v - 1)) by lia.
  destruct (Z.eqb_spec (v - 1) (-1)) as [|Hp]; cbn [negb]; [eauto|].
  destruct (lookup_lt_is_Some_2 sr (Z.to_nat (v - 1)) ltac:(lia))
    as [[lo hi] Hlk].
  assert (at_indexZ sr (v - 1) = Done (lo, hi)) as ->
    by (apply at_indexZ_Done; split; [lia|done]).
  cbn [mbind outcome_bind fst snd]. cbv zeta.
  destruct (lo >=? hi) eqn:E; [eauto|].
  rewrite Z.geb_leb in E. apply Z.leb_gt in E.
  destruct (simple_read_int c1 _ _) as [cnt c2].
  pose proof (Hrange c2 lo (hi - 1) ltac:(lia)) as Hs.
  destruct (simple_read_int c2 lo (hi - 1)) as [s c3]. cbn [fst] in Hs.
  rewrite (update_at_lookup _ _ _ _ Hlk). cbn [mbind outcome_bind].
  change (set_first (s + 1) (lo, hi)) with (s + 1, hi).
  pose proof (span_insert sr _ _ (s + 1, hi) Hlk) as Hsp1. cbn [fst snd] in Hsp1.
  match goal with
  | |- context [read_subtree_visits fuel nb (length t) ?sr1 ?t2 c3] =>
      set (t2' := t2);
      destruct (IH (length t) sr1 t2' c3) as [[[[[b1 sr2] t3] c4] vs1] Hr1]
  end.
  { now rewrite length_insert. }
  { subst t2'. rewrite length_app, length_insert. cbn. lia. }
  { lia. }
  rewrite Hr1. cbn [mbind outcome_bind].
  destruct b1; cbn [negb]; [|eauto].
  apply read_subtree_visits_structure in Hr1.
  destruct Hr1 as (_ & _ & Hgrow & _ & Hsame & _).
  specialize (Hsame eq_refl). subst sr2.
  assert (length t2' = (length t + 2)%nat) as Hl2.
  { subst t2'. rewrite length_app, length_insert. cbn. lia. }
  assert (Z.to_nat (v - 1) < length sr)%nat as Hin by lia.
  rewrite (update_at_lookup _ _ _ (s + 1, hi))
    by now rewrite list_lookup_insert_eq.
  cbn [mbind outcome_bind].
  change (set_first lo (s + 1, hi)) with (lo, hi).
  rewrite (update_at_lookup _ _ _ (lo, hi))
    by (rewrite list_lookup_insert_eq; [done|now rewrite length_insert]).
  cbn [mbind outcome_bind]. rewrite !list_insert_insert_eq.
  change (set_second s (lo, hi)) with (lo, s).
  pose proof (span_insert sr _ _ (lo, s) Hlk) as Hsp2. cbn [fst snd] in Hsp2.
  destruct (IH (length t + 1)%nat (<[Z.to_nat (v - 1) := (lo, s)]> sr) t3 c4)
    as [[[[[b2 sr4] t4] c5] vs2] Hr2].
  { now rewrite length_insert. }
  { lia. }
  { lia. }
  rewrite Hr2. cbn [mbind outcome_bind].
  destruct b2; cbn [negb]; [|eauto].
  apply read_subtree_visits_structure in Hr2.
  destruct Hr2 as (_ & _ & _ & _ & Hsame & _).
  specialize (Hsame eq_refl). subst sr4.
  rewrite (update_at_lookup _ _ _ (lo, s))
    by now rewrite list_lookup_insert_eq.
  cbn [mbind outcome_bind]. eauto.
Qed.

(** *** The tree a successful run leaves *)

Lemma node_decoded_mono nb len len' i n :
  (len <= len')%nat -> node_decoded nb len i n -> node_decoded nb len' i n.
Proof.
  intros Hle (Hp & Hc & Hl). split; [exact Hp|]. split; [|exact Hl].
  intros Hne. destruct (Hc Hne). split; lia.
Qed.

Lemma tree_decoded_new nb : tree_decoded nb ([] ++ [PropertyDecisionNode_default]).
Proof.
  intros [|i] n Hn; [|discriminate]. injection Hn as <-.
  split; [cbn; lia|]. split; [cbn; congruence|reflexivity].
Qed.

Lemma read_subtree_visits_tree_decoded fuel nb pos sr t c sr' t' c' vs :
  read_subtree_visits fuel nb pos sr t c = Done (true, sr', t', c', vs) ->
  length sr = nb -> tree_decoded nb t -> tree_decoded nb t'.
Proof.
  revert pos sr t c sr' t' c' vs.
  induction fuel as [|fuel IH]; intros pos sr t c sr' t' c' vs Hr Hlen Ht;
    [discriminate|].
  apply read_subtree_visits_inv in Hr.
  destruct Hr as (n & v & c1 & Hn & _ & Hcases). cbv zeta in Hcases.
  pose proof (lookup_lt_Some _ _ _ Hn) as Hpos.
  pose proof (Ht pos n Hn) as (_ & _ & Hleaf).
  set (p := int8_t (v - 1)) in *.
  destruct Hcases as
    [(Hp & _ & -> & -> & -> & ->)
    |(Hp & lo & hi & Hp0 & Hlk & Hcases)].
  { intros i m Hm. rewrite length_insert.
    destruct (decide (pos = i)) as [<-|Hne].
    - rewrite list_lookup_insert_eq in Hm by done. injection Hm as <-.
      split; [cbn; lia|]. split; [cbn; congruence|exact Hleaf].
    - rewrite list_lookup_insert_ne in Hm by done. now apply Ht. }
  destruct Hcases as
    [(_ & [=] & _)
    |(Hlt & cnt & c2 & s & c3 & _ & _ & Hcases)].
  cbv zeta in Hcases.
  destruct Hcases as (b1 & sr2 & t3 & c4 & vs1 & Hrec1 & Hcases).
  destruct Hcases as
    [(_ & [=] & _)
    |(-> & r2 & Hr2 & b2 & sr4 & t4 & c5 & vs2 & Hrec2 & Hcases)].
  destruct Hcases as
    [(_ & [=] & _)
    |(-> & r4 & Hr4 & _ & -> & -> & -> & ->)].
  pose proof (lookup_lt_Some _ _ _ Hlk) as Hin.
  pose proof (read_subtree_visits_structure _ _ _ _ _ _ _ _ _ _ _ Hrec1)
    as (_ & Hlen1 & _ & _ & Hsame1 & _).
  specialize (Hsame1 eq_refl). subst sr2.
  eapply IH; [exact Hrec2 | now rewrite !length_insert |].
  eapply IH; [exact Hrec1 | now rewrite length_insert |].
  intros i m Hm. rewrite length_app, length_insert. cbn [length].
  destruct (decide (i < length t)%nat) as [Hi|Hi].
  - rewrite lookup_app_l in Hm by now rewrite length_insert.
    destruct (decide (pos = i)) as [<-|Hne].
    + rewrite list_lookup_insert_eq in Hm by done. injection Hm as <-.
      split; [cbn; lia|]. split; [cbn; lia|exact Hleaf].
    + rewrite list_lookup_insert_ne in Hm by done.
      eapply node_decoded_mono; [|now apply Ht]. lia.
  - rewrite lookup_app_r in Hm by (rewrite length_insert; lia).
    rewrite length_insert in Hm.
    destruct (i - length t)%nat as [|[|k]]; [| |discriminate];
      injection Hm as <-;
      (split; [cbn; lia|]; split; [cbn; congruence|reflexivity]).
Qed.

Lemma tree_decoded_well_formed nb t :
  tree_decoded nb t ->
  FinalPropertySymbolCoder.children_exist t /\
  FinalPropertySymbolCoder.children_after t /\
  FinalPropertySymbolCoder.properties_below nb t /\
  (forall i n, t !! i = Some n -> leafID n = 0%nat).
Proof.
  intros Ht. split; [|split; [|split]].
  - intros i n Hn Hp. now apply (Ht i n Hn).
  - intros i n Hn Hp. now apply (Ht i n Hn).
  - intros i n Hn. apply (Ht i n Hn).
  - intros i n Hn. apply (Ht i n Hn).
Qed.

Lemma read_tree_Done fuel (m : MetaPropertySymbolCoder.t) b tree m' :
  read_tree fuel m = Done (b, tree, m') <->
  exists sr' c',
    read_subtree fuel (nb_properties m) 0%nat (range m)
      ([] ++ [PropertyDecisionNode_default]) (coder m) = Done (b, sr', tree, c') /\
    m' = {| coder := c'; range := range m; nb_properties := nb_properties m |}.
Proof.
  unfold read_tree. cbv zeta. rewrite bind_Done. split.
  - intros ([[[b0 sr0] t0] c0] & Hr & [= -> -> <-]). eauto.
  - intros (sr' & c' & Hr & ->). eexists. split; [exact Hr|reflexivity].
Qed.

(** *** The claims on [read_subtree] *)

(** C3. With a decoder that keeps to the ranges asked for (and
    constants that fit the count field), [read_subtree] returns: at
    every position of the tree, whatever the decoder reads, a call comes
    back within [span + 1] levels when the property indices fit the
    [int8_t] field, and its result does not depend on the fuel.  A call
    that returns, returns false exactly when at some visited node the
    decoded property [p] is not -1 and [subrange[p]] has [lo >= hi];
    when it returns true, every decoded inner node has its count in
    [CONTEXT_TREE_MIN_COUNT, CONTEXT_TREE_MAX_COUNT], its split value in
    [subrange[p].lo, subrange[p].hi - 1] as they were at that node, and
    its two children at [childID] = the size the tree had, both in the
    final tree, where the node itself stands as decoded.  The visited
    nodes are those of [read_subtree_visits], the same code with the list
    of its visits. *)
Theorem read_subtree_outcome nb pos sr t c :
  read_int_in_range C -> config_fits ->
  ((nb <= 128)%nat -> length sr = nb -> (pos < length t)%nat ->
   exists b sr' t' c',
     read_subtree (S (span sr)) nb pos sr t c = Done (b, sr', t', c') /\
     forall fuel' r', read_subtree fuel' nb pos sr t c = Done r' ->
                      r' = (b, sr', t', c')) /\
  (forall fuel b sr' t' c',
      read_subtree fuel nb pos sr t c = Done (b, sr', t', c') ->
      exists vs,
        read_subtree_visits fuel nb pos sr t c = Done (b, sr', t', c', vs) /\
        (b = false <-> Exists exhausted vs) /\
        (b = true ->
         Forall (fun v => v_p v <> -1 ->
                          decoded_in_ranges v /\ children_appended t' v /\
                          recorded t' v) vs)).
Proof.
  intros Hrange Hcfg. split.
  - intros Hnb Hlen Hpos.
    destruct (read_subtree_visits_returns (S (span sr)) nb pos sr t c
                Hrange Hnb Hlen Hpos ltac:(lia))
      as [[[[[b0 sr0] t0] c0] vs0] Hr0].
    exists b0, sr0, t0, c0. split; [apply read_subtree_Done; eauto|].
    intros fuel' [[[b1 sr1] t1] c1] Hr1.
    apply read_subtree_Done in Hr1. destruct Hr1 as [vs1 Hr1].
    pose proof (read_subtree_visits_deterministic _ _ _ _ _ _ _ _ _ Hr1 Hr0).
    congruence.
  - intros fuel b sr' t' c' Hr.
    apply read_subtree_Done in Hr. destruct Hr as [vs Hr]. exists vs.
    pose proof (read_subtree_visits_structure _ _ _ _ _ _ _ _ _ _ _ Hr)
      as (_ & _ & _ & _ & _ & Hbad & Hvs).
    pose proof (read_subtree_visits_values _ _ _ _ _ _ _ _ _ _ _ Hrange Hcfg Hr)
      as Hvals.
    split; [exact Hr|]. split; [exact Hbad|].
    intros ->.
    assert (~ Exists exhausted vs) as Hnone by (intros Hex; now apply Hbad in Hex).
    rewrite <- Forall_Exists_neg in Hnone.
    pose proof (proj2 (Forall_and _ _) (conj Hnone
                  (proj2 (Forall_and _ _) (conj Hvs Hvals)))) as Hall.
    eapply Forall_impl; [exact Hall|]. cbn.
    intros v (Hnot & (_ & Hrec & Happ) & Hval) Hp.
    assert (v_lo v < v_hi v) as Hlt.
    { unfold exhausted in Hnot. lia. }
    auto.
Qed.

(** C9. When [read_subtree] returns true, [subrange] is what it was on
    entry.  At an inner node the first subtree is read with the
    property's [lo] raised to [splitval + 1]; [lo] is back to its old
    value when the second subtree is read, with [hi] lowered to
    [splitval]; and [hi] is back when the call returns: both recursive
    calls leave the vector they were given. *)
Theorem read_subtree_restores_subrange fuel nb pos sr t c sr' t' c' :
  read_subtree fuel nb pos sr t c = Done (true, sr', t', c') ->
  sr' = sr /\
  forall n v c1,
    t !! pos = Some n -> simple_read_int c 0 (Z.of_nat nb) = (v, c1) ->
    int8_t (v - 1) <> -1 ->
    exists fuel' lo hi s t2 c3 t3 c4,
      fuel = S fuel' /\
      sr !! Z.to_nat (int8_t (v - 1)) = Some (lo, hi) /\
      read_subtree fuel' nb (length t)
        (<[Z.to_nat (int8_t (v - 1)) := (s + 1, hi)]> sr) t2 c3
      = Done (true, <[Z.to_nat (int8_t (v - 1)) := (s + 1, hi)]> sr, t3, c4) /\
      read_subtree fuel' nb (length t + 1)
        (<[Z.to_nat (int8_t (v - 1)) := (lo, s)]> sr) t3 c4
      = Done (true, <[Z.to_nat (int8_t (v - 1)) := (lo, s)]> sr, t', c').
Proof.
  intros Hr. apply read_subtree_Done in Hr. destruct Hr as [vs Hr].
  split.
  { now apply (read_subtree_visits_structure _ _ _ _ _ _ _ _ _ _ _ Hr). }
  intros n v c1 Hn Hv Hp.
  destruct fuel as [|fuel']; [discriminate|].
  apply read_subtree_visits_inv in Hr.
  destruct Hr as (n0 & v0 & c0 & Hn0 & Hv0 & Hcases). cbv zeta in Hcases.
  rewrite Hv in Hv0. injection Hv0 as <- <-.
  destruct Hcases as [(Hp' & _)|(_ & lo & hi & Hp0 & Hlk & Hcases)]; [done|].
  destruct Hcases as
    [(_ & [=] & _)
    |(Hlt & cnt & c2 & s & c3 & _ & _ & Hcases)].
  cbv zeta in Hcases.
  destruct Hcases as (b1 & sr2 & t3 & c4 & vs1 & Hrec1 & Hcases).
  destruct Hcases as
    [(_ & [=] & _)
    |(-> & r2 & Hr2 & b2 & sr4 & t4 & c5 & vs2 & Hrec2 & Hcases)].
  destruct Hcases as
    [(_ & [=] & _)
    |(-> & r4 & Hr4 & _ & _ & -> & -> & _)].
  pose proof (read_subtree_visits_structure _ _ _ _ _ _ _ _ _ _ _ Hrec1)
    as (_ & _ & _ & _ & Hsame1 & _).
  specialize (Hsame1 eq_refl). subst sr2.
  pose proof (read_subtree_visits_structure _ _ _ _ _ _ _ _ _ _ _ Hrec2)
    as (_ & _ & _ & _ & Hsame2 & _).
  specialize (Hsame2 eq_refl). subst sr4.
  rewrite list_insert_insert_eq in Hrec2.
  eexists fuel', lo, hi, s, _, c3, t3, c4.
  split; [reflexivity|]. split; [exact Hlk|].
  split; apply read_subtree_Done; eauto.
Qed.

End ReadSubtree.

(** ** Well-formedness, from [read_tree] through every [find_leaf] *)

Section WellFormed.
Context `{Primitives} {C : Type} `{SimpleSymbolCoder C} `{Config}.
Import FinalPropertySymbolCoder.
Import MetaPropertySymbolCoder (tree_decoded, node_decoded).

(** The coder constructed over a decoded tree is well-formed. *)
Lemma make_over_decoded_tree nb (tree : Tree) (racIn : RAC) (rangeIn : Ranges)
    (cut alpha : Z) :
  tree_decoded nb tree -> tree <> [] ->
  exists s, make racIn rangeIn tree cut alpha = Done s /\
            inner_node s = tree /\ nb_properties s = length rangeIn /\
            leaf_node s = [FinalCompoundSymbolChances_default] /\
            well_formed s.
Proof.
  intros Ht Hne. destruct tree as [|n0 tree]; [done|].
  pose proof (Ht 0%nat n0 eq_refl) as (_ & _ & Hl0).
  assert (set_leafID 0 n0 = n0) as Hn0.
  { destruct n0 as [p0 k0 s0 ch0 l0]. cbn in Hl0. subst l0. reflexivity. }
  unfold make, update_at. cbn [lookup list_lookup mbind outcome_bind mret outcome_ret].
  rewrite Hn0. cbn [insert list_insert].
  eexists. split; [reflexivity|]. cbn.
  split; [reflexivity|]. split; [reflexivity|]. split; [reflexivity|].
  destruct (tree_decoded_well_formed _ _ Ht) as (Hch & _ & _ & Hleaf).
  split; [exact Hch|]. intros i n Hn. cbn in *. rewrite (Hleaf i n Hn). lia.
Qed.

(** C8. Every successful [read_tree] leaves a tree in which the two
    children of every node with a property exist (they come after the
    node: they were appended while it was decoded), every property is
    -1 or an index of the range vector, and the coder constructed over
    it is well-formed: every [leafID] denotes a leaf of the store.
    With a decoder that keeps to the ranges asked for [read_tree] does
    return.  Every call of [find_leaf] that returns keeps all of this,
    changes the shape of no node, and returns a leaf of the store. *)
Theorem well_formedness_established_and_preserved :
  (forall fuel (m : MetaPropertySymbolCoder.t) tree m',
      length (MetaPropertySymbolCoder.range m)
        = MetaPropertySymbolCoder.nb_properties m ->
      MetaPropertySymbolCoder.read_tree fuel m = Done (true, tree, m') ->
      children_exist tree /\ children_after tree /\
      properties_below (MetaPropertySymbolCoder.nb_properties m) tree /\
      forall (racIn : RAC) (cut alpha : Z),
      exists s,
        make racIn (MetaPropertySymbolCoder.range m) tree cut alpha = Done s /\
        inner_node s = tree /\
        nb_properties s = MetaPropertySymbolCoder.nb_properties m /\
        well_formed s) /\
  (forall (m : MetaPropertySymbolCoder.t),
      read_int_in_range C ->
      (MetaPropertySymbolCoder.nb_properties m <= 128)%nat ->
      length (MetaPropertySymbolCoder.range m)
        = MetaPropertySymbolCoder.nb_properties m ->
      exists r,
        MetaPropertySymbolCoder.read_tree
          (S (MetaPropertySymbolCoder.span (MetaPropertySymbolCoder.range m))) m
        = Done r) /\
  (forall fuel properties pos s leaf s',
      well_formed s ->
      find_leaf_from fuel properties pos s = Done (leaf, s') ->
      well_formed s' /\
      (leaf < length (leaf_node s'))%nat /\
      tree_same_shape (inner_node s) (inner_node s') /\
      (children_after (inner_node s) -> children_after (inner_node s')) /\
      (properties_below (nb_properties s) (inner_node s) ->
       properties_below (nb_properties s') (inner_node s'))).
Proof.
  split; [|split].
  - intros fuel m tree m' Hlen Hr.
    apply read_tree_Done in Hr. destruct Hr as (sr' & c' & Hr & _).
    apply read_subtree_Done in Hr. destruct Hr as [vs Hr].
    pose proof (read_subtree_visits_tree_decoded _ _ _ _ _ _ _ _ _ _ Hr Hlen
                  (tree_decoded_new _)) as Ht.
    pose proof (read_subtree_visits_structure _ _ _ _ _ _ _ _ _ _ _ Hr)
      as (_ & _ & Hgrow & _).
    destruct (tree_decoded_well_formed _ _ Ht) as (Hch & Haft & Hbelow & _).
    split; [exact Hch|]. split; [exact Haft|]. split; [exact Hbelow|].
    intros racIn cut alpha.
    destruct (make_over_decoded_tree _ tree racIn
                (MetaPropertySymbolCoder.range m) cut alpha Ht)
      as (s & Hs & Htree & Hnb & _ & Hwf).
    { intros ->. cbn in Hgrow. lia. }
    exists s. split; [exact Hs|]. split; [exact Htree|].
    split; [congruence|exact Hwf].
  - intros m Hrange Hnb Hlen.
    destruct (read_subtree_visits_returns
                (S (MetaPropertySymbolCoder.span (MetaPropertySymbolCoder.range m)))
                (MetaPropertySymbolCoder.nb_properties m) 0%nat
                (MetaPropertySymbolCoder.range m)
                ([] ++ [PropertyDecisionNode_default])
                (MetaPropertySymbolCoder.coder m) Hrange Hnb Hlen
                ltac:(cbn; lia) ltac:(lia))
      as [[[[[b sr'] t'] c'] vs] Hr].
    eexists. apply read_tree_Done. do 2 eexists.
    split; [apply read_subtree_Done; eauto|reflexivity].
  - intros fuel properties pos s leaf s' Hwf Hr.
    destruct (find_leaf_from_preserves _ _ _ _ _ _ Hwf Hr)
      as (Hwf' & Hleaf & Hshape & _ & _ & Hnb).
    split; [exact Hwf'|]. split; [exact Hleaf|]. split; [exact Hshape|].
    split.
    + now apply tree_same_shape_children_after.
    + rewrite Hnb. now apply tree_same_shape_properties_below.
Qed.

End WellFormed.

(** ** The model at work: seed scenarios and instances of the claims *)

Import Examples.
#[local] Existing Instance toy_primitives.
#[local] Existing Instance replay_coder.
#[local] Existing Instance example_config.

Lemma replay_coder_in_range : read_int_in_range (list Z).
Proof.
  intros c min max Hle. destruct c as [|x c]; cbn; lia.
Qed.

Lemma example_config_fits : MetaPropertySymbolCoder.config_fits.
Proof. unfold MetaPropertySymbolCoder.config_fits. cbn. lia. Qed.

Lemma split_coder_well_formed cnt :
  FinalPropertySymbolCoder.well_formed (split_coder cnt).
Proof.
  split; intros pos n Hn; destruct pos as [|[|[|pos]]]; try discriminate;
    injection Hn as <-; cbn; try lia; congruence.
Qed.

(** Scenario 1: a meta-stream that encodes a single leaf. *)
Example scenario_empty_tree :
  MetaPropertySymbolCoder.read_tree 1
    (MetaPropertySymbolCoder.mk [0] byte_ranges 3)
  = Done (true, Tree_new, MetaPropertySymbolCoder.mk [] byte_ranges 3).
Proof. reflexivity. Qed.

(** Scenario 2: the root splits property 1 at 128, then two leaves. *)
Example scenario_single_split :
  MetaPropertySymbolCoder.read_tree 2
    (MetaPropertySymbolCoder.mk [2; 1; 128; 0; 0] byte_ranges 3)
  = Done (true, split_tree 1, MetaPropertySymbolCoder.mk [] byte_ranges 3).
Proof. reflexivity. Qed.

(** Scenario 6: property 0 is announced where its range is (5, 5). *)
Example scenario_invalid_tree :
  MetaPropertySymbolCoder.read_subtree 1 1 0 [(5, 5)] Tree_new [1]
  = Done (false, [(5, 5)], [set_property 0 PropertyDecisionNode_default], []).
Proof. reflexivity. Qed.

(** Scenario 3: with count 1 the first visit only decrements the count,
    the second splits (the store grows by one, the children get leaves 0
    and 1), and the third is routed by the split value. *)
Example scenario_lazy_split :
  let properties := [0; 200; 0] in
  let s0 := split_coder 1 in
  exists s1 s2,
    FinalPropertySymbolCoder.find_leaf 3 properties s0 = Done (0%nat, s1) /\
    FinalPropertySymbolCoder.inner_node s1 = split_tree 0 /\
    length (FinalPropertySymbolCoder.leaf_node s1) = 1%nat /\
    FinalPropertySymbolCoder.find_leaf 3 properties s1 = Done (0%nat, s2) /\
    length (FinalPropertySymbolCoder.leaf_node s2) = 2%nat /\
    FinalPropertySymbolCoder.inner_node s2 =
      [ {| property := 1; count := -1; splitval := 128;
           childID := 1; leafID := 0 |};
        set_leafID 0 PropertyDecisionNode_default;
        set_leafID 1 PropertyDecisionNode_default ] /\
    FinalPropertySymbolCoder.find_leaf 3 properties s2 = Done (0%nat, s2) /\
    FinalPropertySymbolCoder.find_leaf 3 [0; 7; 0] s2 = Done (1%nat, s2).
Proof. cbv zeta. do 2 eexists. repeat split; reflexivity. Qed.

(** A fixed-width read of the same coder splits as well, a ranged read
    with [min = max] does not. *)
Example scenario_fixed_width_read :
  (exists v s',
      FinalPropertySymbolCoder.read_int_nbits 1 [0; 200; 0] 8 (split_coder 0)
        = Done (v, s') /\
      length (FinalPropertySymbolCoder.leaf_node s') = 2%nat) /\
  FinalPropertySymbolCoder.read_int 1 [0; 200; 0] 8 8 (split_coder 0)
    = Done (8, split_coder 0).
Proof. split; [do 2 eexists; split; reflexivity | reflexivity]. Qed.

Lemma find_leaf_cases_witness :
  FinalPropertySymbolCoder.find_leaf_from 1 [0; 200; 0] 0 (split_coder 2)
  = Done (0%nat,
          FinalPropertySymbolCoder.with_routing (split_coder 2)
            (FinalPropertySymbolCoder.leaf_node (split_coder 2))
            (<[0%nat := set_count (2 - 1)
                          {| property := 1; count := 2; splitval := 128;
                             childID := 1; leafID := 0 |}]>
               (FinalPropertySymbolCoder.inner_node (split_coder 2)))).
Proof.
  apply (find_leaf_cases [0; 200; 0] (split_coder 2) 0
           {| property := 1; count := 2; splitval := 128;
              childID := 1; leafID := 0 |} 0
           (split_coder_well_formed 2) eq_refl eq_refl);
    [discriminate | reflexivity].
Defined.

Lemma read_subtree_outcome_witness :
  MetaPropertySymbolCoder.read_subtree
    (S (MetaPropertySymbolCoder.span byte_ranges)) 3 0 byte_ranges Tree_new
    [2; 1; 128; 0; 0] = Done (true, byte_ranges, split_tree 1, []) /\
  (exists vs,
      MetaPropertySymbolCoder.read_subtree_visits 2 3 0 byte_ranges Tree_new
        [2; 1; 128; 0; 0] = Done (true, byte_ranges, split_tree 1, [], vs) /\
      Forall (fun v =>
                MetaPropertySymbolCoder.v_p v <> -1 ->
                MetaPropertySymbolCoder.decoded_in_ranges v /\
                MetaPropertySymbolCoder.children_appended (split_tree 1) v /\
                MetaPropertySymbolCoder.recorded (split_tree 1) v) vs) /\
  Exists MetaPropertySymbolCoder.exhausted
    [MetaPropertySymbolCoder.mkVisit 0 0 5 5
       (set_property 0 PropertyDecisionNode_default) 1].
Proof.
  split; [|split].
  - destruct (proj1 (@read_subtree_outcome (list Z) replay_coder example_config
                       3 0 byte_ranges Tree_new [2; 1; 128; 0; 0]
                       replay_coder_in_range example_config_fits)
                ltac:(cbn; lia) eq_refl ltac:(cbn; lia))
      as (b & sr' & t' & c' & Hr & Hsame).
    rewrite <- (Hsame 2%nat (true, byte_ranges, split_tree 1, []) eq_refl) in Hr.
    exact Hr.
  - destruct (proj2 (@read_subtree_outcome (list Z) replay_coder example_config
                       3 0 byte_ranges Tree_new [2; 1; 128; 0; 0]
                       replay_coder_in_range example_config_fits)
                2%nat true byte_ranges (split_tree 1) [] eq_refl)
      as (vs & Hrun & _ & Htrue).
    exists vs. split; [exact Hrun | exact (Htrue eq_refl)].
  - destruct (proj2 (@read_subtree_outcome (list Z) replay_coder example_config
                       1 0 [(5, 5)] Tree_new [1]
                       replay_coder_in_range example_config_fits)
                1%nat false [(5, 5)]
                [set_property 0 PropertyDecisionNode_default] [] eq_refl)
      as (vs & Hrun & Hbad & _).
    injection Hrun as <-. apply Hbad. reflexivity.
Defined.

Lemma read_subtree_restores_subrange_witness :
  [(0, 255); (0, 255); (0, 255)] = byte_ranges.
Proof.
  apply (@read_subtree_restores_subrange (list Z) replay_coder example_config
           2 3 0 byte_ranges Tree_new
           [2; 1; 128; 0; 0] [(0, 255); (0, 255); (0, 255)] (split_tree 1) []
           eq_refl).
Defined.

End Maniac_facts.

(** * Further properties of the YCoCg transform *)

Module YCoCg_more.
Import YCoCg YCoCg_facts.

(** ** The legal alphabet

    What the decoder is told a sample may be: Y within its static
    bounds, Co within the range that depends on Y, Cg within the range
    that depends on Y and Co. *)

(** Closes a comparison of two closed numerals by evaluation. *)
Ltac by_evaluation := repeat split; vm_compute; congruence.

Lemma inv_raw_legal_in_range par Y Co Cg :
  1 <= par -> 0 <= Y <= 4 * par - 1 ->
  get_min_co par Y <= Co <= get_max_co par Y ->
  get_min_cg par Y Co <= Cg <= get_max_cg par Y Co ->
  let '(R, G, B) := inv_raw (Y, Co, Cg) in
  0 <= R <= 4 * par - 1 /\ 0 <= G <= 4 * par - 1 /\ 0 <= B <= 4 * par - 1.
Proof.
  intros Hpar HY HCo HCg. unfold inv_raw.
  unfold get_min_cg, get_max_cg in HCg.
  unfold get_min_co, get_max_co in *.
  revert HCg HCo.
  branch_elim; intros HCg HCo; try lia; revert HCg HCo; quot2_elim;
    intros HCg HCo; asr1_elim; lia.
Qed.

(** [par] is an [int] in the source.  With [4 par - 1] below 2^29 no
    operation of the range functions leaves the 32-bit range, whatever
    branch is taken, for a luma within its bounds and a Co within the
    static bounds of its plane; nor does an operation of [invData] on a
    legal triple. *)
Lemma dependent_ranges_fit_int32 par Y Co Cg :
  1 <= par -> 4 * par - 1 < 2 ^ 29 -> 0 <= Y <= 4 * par - 1 ->
  -4 * par <= Co <= 4 * par - 2 ->
  let fits x := - 2 ^ 31 <= x < 2 ^ 31 in
  (fits (par * 4) /\ fits (3 * par) /\ fits (8 * par) /\ fits (-8 * par) /\
   fits (4 * Y) /\ fits (-4 - 4 * Y) /\ fits (2 + 4 * Y) /\
   fits (4 * (Y - 4 * par)) /\ fits (3 + 4 * (Y - 4 * par)) /\
   fits (4 * (Y - 3 * par)) /\ fits (4 * par - 5 - 4 * (Y - 3 * par)) /\
   fits (Z.abs (Co + 1)) /\ fits ((Z.abs (Co + 1) ÷ 2) * 2) /\
   fits (((1 + Z.abs (Co + 1)) ÷ 2) * 2) /\
   fits (-2 - 2 * Y + (Z.abs (Co + 1) ÷ 2) * 2) /\
   fits (2 * (4 * par - 1 - Y)) /\ fits (-1 - 2 * (4 * par - 1 - Y)) /\
   fits (-4 * par + 1 + (Y - 2 * par) * 2) /\
   fits (-2 * par - (Y - par + 1) * 2 + (Z.abs (Co + 1) ÷ 2) * 2) /\
   fits (-1 + 2 * (4 * par - 1 - Y) - ((1 + Z.abs (Co + 1)) ÷ 2) * 2) /\
   fits (2 * par - 2 + (Y - par + 1) * 2) /\
   fits (2 * par - 1 + (3 * par - 1 - Y) * 2
         - ((1 + Z.abs (Co + 1)) ÷ 2) * 2)) /\
  (get_min_co par Y <= Co <= get_max_co par Y ->
   get_min_cg par Y Co <= Cg <= get_max_cg par Y Co ->
   fits (Cg + 2) /\ fits (Cg + 1) /\ fits (Co + 2) /\ fits (Co + 1) /\
   fits (Y + asr1 (Cg + 2)) /\ fits (Y + asr1 (Cg + 2) + asr1 (Co + 2)) /\
   fits (Y - asr1 (Cg + 1)) /\ fits (Y + asr1 (Cg + 2) - asr1 (Co + 1))).
Proof.
  intros Hpar Hfit HY HCo fits. subst fits. cbv beta.
  change (2 ^ 29) with 536870912 in Hfit.
  change (2 ^ 31) with 2147483648.
  split.
  - quot2_elim. lia.
  - intros HCo' HCg.
    pose proof (inv_raw_legal_in_range par Y Co Cg Hpar HY HCo' HCg) as Hin.
    unfold inv_raw in Hin.
    assert (-4 * par <= Cg <= 4 * par - 2) as HCgs.
    { unfold get_min_cg, get_max_cg in HCg.
      unfold get_min_co, get_max_co in *.
      revert HCg HCo'.
      branch_elim; intros HCg HCo'; try lia; revert HCg HCo'; quot2_elim; lia. }
    revert Hin. asr1_elim. lia.
Qed.

(** X1. The dependent ranges describe the image of the forward
    transform exactly: for [par >= 1] with [4 par - 1] below 2^29 (the
    bound under which the code's 32-bit arithmetic does not overflow,
    [transform_fits_int32] and [dependent_ranges_fit_int32]), a triple
    (Y, Co, Cg) is the transform of some RGB triple with channels in
    [0, 4 par - 1] if and only if Y is within [get_min_y, get_max_y], Co
    within [get_min_co, get_max_co] of Y, and Cg within
    [get_min_cg, get_max_cg] of Y and Co. *)
Theorem dependent_ranges_exact (par : Z) (Y Co Cg : ColorVal) :
  1 <= par -> 4 * par - 1 < 2 ^ 29 ->
  realizes (4 * par - 1, 4 * par - 1, 4 * par - 1) Y Co Cg <->
  get_min_y par <= Y <= get_max_y par /\
  get_min_co par Y <= Co <= get_max_co par Y /\
  get_min_cg par Y Co <= Cg <= get_max_cg par Y Co.
Proof.
  intros Hpar _. unfold get_min_y, get_max_y. split.
  - intros (R & G & B & HR & HG & HB & Hfw).
    pose proof (dependent_ranges_sound par R G B HR HG HB) as Hs.
    rewrite Hfw in Hs. split; [|exact Hs].
    unfold data_pixel in Hfw. injection Hfw as HY _ _.
    revert HY. asr1_elim. lia.
  - intros (HY & HCo & HCg). apply realizes_inv_raw.
    apply inv_raw_legal_in_range; auto; lia.
Qed.

Lemma dependent_ranges_exact_witness :
  realizes (255, 255, 255) 112 149 24 <->
  get_min_y 64 <= 112 <= get_max_y 64 /\
  get_min_co 64 112 <= 149 <= get_max_co 64 112 /\
  get_min_cg 64 112 149 <= 24 <= get_max_cg 64 112 149.
Proof. apply (dependent_ranges_exact 64 112 149 24); by_evaluation. Defined.

(** X2. Decoding then encoding is the identity on the legal alphabet:
    for [par >= 1] and channel maxima [4 par - 1] below 2^29 (so that
    neither loop overflows the code's 32-bit arithmetic), [invData] maps
    every legal (Y, Co, Cg) to an RGB triple within the maxima without
    the clamp acting, and [data] maps that triple back to (Y, Co, Cg). *)
Theorem data_after_invData_on_legal (par : Z) (Y Co Cg : ColorVal) :
  1 <= par -> 4 * par - 1 < 2 ^ 29 ->
  get_min_y par <= Y <= get_max_y par ->
  get_min_co par Y <= Co <= get_max_co par Y ->
  get_min_cg par Y Co <= Cg <= get_max_cg par Y Co ->
  invData_pixel (4 * par - 1, 4 * par - 1, 4 * par - 1) (Y, Co, Cg)
    = inv_raw (Y, Co, Cg) /\
  data_pixel (invData_pixel (4 * par - 1, 4 * par - 1, 4 * par - 1) (Y, Co, Cg))
    = (Y, Co, Cg).
Proof.
  intros Hpar _ HY HCo HCg. unfold get_min_y, get_max_y in HY.
  pose proof (inv_raw_legal_in_range par Y Co Cg Hpar ltac:(lia) HCo HCg) as Hin.
  pose proof (data_pixel_inv_raw Y Co Cg) as Hfw.
  rewrite invData_pixel_clip.
  destruct (inv_raw (Y, Co, Cg)) as [[R G] B]. destruct Hin as (HR & HG & HB).
  rewrite !clip_id by assumption. split; [reflexivity|exact Hfw].
Qed.

Lemma data_after_invData_on_legal_witness :
  invData_pixel (255, 255, 255) (112, 149, 24) = inv_raw (112, 149, 24) /\
  data_pixel (invData_pixel (255, 255, 255) (112, 149, 24)) = (112, 149, 24).
Proof.
  apply (data_after_invData_on_legal 64 112 149 24); by_evaluation.
Defined.

(** X3. [ColorRangesYCoCg::minmax] agrees with [min] and [max]: for
    [par >= 1] with [4 par - 1] below 2^29 (so that no multiple of the
    [int par] overflows, the sentinel [8 par] included) and a luma within
    its bounds, the range it gives for plane
    0 is the static one, the range for plane 1 is non-empty and within
    the static bounds of plane 1, and so is the range for plane 2 when Co
    is within its range.  For a Co outside its range the sentinels make
    the range of plane 2 empty: (8 par, -8 par). *)
Theorem minmax_within_static_bounds
    (par : Z) (rg : ColorRanges) (Y Co : ColorVal) :
  1 <= par -> 4 * par - 1 < 2 ^ 29 ->
  get_min_y par <= Y <= get_max_y par ->
  ColorRangesYCoCg_minmax par 0 Y Co =
    Some (cr_min (ColorRangesYCoCg par rg) 0, cr_max (ColorRangesYCoCg par rg) 0) /\
  (exists lo hi,
      ColorRangesYCoCg_minmax par 1 Y Co = Some (lo, hi) /\
      cr_min (ColorRangesYCoCg par rg) 1 <= lo /\ lo <= hi /\
      hi <= cr_max (ColorRangesYCoCg par rg) 1) /\
  (get_min_co par Y <= Co <= get_max_co par Y ->
   exists lo hi,
     ColorRangesYCoCg_minmax par 2 Y Co = Some (lo, hi) /\
     cr_min (ColorRangesYCoCg par rg) 2 <= lo /\ lo <= hi /\
     hi <= cr_max (ColorRangesYCoCg par rg) 2) /\
  (~ get_min_co par Y <= Co <= get_max_co par Y ->
   ColorRangesYCoCg_minmax par 2 Y Co = Some (8 * par, -8 * par)).
Proof.
  intros Hpar _ HY. unfold get_min_y, get_max_y in HY.
  unfold ColorRangesYCoCg_minmax.
  cbn [Z.eqb Pos.eqb ColorRangesYCoCg cr_min cr_max].
  unfold ColorRangesYCoCg_min, ColorRangesYCoCg_max. cbn [Z.eqb Pos.eqb].
  split; [unfold get_max_y; do 2 f_equal; lia|]. split.
  { do 2 eexists. split; [reflexivity|].
    unfold get_min_co, get_max_co. branch_elim; lia. }
  split.
  { intros HCo. do 2 eexists. split; [reflexivity|].
    unfold get_min_cg, get_max_cg. unfold get_min_co, get_max_co in *.
    revert HCo. branch_elim; intros HCo; try lia; quot2_elim; lia. }
  intros HCo. unfold get_min_cg, get_max_cg.
  destruct (Z.ltb_spec Co (get_min_co par Y)); [reflexivity|].
  destruct (Co >? get_max_co par Y) eqn:E; [reflexivity|].
  rewrite Z.gtb_ltb in E. apply Z.ltb_ge in E. lia.
Qed.

Lemma minmax_within_static_bounds_witness :
  ColorRangesYCoCg_minmax 64 2 10 100 = Some (8 * 64, -8 * 64).
Proof.
  apply (minmax_within_static_bounds 64 (rgb_ranges 255) 10 100);
    [by_evaluation | by_evaluation | by_evaluation
    | vm_compute; intros [_ Hhi]; now apply Hhi].
Defined.

(** X4. [invData] never writes a value outside the source ranges:
    whatever the decoded planes hold (a lossy or partial decoding
    included), every channel of every pixel it produces is within
    [0, ranges->max(k)], provided the three maxima are not negative. *)
Theorem invData_within_source_ranges
    (t : TransformYCoCg) (rg : ColorRanges) (images out : Images) :
  ranges t = Some rg ->
  0 <= cr_max rg 0 -> 0 <= cr_max rg 1 -> 0 <= cr_max rg 2 ->
  invData t images = Some out ->
  length out = length images /\
  Forall (Forall (Forall (pixel_in_range rg))) out.
Proof.
  intros Hrg H0 H1 H2. unfold invData. rewrite Hrg. intros [= <-].
  split; [now rewrite length_map|].
  assert (forall x u, 0 <= u -> 0 <= clip x 0 u <= u) as Hclip.
  { intros x u Hu. unfold clip.
    destruct (Z.ltb_spec x 0); [lia|].
    destruct (x >? u) eqn:E; [lia|].
    rewrite Z.gtb_ltb in E. apply Z.ltb_ge in E. lia. }
  apply List.Forall_map, Forall_true. intros img.
  apply List.Forall_map, Forall_true. intros row.
  apply List.Forall_map, Forall_true. intros [[Y Co] Cg].
  cbn. auto.
Qed.

Lemma invData_within_source_ranges_witness :
  length [[[(0, 94, 255)]]] = length [[[(100, -500, 12)]]] /\
  Forall (Forall (Forall (pixel_in_range (rgb_ranges 255))))
    [[[(0, 94, 255)]]].
Proof.
  apply (invData_within_source_ranges
           {| par := 64; ranges := Some (rgb_ranges 255) |} (rgb_ranges 255)
           [[[(100, -500, 12)]]] [[[(0, 94, 255)]]] eq_refl);
    [cbn; lia | cbn; lia | cbn; lia | reflexivity].
Defined.

(** X5. No computation of the two loops overflows a 32-bit [ColorVal]
    when the channel maxima are below 2^29: for an RGB triple within
    [0, M], the sums, differences and shifts of [data], its three
    results, and the sums and differences [invData] computes on those
    results all lie within [-2^31, 2^31 - 1]. *)
Theorem transform_fits_int32 (M : Z) (R G B : ColorVal) :
  M < 2 ^ 29 -> 0 <= R <= M -> 0 <= G <= M -> 0 <= B <= M ->
  let fits x := - 2 ^ 31 <= x < 2 ^ 31 in
  fits (R + B) /\ fits (asr1 (R + B) + G) /\ fits (R - B) /\
  fits (asr1 (R + B) - G) /\
  let '(Y, Co, Cg) := data_pixel (R, G, B) in
  fits Y /\ fits Co /\ fits Cg /\ fits (Cg + 2) /\ fits (Co + 2) /\
  fits (Cg + 1) /\ fits (Co + 1) /\
  fits (Y + asr1 (Cg + 2)) /\ fits (Y + asr1 (Cg + 2) + asr1 (Co + 2)) /\
  fits (Y - asr1 (Cg + 1)) /\ fits (Y + asr1 (Cg + 2) - asr1 (Co + 1)).
Proof.
  intros HM HR HG HB fits. subst fits. unfold data_pixel. cbv beta.
  change (2 ^ 29) with 536870912 in HM.
  change (2 ^ 31) with 2147483648.
  asr1_elim. lia.
Qed.

Lemma transform_fits_int32_witness :
  let fits x := - 2 ^ 31 <= x < 2 ^ 31 in
  fits (65535 + 65535) /\ fits (asr1 (65535 + 65535) + 65535) /\
  fits (65535 - 65535) /\ fits (asr1 (65535 + 65535) - 65535) /\
  let '(Y, Co, Cg) := data_pixel (65535, 65535, 65535) in
  fits Y /\ fits Co /\ fits Cg /\ fits (Cg + 2) /\ fits (Co + 2) /\
  fits (Cg + 1) /\ fits (Co + 1) /\
  fits (Y + asr1 (Cg + 2)) /\ fits (Y + asr1 (Cg + 2) + asr1 (Co + 2)) /\
  fits (Y - asr1 (Cg + 1)) /\ fits (Y + asr1 (Cg + 2) - asr1 (Co + 1)).
Proof.
  apply (transform_fits_int32 65535 65535 65535 65535); lia.
Defined.

(** X6. What the encoder writes is within what the decoder is told to
    expect: for a transform whose [init] returned true, with channel
    maxima below 2^29 (so that [data] does not overflow the code's
    32-bit arithmetic), and a pixel within the source ranges, each plane of the transformed pixel lies
    within the range [ColorRangesYCoCg::minmax] gives for that plane from
    the planes before it, with the [par] that [init] derived. *)
Theorem data_within_minmax
    (srcRanges : ColorRanges) (t t' : TransformYCoCg) (R G B : ColorVal) :
  init srcRanges t = (true, t') ->
  max_channel srcRanges < 2 ^ 29 ->
  pixel_in_range srcRanges (R, G, B) ->
  let '(Y, Co, Cg) := data_pixel (R, G, B) in
  (exists lo hi, ColorRangesYCoCg_minmax (par t') 0 0 0 = Some (lo, hi) /\
                 lo <= Y <= hi) /\
  (exists lo hi, ColorRangesYCoCg_minmax (par t') 1 Y 0 = Some (lo, hi) /\
                 lo <= Co <= hi) /\
  (exists lo hi, ColorRangesYCoCg_minmax (par t') 2 Y Co = Some (lo, hi) /\
                 lo <= Cg <= hi).
Proof.
  intros Hinit _ (HR & HG & HB).
  assert (par t' = max_channel srcRanges ÷ 4 + 1) as Hpar.
  { unfold init in Hinit.
    repeat match type of Hinit with
           | (if ?b then _ else _) = _ => destruct b; [discriminate|]
           end.
    injection Hinit as <-. reflexivity. }
  assert (max_channel srcRanges <= 4 * par t' - 1) as HM.
  { rewrite Hpar. unfold max_channel in *.
    set (M := Z.max _ _). assert (0 <= M) by (subst M; lia).
    pose proof (Z.quot_rem M 4 ltac:(lia)).
    pose proof (Z.rem_bound_pos M 4 ltac:(lia) ltac:(lia)). lia. }
  unfold max_channel in HM.
  pose proof (dependent_ranges_sound (par t') R G B
                ltac:(lia) ltac:(lia) ltac:(lia)) as Hs.
  assert (0 <= fst (fst (data_pixel (R, G, B))) <= 4 * par t' - 1) as HY.
  { unfold data_pixel. cbn [fst]. asr1_elim. lia. }
  destruct (data_pixel (R, G, B)) as [[Y Co] Cg]. cbn [fst] in HY.
  unfold ColorRangesYCoCg_minmax. cbn [Z.eqb Pos.eqb].
  split; [do 2 eexists; split; [reflexivity|unfold get_max_y; lia]|].
  split; do 2 eexists; (split; [reflexivity|tauto]).
Qed.

Lemma data_within_minmax_witness :
  let '(Y, Co, Cg) := data_pixel (200, 100, 50) in
  (exists lo hi, ColorRangesYCoCg_minmax 64 0 0 0 = Some (lo, hi) /\
                 lo <= Y <= hi) /\
  (exists lo hi, ColorRangesYCoCg_minmax 64 1 Y 0 = Some (lo, hi) /\
                 lo <= Co <= hi) /\
  (exists lo hi, ColorRangesYCoCg_minmax 64 2 Y Co = Some (lo, hi) /\
                 lo <= Cg <= hi).
Proof.
  apply (data_within_minmax (rgb_ranges 255) fresh_transform
           (snd (init (rgb_ranges 255) fresh_transform)) 200 100 50
           eq_refl eq_refl).
  cbn. lia.
Defined.

End YCoCg_more.

(** * Further properties of the context-tree coder *)

Module Maniac_more.
Import Maniac Maniac_facts Maniac_measures.

Section Reads.
Context `{Primitives}.
Import FinalPropertySymbolCoder.

Implicit Types (s : FinalPropertySymbolCoder.t) (n : PropertyDecisionNode).
Implicit Types (properties : Properties) (tree : Tree).

(** A read that went through [find_leaf]: the coder [find_leaf] left,
    with new chances for the leaf returned. *)
Lemma read_through_find_leaf fuel properties s v s' :
  (exists min max, min <> max /\
                   read_int fuel properties min max s = Done (v, s')) \/
  (exists nbits, read_int_nbits fuel properties nbits s = Done (v, s')) ->
  exists leaf s1 c chances,
    find_leaf fuel properties s = Done (leaf, s1) /\
    is_Some (leaf_node s1 !! leaf) /\
    s' = store_leaf s1 leaf c chances.
Proof.
  intros [(min & max & Hne & Hr)|(nbits & Hr)].
  - apply (read_int_Done _ _ _ _ _ _ _ Hne) in Hr.
    destruct Hr as (_ & leaf & s1 & chances & Hfl & Hch & Heq).
    destruct (FinalCompoundSymbolCoder.read_int _ _ _ _) as [[val c'] ch'].
    injection Heq as -> ->. exists leaf, s1, c', ch'. eauto.
  - apply read_int_nbits_Done in Hr.
    destruct Hr as (_ & leaf & s1 & chances & Hfl & Hch & Heq).
    destruct (FinalCompoundSymbolCoder.read_int_nbits _ _ _) as [[val c'] ch'].
    injection Heq as -> ->. exists leaf, s1, c', ch'. eauto.
Qed.

(** X7. Every read that returns keeps the coder well-formed, whether it
    is the ranged or the fixed-width [read_int]: the tree keeps its
    length and the property, split value and children of every node,
    [nb_properties] is unchanged, the leaf store has grown by at most one
    leaf, and a tree whose children come after their parents, or whose
    properties are below [nb_properties], stays so.  So the invariant
    holds after any number of reads. *)
Theorem read_int_preserves_well_formedness
    fuel properties (min max nbits : Z) s v s' :
  well_formed s ->
  read_int fuel properties min max s = Done (v, s') \/
  read_int_nbits fuel properties nbits s = Done (v, s') ->
  well_formed s' /\
  tree_same_shape (inner_node s) (inner_node s') /\
  nb_properties s' = nb_properties s /\
  (length (leaf_node s) <= length (leaf_node s') <= S (length (leaf_node s)))%nat /\
  (children_after (inner_node s) -> children_after (inner_node s')) /\
  (properties_below (nb_properties s) (inner_node s) ->
   properties_below (nb_properties s') (inner_node s')).
Proof.
  intros Hwf Hr.
  assert (s' = s \/
          exists leaf s1 c chances,
            find_leaf fuel properties s = Done (leaf, s1) /\
            is_Some (leaf_node s1 !! leaf) /\
            s' = store_leaf s1 leaf c chances) as [->|Hvia].
  { destruct Hr as [Hr|Hr].
    - destruct (Z.eq_dec min max) as [->|Hne].
      + left. unfold read_int in Hr. rewrite Z.eqb_refl in Hr. congruence.
      + right. apply (read_through_find_leaf fuel properties s v). left. eauto.
    - right. apply (read_through_find_leaf fuel properties s v). right. eauto. }
  { split; [exact Hwf|]. split; [apply tree_same_shape_refl|].
    split; [reflexivity|]. split; [lia|]. auto. }
  destruct Hvia as (leaf & s1 & c & chances & Hfl & _ & ->).
  destruct (find_leaf_from_preserves _ _ _ _ _ _ Hwf Hfl)
    as ((Hch & Hlf) & _ & Hshape & (extra & Hext & Hlen) & _ & Hnb).
  cbn [store_leaf inner_node leaf_node nb_properties].
  split; [split; [exact Hch|]|].
  { intros i m Hm. cbn [store_leaf inner_node leaf_node] in *.
    rewrite length_insert. now apply (Hlf i m). }
  split; [exact Hshape|]. split; [exact Hnb|].
  split; [rewrite length_insert, Hext, length_app; lia|].
  split.
  - now apply tree_same_shape_children_after.
  - rewrite Hnb. now apply tree_same_shape_properties_below.
Qed.

(** *** What one call of [find_leaf] changes *)

(** The walk stops at one node [stop]: a terminal node, where nothing
    changes; a node being counted down; or a node that splits. *)
Lemma find_leaf_from_effect fuel properties pos s leaf s' :
  well_formed s ->
  find_leaf_from fuel properties pos s = Done (leaf, s') ->
  exists stop n,
    inner_node s !! stop = Some n /\
    ((property n = -1 /\ leaf = leafID n /\ s' = s) \/
     (property n <> -1 /\ count n > 0 /\ leaf = leafID n /\
      s' = with_routing s (leaf_node s)
             (<[stop := set_count (count n - 1) n]> (inner_node s))) \/
     (property n <> -1 /\ count n = 0 /\
      exists copy tree2 tree' v,
        leaf_node s !! leafID n = Some copy /\
        update_at (<[stop := set_count (-1) n]> (inner_node s))
                  (childID n) (set_leafID (leafID n)) = Done tree2 /\
        update_at tree2 (childID n + 1)%nat
                  (set_leafID (length (leaf_node s))) = Done tree' /\
        0 <= property n /\
        properties !! Z.to_nat (property n) = Some v /\
        leaf = (if v >? splitval n then leafID n else length (leaf_node s)) /\
        s' = with_routing s (leaf_node s ++ [copy]) tree')).
Proof.
  intros Hwf. revert pos.
  induction fuel as [|fuel IH]; intros pos Hr; [discriminate|].
  destruct (find_leaf_from_inv _ _ _ _ _ Hwf Hr) as (n & Hn & Hcase).
  destruct Hcase as [Hp|[[Hp Hc]|(Hp & Hc & Hp0 & v & Hv)]].
  - rewrite (find_leaf_terminal _ _ _ _ _ Hwf Hn Hp) in Hr.
    injection Hr as <- <-. exists pos, n. auto.
  - rewrite (find_leaf_visit _ _ _ _ _ Hwf Hn Hp Hc) in Hr.
    injection Hr as <- <-. exists pos, n. split; [exact Hn|]. right. left. auto.
  - destruct (Z.eq_dec (count n) 0) as [Hc0|Hc0].
    + destruct (find_leaf_split fuel properties pos s n Hwf Hn Hp Hc0)
        as (copy & left & right & tree' & Hcopy & Heq & _ & _ & _ & _ & _ & _
            & _ & _ & _ & _ & tree2 & Hu1 & Hu2).
      rewrite Heq in Hr.
      assert (at_indexZ properties (property n) = Done v) as Hz
        by now apply at_indexZ_Done.
      rewrite Hz in Hr. cbn [mbind outcome_bind] in Hr.
      injection Hr as <- <-. rewrite Hc0 in Hu1. change (0 - 1) with (-1) in Hu1.
      exists pos, n. split; [exact Hn|]. right. right.
      split; [exact Hp|]. split; [exact Hc0|].
      exists copy, tree2, tree', v. auto 10.
    + assert (count n < 0) as Hneg by lia.
      rewrite (find_leaf_route _ _ _ _ _ _ Hn Hp Hneg Hp0 Hv) in Hr.
      now apply IH in Hr.
Qed.

(** A write of [leafID] changes neither the count nor the property of
    any node. *)
Lemma update_at_set_leafID_lookup tree tree' i l j :
  update_at tree i (set_leafID l) = Done tree' ->
  length tree' = length tree /\
  count <$> tree' !! j = count <$> tree !! j /\
  property <$> tree' !! j = property <$> tree !! j.
Proof.
  intros (x & Hx & ->)%update_at_Done. split; [apply length_insert|].
  destruct (decide (i = j)) as [<-|Hne].
  - rewrite list_lookup_insert_eq by (eapply lookup_lt_Some; eauto).
    rewrite Hx. now destruct x.
  - now rewrite list_lookup_insert_ne.
Qed.

Lemma activated_insert tree i x y :
  tree !! i = Some x ->
  (activated (<[i := y]> tree) + Nat.b2n (is_activated x) =
   activated tree + Nat.b2n (is_activated y))%nat.
Proof.
  revert i. induction tree as [|z tree IH]; intros i Hi; [discriminate|].
  destruct i as [|i].
  - injection Hi as ->.
    change (<[0%nat := y]> (x :: tree)) with (y :: tree).
    unfold activated. cbn [foldr]. lia.
  - change ((z :: tree) !! S i) with (tree !! i) in Hi.
    change (<[S i := y]> (z :: tree)) with (z :: <[i := y]> tree).
    specialize (IH i Hi). unfold activated in *. cbn [foldr]. lia.
Qed.

Lemma activated_update_leafID tree tree' i l :
  update_at tree i (set_leafID l) = Done tree' ->
  activated tree' = activated tree.
Proof.
  intros (x & Hx & ->)%update_at_Done.
  pose proof (activated_insert tree i x (set_leafID l x) Hx) as Ha.
  assert (is_activated (set_leafID l x) = is_activated x) as Heq by now destruct x.
  rewrite Heq in Ha. lia.
Qed.

(** X8. [find_leaf] never removes or changes a leaf of the store: after
    a call that returns, the store is the one before, or the one before
    with one copy of one of its leaves appended; in the second case the
    leaf returned is the leaf copied or the copy. *)
Theorem find_leaf_store_append_only fuel properties pos s leaf s' :
  well_formed s ->
  find_leaf_from fuel properties pos s = Done (leaf, s') ->
  (leaf_node s' = leaf_node s /\ is_Some (leaf_node s !! leaf)) \/
  (exists old copy,
      leaf_node s !! old = Some copy /\
      leaf_node s' = leaf_node s ++ [copy] /\
      (leaf = old \/ leaf = length (leaf_node s))).
Proof.
  intros Hwf Hr.
  destruct (find_leaf_from_effect _ _ _ _ _ _ Hwf Hr) as (stop & n & Hn & Hcase).
  pose proof (lookup_lt_is_Some_2 _ _ (proj2 Hwf stop n Hn)) as Hleaf.
  destruct Hcase as
    [(_ & -> & ->)
    |[(_ & _ & -> & ->)
     |(_ & _ & copy & tree2 & tree' & v & Hcopy & _ & _ & _ & _ & -> & ->)]].
  - left. auto.
  - left. auto.
  - right. exists (leafID n), copy. split; [exact Hcopy|].
    split; [reflexivity|]. destruct (v >? splitval n); auto.
Qed.

(** X9. The counts under [find_leaf]: a call that returns changes the
    count of at most one node, the one the walk stops at, and only by
    counting it down by one from a count that was not negative; the
    count of an activated node (negative count) never changes, and no
    count falls below -1 that was not below it. *)
Theorem find_leaf_counts_down_once fuel properties pos s leaf s' :
  well_formed s ->
  find_leaf_from fuel properties pos s = Done (leaf, s') ->
  exists stop,
    (forall i, i <> stop ->
               count <$> inner_node s' !! i = count <$> inner_node s !! i) /\
    (forall m, inner_node s !! stop = Some m ->
       exists m', inner_node s' !! stop = Some m' /\
         (count m' = count m \/
          (property m <> -1 /\ 0 <= count m /\ count m' = count m - 1))) /\
    (forall i m m', inner_node s !! i = Some m -> inner_node s' !! i = Some m' ->
                    count m < 0 -> count m' = count m).
Proof.
  intros Hwf Hr.
  destruct (find_leaf_from_effect _ _ _ _ _ _ Hwf Hr) as (stop & n & Hn & Hcase).
  pose proof (lookup_lt_Some _ _ _ Hn) as Hstop.
  assert (forall tree',
            (forall i, count <$> tree' !! i
                       = count <$> <[stop := set_count (count n - 1) n]>
                                     (inner_node s) !! i) ->
            0 <= count n -> property n <> -1 ->
            (forall i, i <> stop ->
                       count <$> tree' !! i = count <$> inner_node s !! i) /\
            (forall m, inner_node s !! stop = Some m ->
               exists m', tree' !! stop = Some m' /\
                 (count m' = count m \/
                  (property m <> -1 /\ 0 <= count m /\ count m' = count m - 1))) /\
            (forall i m m', inner_node s !! i = Some m -> tree' !! i = Some m' ->
                            count m < 0 -> count m' = count m)) as Hdown.
  { intros tree' Hcounts Hc Hp. split; [|split].
    - intros i Hi. rewrite Hcounts. now rewrite list_lookup_insert_ne.
    - intros m Hm. rewrite Hn in Hm. injection Hm as <-.
      specialize (Hcounts stop).
      rewrite list_lookup_insert_eq in Hcounts by done.
      destruct (tree' !! stop) as [m'|]; [|discriminate].
      exists m'. split; [reflexivity|]. right.
      injection Hcounts as ->. cbn. auto.
    - intros i m m' Hm Hm' Hneg. specialize (Hcounts i). rewrite Hm' in Hcounts.
      destruct (decide (stop = i)) as [<-|Hne].
      + rewrite Hn in Hm. injection Hm as <-. lia.
      + rewrite list_lookup_insert_ne, Hm in Hcounts by done.
        now injection Hcounts. }
  exists stop.
  destruct Hcase as
    [(_ & _ & ->)
    |[(Hp & Hc & _ & ->)
     |(Hp & Hc & copy & tree2 & tree' & v & _ & Hu1 & Hu2 & _ & _ & _ & ->)]].
  - split; [auto|]. split; [eauto|]. intros i m m' Hm Hm' _. congruence.
  - cbn [with_routing inner_node]. apply Hdown; [reflexivity|lia|exact Hp].
  - cbn [with_routing inner_node]. apply Hdown; [|lia|exact Hp].
    intros i.
    destruct (update_at_set_leafID_lookup _ _ _ _ i Hu2) as (_ & -> & _).
    destruct (update_at_set_leafID_lookup _ _ _ _ i Hu1) as (_ & -> & _).
    rewrite Hc. reflexivity.
Qed.

Lemma find_leaf_from_leaf_balance fuel properties pos s leaf s' :
  well_formed s ->
  find_leaf_from fuel properties pos s = Done (leaf, s') ->
  (length (leaf_node s') + activated (inner_node s) =
   length (leaf_node s) + activated (inner_node s'))%nat /\
  (activated (inner_node s) <= activated (inner_node s'))%nat.
Proof.
  intros Hwf Hr.
  destruct (find_leaf_from_effect _ _ _ _ _ _ Hwf Hr) as (stop & n & Hn & Hcase).
  destruct Hcase as
    [(_ & _ & ->)
    |[(Hp & Hc & _ & ->)
     |(Hp & Hc & copy & tree2 & tree' & v & _ & Hu1 & Hu2 & _ & _ & _ & ->)]].
  - lia.
  - cbn [with_routing inner_node leaf_node].
    pose proof (activated_insert _ stop n (set_count (count n - 1) n) Hn) as Ha.
    assert (is_activated n = false) as Hn0.
    { unfold is_activated. destruct (Z.ltb_spec (count n) 0); [lia|].
      apply andb_false_r. }
    assert (is_activated (set_count (count n - 1) n) = false) as Hn1.
    { unfold is_activated. destruct n as [p c sv ch lf]; cbn in *.
      destruct (Z.ltb_spec (c - 1) 0); [lia|]. apply andb_false_r. }
    rewrite Hn0, Hn1 in Ha. cbn in Ha. lia.
  - cbn [with_routing inner_node leaf_node].
    rewrite (activated_update_leafID _ _ _ _ Hu2).
    rewrite (activated_update_leafID _ _ _ _ Hu1).
    pose proof (activated_insert _ stop n (set_count (-1) n) Hn) as Ha.
    assert (is_activated n = false) as Hn0.
    { unfold is_activated. rewrite Hc. cbn. apply andb_false_r. }
    assert (is_activated (set_count (-1) n) = true) as Hn1.
    { unfold is_activated. destruct n as [p c sv ch lf]; cbn in *.
      destruct (Z.eqb_spec p (-1)); [done|reflexivity]. }
    rewrite Hn0, Hn1 in Ha. cbn in Ha. rewrite length_app. cbn. lia.
Qed.

Lemma activated_le_inner_nodes tree :
  (activated tree <= inner_nodes tree)%nat.
Proof.
  induction tree as [|n tree IH]; [reflexivity|].
  unfold activated, inner_nodes, is_activated in *. cbn [foldr].
  destruct (negb (property n =? -1)), (count n <? 0); cbn; lia.
Qed.

Lemma tree_same_shape_inner_nodes tree tree' :
  tree_same_shape tree tree' -> inner_nodes tree' = inner_nodes tree.
Proof.
  revert tree'. induction tree as [|n tree IH]; intros tree' [Hlen Hsh].
  - destruct tree'; [reflexivity|discriminate].
  - destruct tree' as [|n' tree']; [discriminate|].
    destruct (Hsh 0%nat n eq_refl) as (n0 & [= <-] & Hp & _).
    unfold inner_nodes in *. cbn [foldr]. rewrite Hp. f_equal.
    apply IH. split; [cbn in Hlen; lia|].
    intros i m Hm. exact (Hsh (S i) m Hm).
Qed.

(** X10. Leaves and activated nodes go together.  A call of [find_leaf]
    that returns adds as many leaves to the store as it activates nodes
    (one of each when it splits, none otherwise), and activation is
    never undone.  The constructor leaves one leaf and the activation of
    the tree it is given; so over a tree without activated nodes the
    store has one leaf more than the tree has activated nodes, every
    read keeps it so, and the store never has more leaves than the tree
    has nodes with a property, plus one. *)
Theorem leaf_store_tracks_activation :
  (forall fuel properties pos s leaf s',
      well_formed s ->
      find_leaf_from fuel properties pos s = Done (leaf, s') ->
      (length (leaf_node s') + activated (inner_node s) =
       length (leaf_node s) + activated (inner_node s'))%nat /\
      (activated (inner_node s) <= activated (inner_node s'))%nat) /\
  (forall racIn rangeIn tree cut alpha s,
      make racIn rangeIn tree cut alpha = Done s ->
      length (leaf_node s) = 1%nat /\
      activated (inner_node s) = activated tree) /\
  (forall fuel properties (min max nbits : Z) s v s',
      well_formed s ->
      length (leaf_node s) = S (activated (inner_node s)) ->
      read_int fuel properties min max s = Done (v, s') \/
      read_int_nbits fuel properties nbits s = Done (v, s') ->
      length (leaf_node s') = S (activated (inner_node s')) /\
      inner_nodes (inner_node s') = inner_nodes (inner_node s) /\
      (length (leaf_node s') <= S (inner_nodes (inner_node s')))%nat).
Proof.
  split; [exact find_leaf_from_leaf_balance|]. split.
  - intros racIn rangeIn tree cut alpha s Hr. unfold make in Hr.
    apply bind_Done in Hr. destruct Hr as (tree' & Hu & [= <-]).
    cbn [leaf_node inner_node length].
    split; [reflexivity|]. exact (activated_update_leafID _ _ _ _ Hu).
  - intros fuel properties min max nbits s v s' Hwf Hbal Hr.
    assert (length (leaf_node s') = S (activated (inner_node s')) /\
            inner_nodes (inner_node s') = inner_nodes (inner_node s)) as [E1 E2].
    { assert (s' = s \/
              exists leaf s1 c chances,
                find_leaf fuel properties s = Done (leaf, s1) /\
                is_Some (leaf_node s1 !! leaf) /\
                s' = store_leaf s1 leaf c chances) as [->|Hvia].
      { destruct Hr as [Hr|Hr].
        - destruct (Z.eq_dec min max) as [->|Hne].
          + left. unfold read_int in Hr. rewrite Z.eqb_refl in Hr. congruence.
          + right. apply (read_through_find_leaf fuel properties s v). left. eauto.
        - right. apply (read_through_find_leaf fuel properties s v). right. eauto. }
      { auto. }
      destruct Hvia as (leaf & s1 & c & chances & Hfl & _ & ->).
      destruct (find_leaf_from_leaf_balance _ _ _ _ _ _ Hwf Hfl) as [Hb _].
      destruct (find_leaf_from_preserves _ _ _ _ _ _ Hwf Hfl)
        as (_ & _ & Hshape & _).
      cbn [store_leaf inner_node leaf_node]. rewrite length_insert.
      split; [lia|]. now apply tree_same_shape_inner_nodes. }
    split; [exact E1|]. split; [exact E2|].
    pose proof (activated_le_inner_nodes (inner_node s')). lia.
Qed.

(** A node that is activated is left as it is, up to its [leafID]. *)
Lemma find_leaf_from_activated_kept fuel properties pos s leaf s' i m :
  well_formed s ->
  find_leaf_from fuel properties pos s = Done (leaf, s') ->
  inner_node s !! i = Some m -> count m < 0 ->
  exists m', inner_node s' !! i = Some m' /\ same_shape m m' /\
             count m' = count m.
Proof.
  intros Hwf Hr Hm Hneg.
  destruct (find_leaf_from_preserves _ _ _ _ _ _ Hwf Hr)
    as (_ & _ & [_ Hshape] & _).
  destruct (Hshape i m Hm) as (m' & Hm' & Hsh).
  exists m'. split; [exact Hm'|]. split; [exact Hsh|].
  destruct (find_leaf_from_effect _ _ _ _ _ _ Hwf Hr) as (stop & n & Hn & Hcase).
  assert (0 <= count n -> stop <> i) as Hne.
  { intros Hc ->. rewrite Hn in Hm. injection Hm as <-. lia. }
  destruct Hcase as
    [(_ & _ & ->)
    |[(Hp & Hc & _ & ->)
     |(Hp & Hc & copy & tree2 & tree' & v & _ & Hu1 & Hu2 & _ & _ & _ & ->)]].
  - congruence.
  - cbn [with_routing inner_node] in Hm'.
    rewrite list_lookup_insert_ne in Hm' by (apply Hne; lia). congruence.
  - cbn [with_routing inner_node] in Hm'.
    destruct (update_at_set_leafID_lookup _ _ _ _ i Hu2) as (_ & Hc2 & _).
    destruct (update_at_set_leafID_lookup _ _ _ _ i Hu1) as (_ & Hc1 & _).
    rewrite Hm', Hc1, list_lookup_insert_ne, Hm in Hc2 by (apply Hne; lia).
    now injection Hc2.
Qed.

Lemma find_leaf_split_grows fuel properties pos s n leaf s' :
  well_formed s ->
  inner_node s !! pos = Some n -> property n <> -1 -> count n = 0 ->
  find_leaf_from (S fuel) properties pos s = Done (leaf, s') ->
  length (leaf_node s') = S (length (leaf_node s)).
Proof.
  intros Hwf Hn Hp Hc Hr.
  destruct (find_leaf_split fuel properties pos s n Hwf Hn Hp Hc)
    as (copy & left & right & tree' & _ & Heq & _).
  rewrite Heq in Hr.
  destruct (at_indexZ properties (property n)) as [v| |]; try discriminate.
  cbn [mbind outcome_bind] in Hr. injection Hr as _ <-.
  cbn [with_routing leaf_node]. rewrite length_app. cbn. lia.
Qed.

(** X11. Asking again gives the same leaf.  On a tree whose children
    come after their parents and whose activation goes top down, when
    [find_leaf] has returned a leaf and is called again with the same
    properties, it returns the same leaf unless this second call splits
    a node (the store grows): also right after a split, where the
    second walk goes through the node just activated to the child
    whose [leafID] the split has set. *)
Theorem find_leaf_again_same_leaf fuel fuel' properties pos s leaf s1 leaf' s2 :
  well_formed s ->
  children_after (inner_node s) ->
  activation_top_down (inner_node s) ->
  find_leaf_from fuel properties pos s = Done (leaf, s1) ->
  find_leaf_from fuel' properties pos s1 = Done (leaf', s2) ->
  length (leaf_node s2) = length (leaf_node s1) ->
  leaf' = leaf.
Proof.
  intros Hwf Haft Htop. revert fuel' pos.
  induction fuel as [|fuel IH]; intros fuel' pos Hr Hr2 Hlen; [discriminate|].
  destruct (find_leaf_from_preserves _ _ _ _ _ _ Hwf Hr) as (Hwf1 & _).
  destruct fuel' as [|fuel']; [discriminate|].
  destruct (find_leaf_from_inv _ _ _ _ _ Hwf Hr) as (n & Hn & Hcase).
  pose proof (lookup_lt_Some _ _ _ Hn) as Hpos.
  destruct Hcase as [Hp|[[Hp Hc]|(Hp & Hc & Hp0 & v & Hv)]].
  - rewrite (find_leaf_terminal _ _ _ _ _ Hwf Hn Hp) in Hr.
    injection Hr as <- <-.
    rewrite (find_leaf_terminal _ _ _ _ _ Hwf Hn Hp) in Hr2.
    now injection Hr2 as <- _.
  - rewrite (find_leaf_visit _ _ _ _ _ Hwf Hn Hp Hc) in Hr.
    injection Hr as <- <-.
    set (n1 := set_count (count n - 1) n) in *.
    assert (inner_node (with_routing s (leaf_node s) (<[pos := n1]> (inner_node s)))
              !! pos = Some n1) as Hn1.
    { cbn [with_routing inner_node]. now rewrite list_lookup_insert_eq. }
    assert (property n1 = property n /\ count n1 = count n - 1 /\
            leafID n1 = leafID n) as (Hp1 & Hc1 & Hl1)
      by (subst n1; now destruct n).
    destruct (Z.eq_dec (count n) 1) as [Hone|Hmore].
    + pose proof (find_leaf_split_grows _ _ _ _ _ _ _ Hwf1 Hn1
                    ltac:(congruence) ltac:(lia) Hr2) as Hgrow.
      lia.
    + rewrite (find_leaf_visit _ _ _ _ _ Hwf1 Hn1 ltac:(congruence) ltac:(lia))
        in Hr2.
      injection Hr2 as <- _. exact Hl1.
  - destruct (Z.eq_dec (count n) 0) as [Hc0|Hc0].
    + pose proof (Haft pos n Hn Hp) as Hafter.
      destruct (find_leaf_split fuel properties pos s n Hwf Hn Hp Hc0)
        as (copy & left & right & tree' & Hcopy & Heq & [_ Hshape] & _
            & Hleft & Hlid & Hright & Hrid & _ & Hself & _ & _
            & tree2 & Hu1 & Hu2).
      rewrite Heq in Hr.
      assert (at_indexZ properties (property n) = Done v) as Hz
        by now apply at_indexZ_Done.
      rewrite Hz in Hr. cbn [mbind outcome_bind] in Hr.
      injection Hr as <- <-.
      specialize (Hself ltac:(lia) ltac:(lia)).
      set (s1 := with_routing s (leaf_node s ++ [copy]) tree') in *.
      set (n1 := set_count (-1) n) in *.
      assert (property n1 = property n /\ count n1 = -1 /\
              splitval n1 = splitval n /\ childID n1 = childID n)
        as (Hp1 & Hc1 & Hs1 & Hch1) by (subst n1; now destruct n).
      assert (inner_node s1 !! pos = Some n1) as Hn1 by exact Hself.
      rewrite (find_leaf_route fuel' properties pos s1 n1 v Hn1
                 ltac:(congruence) ltac:(lia) ltac:(congruence)
                 ltac:(now rewrite Hp1)) in Hr2.
      rewrite Hs1, Hch1 in Hr2.
      set (c := if v >? splitval n then childID n else (childID n + 1)%nat) in *.
      assert (exists m1, tree' !! c = Some m1 /\
                leafID m1 = (if v >? splitval n then leafID n
                             else length (leaf_node s))) as (m1 & Hm1 & Hlm1).
      { subst c. destruct (v >? splitval n).
        - exists left. auto.
        - exists right. split; [exact Hright|]. rewrite Hrid, length_app. cbn. lia. }
      assert (c = childID n \/ c = (childID n + 1)%nat) as Hchild
        by (subst c; destruct (v >? splitval n); auto).
      assert (c <> pos) as Hcpos by lia.
      destruct fuel' as [|fuel']; [discriminate|].
      destruct (Z.eq_dec (property m1) (-1)) as [Hpm|Hpm].
      { rewrite (find_leaf_terminal _ _ _ _ _ Hwf1 Hm1 Hpm) in Hr2.
        injection Hr2 as <- _. exact Hlm1. }
      destruct (Z.lt_trichotomy (count m1) 0) as [Hcm|[Hcm|Hcm]].
      * exfalso.
        destruct (update_at_set_leafID_lookup _ _ _ _ c Hu2) as (_ & Hc2 & Hp2).
        destruct (update_at_set_leafID_lookup _ _ _ _ c Hu1) as (_ & Hc3 & Hp3).
        rewrite Hm1, Hc3, list_lookup_insert_ne in Hc2 by done.
        rewrite Hm1, Hp3, list_lookup_insert_ne in Hp2 by done.
        destruct (inner_node s !! c) as [m|] eqn:Hm; [|discriminate].
        injection Hc2 as Hc2. injection Hp2 as Hp2.
        pose proof (Htop pos n c m Hn Hp ltac:(lia) Hchild Hm) as Hoff.
        unfold is_activated in Hoff. rewrite <- Hc2, <- Hp2 in Hoff.
        destruct (Z.eqb_spec (property m1) (-1)); [done|].
        destruct (Z.ltb_spec (count m1) 0); [discriminate|lia].
      * pose proof (find_leaf_split_grows _ _ _ _ _ _ _ Hwf1 Hm1 Hpm Hcm Hr2).
        lia.
      * rewrite (find_leaf_visit _ _ _ _ _ Hwf1 Hm1 Hpm ltac:(lia)) in Hr2.
        injection Hr2 as <- _. exact Hlm1.
    + assert (count n < 0) as Hneg by lia.
      destruct (find_leaf_from_activated_kept _ _ _ _ _ _ _ _ Hwf Hr Hn Hneg)
        as (n1 & Hn1 & (Hp1 & Hs1 & Hch1) & Hc1).
      rewrite (find_leaf_route _ _ _ _ _ _ Hn Hp Hneg Hp0 Hv) in Hr.
      rewrite (find_leaf_route fuel' properties pos s1 n1 v Hn1
                 ltac:(congruence) ltac:(lia) ltac:(congruence)
                 ltac:(now rewrite Hp1)) in Hr2.
      rewrite Hs1, Hch1 in Hr2.
      exact (IH _ _ Hr Hr2 Hlen).
Qed.

End Reads.

(** ** The tree decoder *)

Section Decoding.
Context {C : Type} `{SimpleSymbolCoder C} `{Config}.
Import MetaPropertySymbolCoder.

Lemma inner_nodes_app t1 t2 :
  inner_nodes (t1 ++ t2) = (inner_nodes t1 + inner_nodes t2)%nat.
Proof.
  induction t1 as [|n t1 IH]; [reflexivity|].
  unfold inner_nodes in *. cbn [app foldr]. rewrite IH. lia.
Qed.

Lemma inner_nodes_insert tree i x y :
  tree !! i = Some x ->
  (inner_nodes (<[i := y]> tree) + Nat.b2n (negb (property x =? -1)%Z) =
   inner_nodes tree + Nat.b2n (negb (property y =? -1)%Z))%nat.
Proof.
  revert i. induction tree as [|z tree IH]; intros i Hi; [discriminate|].
  destruct i as [|i].
  - injection Hi as ->.
    change (<[0%nat := y]> (x :: tree)) with (y :: tree).
    unfold inner_nodes. cbn [foldr]. lia.
  - change ((z :: tree) !! S i) with (tree !! i) in Hi.
    change (<[S i := y]> (z :: tree)) with (z :: <[i := y]> tree).
    specialize (IH i Hi). unfold inner_nodes in *. cbn [foldr]. lia.
Qed.

Lemma combinations_pos sr : (1 <= combinations sr)%nat.
Proof.
  induction sr as [|r sr IH]; [cbn; lia|].
  unfold combinations in *. cbn [foldr]. nia.
Qed.

Lemma combinations_insert sr i r r' :
  sr !! i = Some r ->
  (combinations (<[i := r']> sr) * (Z.to_nat (snd r - fst r) + 1) =
   combinations sr * (Z.to_nat (snd r' - fst r') + 1))%nat.
Proof.
  revert i. induction sr as [|r0 sr IH]; intros i Hlk; [discriminate|].
  destruct i as [|i].
  - injection Hlk as ->.
    change (<[0%nat := r']> (r :: sr)) with (r' :: sr).
    unfold combinations. cbn [foldr]. nia.
  - change ((r0 :: sr) !! S i) with (sr !! i) in Hlk.
    change (<[S i := r']> (r0 :: sr)) with (r0 :: <[i := r']> sr).
    specialize (IH i Hlk). unfold combinations in *. cbn [foldr]. nia.
Qed.

(** A split divides the combinations between the two subtrees. *)
Lemma combinations_split (sr : Ranges) (i : nat) (lo hi s : Z) :
  sr !! i = Some (lo, hi) -> lo <= s <= hi - 1 ->
  (combinations (<[i := (s + 1, hi)%Z]> sr) +
   combinations (<[i := (lo, s)]> sr) = combinations sr)%nat.
Proof.
  intros Hlk Hs.
  pose proof (combinations_insert sr i (lo, hi) (s + 1, hi) Hlk) as H1.
  pose proof (combinations_insert sr i (lo, hi) (lo, s) Hlk) as H2.
  cbn [fst snd] in H1, H2.
  assert (Z.to_nat (hi - (s + 1)) + Z.to_nat (s - lo) + 1 = Z.to_nat (hi - lo))%nat
    as Hw by lia.
  nia.
Qed.

(** Appended nodes come in pairs, one pair for each node that gets a
    property and has room to split. *)
Lemma read_subtree_visits_pairs fuel nb pos sr t c b sr' t' c' vs n0 :
  read_subtree_visits fuel nb pos sr t c = Done (b, sr', t', c', vs) ->
  t !! pos = Some n0 -> property n0 = -1 ->
  (length t' + 2 * inner_nodes t + (if b then 0 else 2) =
   length t + 2 * inner_nodes t')%nat.
Proof.
  revert pos sr t c b sr' t' c' vs n0.
  induction fuel as [|fuel IH]; intros pos sr t c b sr' t' c' vs n0 Hr Hn0 Hp0;
    [discriminate|].
  apply read_subtree_visits_inv in Hr.
  destruct Hr as (n & v & c1 & Hn & _ & Hcases). cbv zeta in Hcases.
  rewrite Hn0 in Hn. injection Hn as <-.
  pose proof (lookup_lt_Some _ _ _ Hn0) as Hpos.
  set (p := int8_t (v - 1)) in *.
  assert (forall y, property y <> -1 ->
            inner_nodes (<[pos := y]> t) = S (inner_nodes t)) as Hinner.
  { intros y Hy. pose proof (inner_nodes_insert t pos n0 y Hn0) as Hi.
    rewrite Hp0 in Hi.
    destruct (Z.eqb_spec (property y) (-1)); [done|]. cbn in Hi. lia. }
  destruct Hcases as
    [(Hp & -> & -> & -> & -> & ->)
    |(Hp & lo & hi & Hp1 & Hlk & Hcases)].
  { pose proof (inner_nodes_insert t pos n0 (set_property p n0) Hn0) as Hi.
    rewrite length_insert.
    assert (property (set_property p n0) = -1) as Hq by (destruct n0; exact Hp).
    rewrite Hp0, Hq in Hi. cbn in Hi. lia. }
  destruct Hcases as
    [(_ & -> & -> & -> & -> & ->)
    |(Hlt & cnt & c2 & s & c3 & _ & _ & Hcases)].
  { rewrite length_insert, Hinner by (destruct n0; exact Hp). lia. }
  cbv zeta in Hcases.
  set (n2 := set_childID (length t)
               (set_splitval s (set_count (int16_t cnt) (set_property p n0)))) in *.
  set (t1 := <[pos := n2]> t ++ [PropertyDecisionNode_default;
                                 PropertyDecisionNode_default]) in *.
  assert (length t1 = S (S (length t))) as Hl1.
  { subst t1. rewrite length_app, length_insert. cbn. lia. }
  assert (inner_nodes t1 = S (inner_nodes t)) as Hi1.
  { subst t1. rewrite inner_nodes_app, Hinner by (destruct n0; exact Hp).
    cbn. lia. }
  assert (t1 !! length t = Some PropertyDecisionNode_default) as Hleft.
  { subst t1. rewrite lookup_app_r by (rewrite length_insert; lia).
    rewrite length_insert, Nat.sub_diag. reflexivity. }
  assert (t1 !! (length t + 1)%nat = Some PropertyDecisionNode_default) as Hright.
  { subst t1. rewrite lookup_app_r by (rewrite length_insert; lia).
    rewrite length_insert.
    replace (length t + 1 - length t)%nat with 1%nat by lia. reflexivity. }
  destruct Hcases as (b1 & sr2 & t3 & c4 & vs1 & Hrec1 & Hcases).
  pose proof (IH _ _ _ _ _ _ _ _ _ _ Hrec1 Hleft eq_refl) as E1.
  pose proof (read_subtree_visits_structure _ _ _ _ _ _ _ _ _ _ _ Hrec1)
    as (_ & _ & _ & Hframe1 & _).
  destruct Hcases as
    [(-> & -> & _ & -> & _)
    |(-> & r2 & Hr2 & b2 & sr4 & t4 & c5 & vs2 & Hrec2 & Hcases)].
  { lia. }
  assert (t3 !! (length t + 1)%nat = Some PropertyDecisionNode_default) as Hright3.
  { rewrite Hframe1 by lia. exact Hright. }
  pose proof (IH _ _ _ _ _ _ _ _ _ _ Hrec2 Hright3 eq_refl) as E2.
  destruct Hcases as
    [(-> & -> & _ & -> & _)
    |(-> & r4 & Hr4 & -> & _ & -> & _)]; lia.
Qed.

(** The tree grows by at most two nodes for each combination of
    property values but one. *)
Lemma read_subtree_visits_size fuel nb pos sr t c b sr' t' c' vs :
  read_int_in_range C ->
  read_subtree_visits fuel nb pos sr t c = Done (b, sr', t', c', vs) ->
  (length t' + 2 <= length t + 2 * combinations sr)%nat.
Proof.
  intros Hrange. revert pos sr t c b sr' t' c' vs.
  induction fuel as [|fuel IH]; intros pos sr t c b sr' t' c' vs Hr;
    [discriminate|].
  apply read_subtree_visits_inv in Hr.
  destruct Hr as (n & v & c1 & Hn & _ & Hcases). cbv zeta in Hcases.
  pose proof (combinations_pos sr) as Hone.
  set (p := int8_t (v - 1)) in *.
  destruct Hcases as
    [(Hp & -> & -> & -> & -> & ->)
    |(Hp & lo & hi & Hp1 & Hlk & Hcases)].
  { rewrite length_insert. lia. }
  destruct Hcases as
    [(_ & -> & -> & -> & -> & ->)
    |(Hlt & cnt & c2 & s & c3 & _ & Hs & Hcases)].
  { rewrite length_insert. lia. }
  cbv zeta in Hcases.
  pose proof (Hrange c2 lo (hi - 1) ltac:(lia)) as Hin.
  rewrite Hs in Hin. cbn [fst] in Hin.
  pose proof (combinations_split sr (Z.to_nat p) lo hi s Hlk Hin) as Hsplit.
  pose proof (combinations_pos (<[Z.to_nat p := (lo, s)]> sr)) as Hone2.
  destruct Hcases as (b1 & sr2 & t3 & c4 & vs1 & Hrec1 & Hcases).
  pose proof (IH _ _ _ _ _ _ _ _ _ Hrec1) as E1.
  rewrite length_app, length_insert in E1. cbn [length] in E1.
  pose proof (read_subtree_visits_structure _ _ _ _ _ _ _ _ _ _ _ Hrec1)
    as (_ & _ & _ & _ & Hsame1 & _).
  destruct Hcases as
    [(-> & -> & _ & -> & _)
    |(-> & r2 & Hr2 & b2 & sr4 & t4 & c5 & vs2 & Hrec2 & Hcases)].
  { lia. }
  specialize (Hsame1 eq_refl). subst sr2.
  rewrite list_insert_insert_eq in Hrec2.
  pose proof (IH _ _ _ _ _ _ _ _ _ Hrec2) as E2.
  destruct Hcases as
    [(-> & -> & _ & -> & _)
    |(-> & r4 & Hr4 & -> & _ & -> & _)]; lia.
Qed.

Lemma narrowed_refl sr : narrowed sr sr.
Proof. split; [reflexivity|]. intros i a b lo hi Ha Hb. rewrite Ha in Hb.
  injection Hb as <- <-. lia. Qed.

Lemma narrowed_insert sr root i lo hi a b :
  narrowed sr root -> sr !! i = Some (lo, hi) -> lo <= a -> b <= hi ->
  narrowed (<[i := (a, b)]> sr) root.
Proof.
  intros [Hlen Hin] Hlk Ha Hb. split; [now rewrite length_insert|].
  intros j a' b' rlo rhi Hj Hroot.
  destruct (decide (i = j)) as [<-|Hne].
  - rewrite list_lookup_insert_eq in Hj by (eapply lookup_lt_Some; eauto).
    injection Hj as <- <-.
    destruct (Hin i lo hi rlo rhi Hlk Hroot). lia.
  - rewrite list_lookup_insert_ne in Hj by done. eauto.
Qed.

(** Decoding keeps every node within the ranges the decoder started
    from, as the ranges it asks for only get narrower. *)
Lemma read_subtree_visits_within root fuel nb pos sr t c sr' t' c' vs :
  read_int_in_range C -> config_fits ->
  read_subtree_visits fuel nb pos sr t c = Done (true, sr', t', c', vs) ->
  narrowed sr root -> Forall (node_within root) t ->
  Forall (node_within root) t'.
Proof.
  intros Hrange (Hmin & Hle & Hmax).
  revert pos sr t c sr' t' c' vs.
  induction fuel as [|fuel IH]; intros pos sr t c sr' t' c' vs Hr Hnar Ht;
    [discriminate|].
  apply read_subtree_visits_inv in Hr.
  destruct Hr as (n & v & c1 & Hn & _ & Hcases). cbv zeta in Hcases.
  set (p := int8_t (v - 1)) in *.
  destruct Hcases as
    [(Hp & _ & -> & -> & -> & ->)
    |(Hp & lo & hi & Hp1 & Hlk & Hcases)].
  { apply Forall_insert; [exact Ht|]. intros Hq. now destruct n. }
  destruct Hcases as
    [(_ & [=] & _)
    |(Hlt & cnt & c2 & s & c3 & Hcnt & Hs & Hcases)].
  cbv zeta in Hcases.
  pose proof (Hrange c1 _ _ Hle) as Hcin. rewrite Hcnt in Hcin. cbn [fst] in Hcin.
  pose proof (Hrange c2 lo (hi - 1) ltac:(lia)) as Hin.
  rewrite Hs in Hin. cbn [fst] in Hin.
  destruct Hcases as (b1 & sr2 & t3 & c4 & vs1 & Hrec1 & Hcases).
  destruct Hcases as
    [(_ & [=] & _)
    |(-> & r2 & Hr2 & b2 & sr4 & t4 & c5 & vs2 & Hrec2 & Hcases)].
  destruct Hcases as
    [(_ & [=] & _)
    |(-> & r4 & Hr4 & _ & _ & -> & _)].
  pose proof (read_subtree_visits_structure _ _ _ _ _ _ _ _ _ _ _ Hrec1)
    as (_ & _ & _ & _ & Hsame1 & _).
  specialize (Hsame1 eq_refl). subst sr2.
  rewrite list_insert_insert_eq in Hrec2.
  assert (exists rlo rhi, root !! Z.to_nat p = Some (rlo, rhi) /\
                          rlo <= lo /\ hi <= rhi) as (rlo & rhi & Hroot & Hlo & Hhi).
  { destruct Hnar as [Hlen Hinside].
    destruct (lookup_lt_is_Some_2 root (Z.to_nat p)) as [[rlo rhi] Hroot].
    { rewrite <- Hlen. eapply lookup_lt_Some; eauto. }
    exists rlo, rhi. split; [exact Hroot|]. eauto. }
  apply (IH _ _ _ _ _ _ _ _ Hrec2).
  { apply (narrowed_insert sr root _ lo hi); [exact Hnar|exact Hlk|lia..]. }
  apply (IH _ _ _ _ _ _ _ _ Hrec1).
  { apply (narrowed_insert sr root _ lo hi); [exact Hnar|exact Hlk|lia..]. }
  apply Forall_app_2.
  - apply Forall_insert; [exact Ht|]. intros _.
    destruct n as [np nc ns nch nl]. cbn.
    split; [exact Hp1|]. exists rlo, rhi. split; [exact Hroot|].
    rewrite int16_t_id by lia. lia.
  - do 2 (constructor; [intros Hq; now cbn in Hq|]). constructor.
Qed.

(** X12. The decoder builds full binary trees.  [read_subtree] writes
    the node at [pos] and appends nodes, nothing else: the nodes that
    were there stay as they were, the range vector keeps its length, and
    at a node without a property the nodes appended are two for every
    node that gets a property, but for the one node at which a call that
    returns false stops.  So a tree that [read_tree] returns with true
    has [2 * inner + 1] nodes, [inner] of them with a property. *)
Theorem read_subtree_appends_pairs :
  (forall fuel nb pos sr t c b sr' t' c' n0,
      read_subtree fuel nb pos sr t c = Done (b, sr', t', c') ->
      t !! pos = Some n0 -> property n0 = -1 ->
      (forall i, (i < length t)%nat -> i <> pos -> t' !! i = t !! i) /\
      length sr' = length sr /\
      (length t' + 2 * inner_nodes t + (if b then 0 else 2) =
       length t + 2 * inner_nodes t')%nat) /\
  (forall fuel (m : MetaPropertySymbolCoder.t) b tree m',
      read_tree fuel m = Done (b, tree, m') ->
      (length tree + (if b then 0 else 2) = 2 * inner_nodes tree + 1)%nat).
Proof.
  split.
  - intros fuel nb pos sr t c b sr' t' c' n0 Hr Hn0 Hp0.
    apply read_subtree_Done in Hr. destruct Hr as [vs Hr].
    pose proof (read_subtree_visits_structure _ _ _ _ _ _ _ _ _ _ _ Hr)
      as (_ & Hlen & _ & Hframe & _).
    split; [exact Hframe|]. split; [exact Hlen|].
    exact (read_subtree_visits_pairs _ _ _ _ _ _ _ _ _ _ _ _ Hr Hn0 Hp0).
  - intros fuel m b tree m' Hr.
    apply read_tree_Done in Hr. destruct Hr as (sr' & c' & Hr & _).
    apply read_subtree_Done in Hr. destruct Hr as [vs Hr].
    pose proof (read_subtree_visits_pairs _ _ _ _ _ _ _ _ _ _ _
                  PropertyDecisionNode_default Hr eq_refl eq_refl) as E.
    cbn in E. lia.
Qed.

(** X13. A bound on the decoded tree.  With a decoder that keeps to the
    ranges asked for, every split divides the combinations of property
    values its range vector leaves between its two subtrees, so a call
    of [read_subtree] appends at most two nodes for every combination
    but one, whatever it returns; a tree decoded by [read_tree] has at
    most [2 * combinations - 1] nodes. *)
Theorem read_subtree_size_bound :
  read_int_in_range C ->
  (forall fuel nb pos sr t c b sr' t' c',
      read_subtree fuel nb pos sr t c = Done (b, sr', t', c') ->
      (length t' + 2 <= length t + 2 * combinations sr)%nat) /\
  (forall fuel (m : MetaPropertySymbolCoder.t) b tree m',
      read_tree fuel m = Done (b, tree, m') ->
      (length tree + 1 <= 2 * combinations (range m))%nat).
Proof.
  intros Hrange. split.
  - intros fuel nb pos sr t c b sr' t' c' Hr.
    apply read_subtree_Done in Hr. destruct Hr as [vs Hr].
    exact (read_subtree_visits_size _ _ _ _ _ _ _ _ _ _ _ Hrange Hr).
  - intros fuel m b tree m' Hr.
    apply read_tree_Done in Hr. destruct Hr as (sr' & c' & Hr & _).
    apply read_subtree_Done in Hr. destruct Hr as [vs Hr].
    pose proof (read_subtree_visits_size _ _ _ _ _ _ _ _ _ _ _ Hrange Hr) as E.
    cbn [length app] in E. lia.
Qed.

(** X14. A decoded tree fits the ranges of its decoder.  With a decoder
    that keeps to the ranges asked for and count bounds that fit the
    count field, every node with a property of a tree that [read_tree]
    returns with true has its split value within the range the decoder
    was constructed with for that property, below its upper end, and its
    count within the configured bounds; when the lower bound is not
    negative no node of the tree is activated, and activation goes top
    down. *)
Theorem read_tree_within_ranges fuel (m : MetaPropertySymbolCoder.t) tree m' :
  read_int_in_range C -> config_fits ->
  read_tree fuel m = Done (true, tree, m') ->
  Forall (node_within (range m)) tree /\
  (0 <= CONTEXT_TREE_MIN_COUNT ->
   activated tree = 0%nat /\ activation_top_down tree).
Proof.
  intros Hrange Hcfg Hr.
  apply read_tree_Done in Hr. destruct Hr as (sr' & c' & Hr & _).
  apply read_subtree_Done in Hr. destruct Hr as [vs Hr].
  assert (Forall (node_within (range m)) tree) as Hall.
  { apply (read_subtree_visits_within _ _ _ _ _ _ _ _ _ _ _ Hrange Hcfg Hr
             (narrowed_refl _)).
    constructor; [intros Hq; now cbn in Hq|constructor]. }
  split; [exact Hall|]. intros Hmin.
  assert (Forall (fun n => is_activated n = false) tree) as Hoff.
  { eapply Forall_impl; [exact Hall|]. intros n Hn. unfold is_activated.
    destruct (Z.eqb_spec (property n) (-1)) as [|Hp]; [reflexivity|].
    destruct (Hn Hp) as (_ & lo & hi & _ & _ & Hc & _).
    destruct (Z.ltb_spec (count n) 0); [lia|reflexivity]. }
  split.
  - clear -Hoff. induction Hoff as [|n tree Hn _ IH]; [reflexivity|].
    unfold activated in *. cbn [foldr]. rewrite Hn, IH. reflexivity.
  - intros pos n c0 k _ _ _ _ Hk.
    rewrite Forall_lookup in Hoff. exact (Hoff c0 k Hk).
Qed.

End Decoding.

(** ** The properties on the scenarios *)

Import Examples.

Lemma split_tree_children_after cnt :
  FinalPropertySymbolCoder.children_after (split_tree cnt).
Proof.
  intros pos n Hn Hp. destruct pos as [|[|[|pos]]]; try discriminate;
    injection Hn as <-; cbn in *; (lia || congruence).
Qed.

Lemma split_tree_top_down cnt : activation_top_down (split_tree cnt).
Proof.
  intros pos n c m Hn Hp _ Hc Hm.
  destruct pos as [|[|[|pos]]]; try discriminate;
    injection Hn as <-; cbn in Hc, Hp; try congruence.
  destruct Hc as [-> | ->]; injection Hm as <-; reflexivity.
Qed.

Lemma read_int_preserves_well_formedness_witness :
  exists v s',
    FinalPropertySymbolCoder.read_int_nbits 1 [0; 200; 0] 8 (split_coder 0)
      = Done (v, s') /\
    FinalPropertySymbolCoder.well_formed s' /\
    FinalPropertySymbolCoder.nb_properties s' = 3%nat.
Proof.
  do 2 eexists. split; [reflexivity|].
  destruct (@read_int_preserves_well_formedness toy_primitives
              1 [0; 200; 0] 0 0 8 (split_coder 0) _ _
              (split_coder_well_formed 0) (or_intror eq_refl))
    as (Hwf & _ & Hnb & _).
  split; [exact Hwf | exact Hnb].
Defined.

Lemma find_leaf_store_append_only_witness :
  exists leaf s',
    FinalPropertySymbolCoder.find_leaf_from 1 [0; 7; 0] 0 (split_coder 0)
      = Done (leaf, s') /\
    ((FinalPropertySymbolCoder.leaf_node s'
        = FinalPropertySymbolCoder.leaf_node (split_coder 0) /\
      is_Some (FinalPropertySymbolCoder.leaf_node (split_coder 0) !! leaf)) \/
     (exists old copy,
         FinalPropertySymbolCoder.leaf_node (split_coder 0) !! old = Some copy /\
         FinalPropertySymbolCoder.leaf_node s'
           = FinalPropertySymbolCoder.leaf_node (split_coder 0) ++ [copy] /\
         (leaf = old \/
          leaf = length (FinalPropertySymbolCoder.leaf_node (split_coder 0))))).
Proof.
  do 2 eexists. split; [reflexivity|].
  apply (@find_leaf_store_append_only toy_primitives 1 [0; 7; 0] 0
           (split_coder 0) _ _ (split_coder_well_formed 0) eq_refl).
Defined.

Lemma find_leaf_counts_down_once_witness :
  exists leaf s' stop,
    FinalPropertySymbolCoder.find_leaf_from 1 [0; 200; 0] 0 (split_coder 2)
      = Done (leaf, s') /\
    forall i, i <> stop ->
      count <$> FinalPropertySymbolCoder.inner_node s' !! i
      = count <$> split_tree 2 !! i.
Proof.
  destruct (@find_leaf_counts_down_once toy_primitives 1 [0; 200; 0] 0
              (split_coder 2) _ _ (split_coder_well_formed 2) eq_refl)
    as (stop & Hframe & _).
  eexists _, _, stop. split; [reflexivity|exact Hframe].
Defined.

Lemma find_leaf_again_same_leaf_witness :
  exists s1 leaf' s2,
    FinalPropertySymbolCoder.find_leaf_from 1 [0; 7; 0] 0 (split_coder 0)
      = Done (1%nat, s1) /\
    FinalPropertySymbolCoder.find_leaf_from 2 [0; 7; 0] 0 s1 = Done (leaf', s2) /\
    leaf' = 1%nat.
Proof.
  do 3 eexists. split; [reflexivity|]. split; [reflexivity|].
  apply (@find_leaf_again_same_leaf toy_primitives 1 2 [0; 7; 0] 0
           (split_coder 0) 1 _ _ _ (split_coder_well_formed 0)
           (split_tree_children_after 0) (split_tree_top_down 0)
           eq_refl eq_refl eq_refl).
Defined.

Lemma read_subtree_size_bound_witness :
  (length (split_tree 1) + 1 <= 2 * combinations small_ranges)%nat.
Proof.
  apply (proj2 (@read_subtree_size_bound (list Z) replay_coder example_config
                  replay_coder_in_range)
           2%nat (MetaPropertySymbolCoder.mk [2; 1; 128; 0; 0] small_ranges 3)
           true (split_tree 1)
           (MetaPropertySymbolCoder.mk [] small_ranges 3)
           eq_refl).
Defined.

Lemma read_tree_within_ranges_witness :
  Forall (@node_within example_config byte_ranges) (split_tree 1).
Proof.
  apply (@read_tree_within_ranges (list Z) replay_coder example_config
           2 (MetaPropertySymbolCoder.mk [2; 1; 128; 0; 0] byte_ranges 3)
           (split_tree 1) (MetaPropertySymbolCoder.mk [] byte_ranges 3)
           replay_coder_in_range example_config_fits eq_refl).
Defined.

End Maniac_more.
